(** * calendar-mcp: availability, conflict detection and synchronisation

    A shallow embedding of the algorithmic core of the unified calendar
    server: [src/utils/datetime.ts] (interval algebra),
    [src/services/free-busy-service.ts] (availability engine),
    [src/services/conflict-service.ts] (conflict detector),
    [src/services/calendar-service.ts] (orchestrator),
    [src/services/sync-service.ts] (event matcher) and
    [src/providers/index.ts] (provider registry).

    Modelling conventions.
    - An ISO-8601 instant (a Luxon [DateTime], or a string handed to
      [new Date(..).getTime()] / [parseDateTime]) is its number of
      milliseconds since the epoch, a [Z].  Luxon compares instants by that
      number.  Strings that do not parse are outside the model.
    - Civil-calendar operations ([startOf('day')], [plus({days})],
      [weekdayLong], [hasSame(.., 'day')]) are taken in the UTC zone.
    - JavaScript numbers holding scores are exact rationals ([Q]).
    - The length of a proposed interval is an exact number of milliseconds.
      [findAlternativeSlot] holds it as a double number of minutes
      ([diff(.., 'minutes').minutes], free-busy-service.ts:401) and adds it
      back with [plus({ minutes })] (line 419); for a length that is not a
      whole number of minutes the product can miss the length by one unit in
      the last place (31000 ms comes back as 31000.000000000004 ms), so the
      statements about [findAlternativeSlot] are statements about the walk in
      exact arithmetic and agree with the code where that round trip is
      exact, as it is for every whole number of minutes.
    - An [async] function returns a [Promise]: either [Resolved v] or
      [Rejected reason]; [await] is the bind of that monad.
    - JavaScript strings are [string]s of 8-bit characters. *)

From Stdlib Require Import ZArith QArith Qround List Bool Lia Lqa Permutation Sorted.
From Stdlib Require Import Ascii String.
From stdpp Require Import gmap strings.
Import ListNotations.

Open Scope Z_scope.

(** ** Array.prototype.sort *)

(** [arr.sort(cmp)] is a stable sort.  [leb a b] stands for [cmp(a,b) <= 0];
    [x] is placed in front of the first element it does not exceed, which
    keeps equal elements in their original order. *)
Fixpoint sortInsert {A : Type} (leb : A -> A -> bool) (x : A) (l : list A) : list A :=
  match l with
  | [] => [x]
  | y :: l' => if leb x y then x :: y :: l' else y :: sortInsert leb x l'
  end.

Fixpoint sortBy {A : Type} (leb : A -> A -> bool) (l : list A) : list A :=
  match l with
  | [] => []
  | x :: l' => sortInsert leb x (sortBy leb l')
  end.

(** ** Promises *)

(** What a rejected promise carries: the repository's [CalendarMCPError], any
    other [Error], or a thrown value that is not an [Error]. *)
Inductive Thrown : Type :=
| CalendarMCPError (code : string) (message : string) (retryable : bool)
| OtherError (message : string)
| NonError.

Inductive Promise (A : Type) : Type :=
| Resolved (a : A)
| Rejected (reason : Thrown).
Arguments Resolved {A} a.
Arguments Rejected {A} reason.

Definition await {A B : Type} (p : Promise A) (k : A -> Promise B) : Promise B :=
  match p with
  | Resolved a => k a
  | Rejected r => Rejected r
  end.

Notation "x <- p ;; k" := (await p (fun x => k))
  (at level 100, p at next level, right associativity).

(** [Promise.allSettled] never rejects: it keeps every outcome in order. *)
Definition allSettled {A : Type} (ps : list (Promise A)) : Promise (list (Promise A)) :=
  Resolved ps.

(** [Promise.all([p, q])]: rejects with the first rejection in array order
    (every promise of the model is already settled). *)
Definition promiseAll2 {A B : Type} (p : Promise A) (q : Promise B) : Promise (A * B) :=
  match p, q with
  | Resolved a, Resolved b => Resolved (a, b)
  | Rejected r, _ => Rejected r
  | _, Rejected r => Rejected r
  end.

(** ** Data model ([src/types/calendar.ts], [src/types/free-busy.ts]) *)

Inductive ProviderType : Type := exchange | google | microsoft.

Definition ProviderType_eqb (a b : ProviderType) : bool :=
  match a, b with
  | exchange, exchange | google, google | microsoft, microsoft => true
  | _, _ => false
  end.

Inductive ShowAs : Type :=
| showAs_free | showAs_busy | showAs_tentative | showAs_oof | showAs_workingElsewhere.

Definition ShowAs_eqb (a b : ShowAs) : bool :=
  match a, b with
  | showAs_free, showAs_free | showAs_busy, showAs_busy
  | showAs_tentative, showAs_tentative | showAs_oof, showAs_oof
  | showAs_workingElsewhere, showAs_workingElsewhere => true
  | _, _ => false
  end.

Inductive BusyStatus : Type := status_busy | status_tentative | status_oof.

Definition BusyStatus_eqb (a b : BusyStatus) : bool :=
  match a, b with
  | status_busy, status_busy | status_tentative, status_tentative
  | status_oof, status_oof => true
  | _, _ => false
  end.

(** The fields of [CalendarEvent] that the modelled services read. *)
Record CalendarEvent : Type := mkEvent {
  ev_id : string;
  ev_provider : ProviderType;
  ev_calendarId : string;
  ev_subject : string;
  ev_start : Z;
  ev_end : Z;
  ev_isAllDay : bool;
  ev_location : option string;
  ev_showAs : ShowAs;
  ev_iCalUId : option string
}.

Record BusySlot : Type := mkBusySlot {
  bs_start : Z;
  bs_end : Z;
  bs_status : BusyStatus;
  bs_eventSubject : option string;
  bs_eventId : option string
}.

Record FreeSlot : Type := mkFreeSlot {
  fs_start : Z;
  fs_end : Z;
  fs_durationMinutes : Z
}.

Record WorkingHours : Type := mkWorkingHours {
  wh_start : Z * Z;          (* "HH:mm" split at the colon *)
  wh_end : Z * Z;
  wh_days : list string
}.

Record CalendarFreeBusy : Type := mkCalendarFreeBusy {
  cfb_provider : ProviderType;
  cfb_calendarId : string;
  cfb_calendarName : string;
  cfb_busy : list BusySlot
}.

Record FreeBusyParams : Type := mkFreeBusyParams {
  fbp_startTime : Z;
  fbp_endTime : Z;
  fbp_providers : option (list ProviderType);
  fbp_calendarIds : option (list string);
  fbp_slotDuration : option Z;
  fbp_workingHoursOnly : option bool;
  fbp_workingHours : option WorkingHours
}.

Record FreeBusyError : Type := mkFreeBusyError {
  fbe_provider : ProviderType;
  fbe_calendarId : string;
  fbe_message : string
}.

Record FreeBusyResponse : Type := mkFreeBusyResponse {
  fbr_calendars : gmap string CalendarFreeBusy;
  fbr_unified_busy : list BusySlot;
  fbr_unified_free : list FreeSlot;
  fbr_suggestedSlots : option (list FreeSlot);
  fbr_errors : option (list FreeBusyError)
}.

Record ListEventsParams : Type := mkListEventsParams {
  lep_startTime : Z;
  lep_endTime : Z;
  lep_providers : option (list ProviderType);
  lep_calendarIds : option (list string);
  lep_expandRecurring : option bool;
  lep_maxResults : option nat
}.

Record ProviderError : Type := mkProviderError {
  pe_provider : ProviderType;
  pe_providerId : string;
  pe_code : string;
  pe_message : string;
  pe_retryable : bool
}.

Record ListEventsResult : Type := mkListEventsResult {
  ler_events : list CalendarEvent;
  ler_errors : option (list ProviderError);
  ler_partialSuccess : bool
}.

Record CheckConflictsParams : Type := mkCheckConflictsParams {
  ccp_startTime : Z;
  ccp_endTime : Z;
  ccp_excludeEventId : option string;
  ccp_excludeProvider : option ProviderType
}.

Record Conflict : Type := mkConflict {
  cf_id : string;
  cf_provider : ProviderType;
  cf_calendarId : string;
  cf_subject : string;
  cf_start : Z;
  cf_end : Z;
  cf_showAs : ShowAs
}.

(** The [reason] text of a suggestion: ['Next available slot today'] or
    ['Next available slot on <date>'], the date kept as its UTC day number. *)
Inductive Reason : Type :=
| NextAvailableToday
| NextAvailableOn (day : Z).

Record Suggestion : Type := mkSuggestion {
  sg_start : Z;
  sg_end : Z;
  sg_reason : Reason
}.

Record ConflictCheckResult : Type := mkConflictCheckResult {
  ccr_hasConflict : bool;
  ccr_conflicts : list Conflict;
  ccr_suggestion : option Suggestion
}.

(** The provider capability interface, as far as the services call it. *)
Record ICalendarProvider : Type := mkProvider {
  providerId : string;
  providerType : ProviderType;
  isConnected : bool;
  listEvents : ListEventsParams -> Promise (list CalendarEvent);
  getFreeBusy : FreeBusyParams -> Promise CalendarFreeBusy
}.

(** [ProviderRegistry]: the registered providers in insertion order. *)
Definition ProviderRegistry : Type := list ICalendarProvider.

Definition getConnected (registry : ProviderRegistry) : list ICalendarProvider :=
  List.filter isConnected registry.

(** ** [src/utils/datetime.ts] *)

Definition msPerMinute : Z := 60000.
Definition msPerDay : Z := 86400000.

Definition rangesOverlap (s1 e1 s2 e2 : Z) : bool :=
  (s1 <? e2) && (e1 >? s2).

(** A Luxon [Interval]: [Interval.fromDateTimes(s, e)] is invalid when
    [e < s]; an invalid interval has no [start] and no [end]. *)
Record Interval : Type := fromDateTimes { i_s : Z; i_e : Z }.

Definition isValid (i : Interval) : bool := i_s i <=? i_e i.

Definition createInterval (s e : Z) : Interval := fromDateTimes s e.

(** [this.e > other.s && this.s < other.e] *)
Definition overlaps (a b : Interval) : bool :=
  (i_e a >? i_s b) && (i_s a <? i_e b).

(** [+this.e === +other.s] *)
Definition abutsStart (a b : Interval) : bool := i_e a =? i_s b.

Fixpoint mergeIntervals_loop (current : Interval) (rest merged : list Interval)
  : list Interval :=
  match rest with
  | [] => merged ++ [current]
  | next :: rest' =>
      if overlaps current next || abutsStart current next then
        let currentEnd := i_e current in
        let nextEnd := i_e next in
        mergeIntervals_loop
          (fromDateTimes (i_s current)
             (if currentEnd >? nextEnd then currentEnd else nextEnd))
          rest' merged
      else mergeIntervals_loop next rest' (merged ++ [current])
  end.

Definition mergeIntervals (intervals : list Interval) : list Interval :=
  match intervals with
  | [] => []
  | _ =>
      let validIntervals := List.filter isValid intervals in
      match sortBy (fun a b => i_s a <=? i_s b) validIntervals with
      | [] => []
      | first :: rest => mergeIntervals_loop first rest []
      end
  end.

(** The [for] loop of [findGaps]; the result is the cursor and the gaps when
    the loop is left, by exhaustion or by [break]. *)
Fixpoint findGaps_loop (rangeStart rangeEnd : Z) (merged : list Interval)
  (cursor : Z) (gaps : list Interval) : Z * list Interval :=
  match merged with
  | [] => (cursor, gaps)
  | interval :: rest =>
      if negb (isValid interval) then
        findGaps_loop rangeStart rangeEnd rest cursor gaps
      else
        let intervalStart := i_s interval in
        let intervalEnd := i_e interval in
        if intervalEnd <=? rangeStart then
          findGaps_loop rangeStart rangeEnd rest cursor gaps
        else if intervalStart >=? rangeEnd then (cursor, gaps)
        else
          let effectiveStart :=
            if intervalStart >? rangeStart then intervalStart else rangeStart in
          let effectiveEnd :=
            if intervalEnd <? rangeEnd then intervalEnd else rangeEnd in
          let gaps' :=
            if cursor <? effectiveStart
            then gaps ++ [fromDateTimes cursor effectiveStart] else gaps in
          findGaps_loop rangeStart rangeEnd rest effectiveEnd gaps'
  end.

Definition findGaps (intervals : list Interval) (rangeStart rangeEnd : Z)
  : list Interval :=
  let merged := mergeIntervals intervals in
  let '(cursor, gaps) := findGaps_loop rangeStart rangeEnd merged rangeStart [] in
  if cursor <? rangeEnd then gaps ++ [fromDateTimes cursor rangeEnd] else gaps.

(** [Math.round(ms / 60000)]: rounding to the nearest minute, halves up. *)
Definition roundMinutes (ms : Z) : Z := (ms + 30000) / msPerMinute.

(** UTC calendar days. *)
Definition startOfDay (t : Z) : Z := t - t mod msPerDay.

Definition weekdayNames : list string :=
  ["monday"; "tuesday"; "wednesday"; "thursday"; "friday"; "saturday"; "sunday"]%string.

(** [dt.weekdayLong.toLowerCase()]; 1970-01-01 was a Thursday. *)
Definition weekdayLong (t : Z) : string :=
  nth (Z.to_nat ((t / msPerDay + 3) mod 7)) weekdayNames "monday"%string.

Definition includes_string (l : list string) (s : string) : bool :=
  existsb (String.eqb s) l.

Definition setTime (t : Z) (hm : Z * Z) : Z :=
  startOfDay t + fst hm * 3600000 + snd hm * msPerMinute.

Definition getWorkingHoursForDay (defaults : WorkingHours) (date : Z)
  (workingHours : option WorkingHours) : option (Z * Z) :=
  let hours := match workingHours with Some h => h | None => defaults end in
  let dayName := weekdayLong date in
  if negb (includes_string (wh_days hours) dayName) then None
  else Some (setTime date (wh_start hours), setTime date (wh_end hours)).

(** ** [src/services/free-busy-service.ts]: FreeBusyService *)

Definition with_end (s : BusySlot) (e : Z) : BusySlot :=
  mkBusySlot (bs_start s) e (bs_status s) (bs_eventSubject s) (bs_eventId s).

Definition with_status (s : BusySlot) (st : BusyStatus) : BusySlot :=
  mkBusySlot (bs_start s) (bs_end s) st (bs_eventSubject s) (bs_eventId s).

Fixpoint mergeBusySlots_loop (current : BusySlot) (rest merged : list BusySlot)
  : list BusySlot :=
  match rest with
  | [] => merged ++ [current]
  | next :: rest' =>
      let currentEnd := bs_end current in
      let nextStart := bs_start next in
      if nextStart <=? currentEnd then
        let nextEnd := bs_end next in
        let current1 :=
          if nextEnd >? currentEnd then with_end current (bs_end next) else current in
        let current2 :=
          if BusyStatus_eqb (bs_status next) status_busy
             || negb (BusyStatus_eqb (bs_status current1) status_busy)
          then with_status current1 (bs_status next) else current1 in
        mergeBusySlots_loop current2 rest' merged
      else mergeBusySlots_loop next rest' (merged ++ [current])
  end.

Definition mergeBusySlots (slots : list BusySlot) : list BusySlot :=
  match sortBy (fun a b => bs_start a <=? bs_start b) slots with
  | [] => []
  | first :: rest => mergeBusySlots_loop first rest []
  end.

Definition computeFreeSlots (busySlots : list BusySlot) (rangeStart rangeEnd : Z)
  : list FreeSlot :=
  let busyIntervals :=
    List.map (fun slot => createInterval (bs_start slot) (bs_end slot)) busySlots in
  let gaps := findGaps busyIntervals rangeStart rangeEnd in
  List.map (fun gap => mkFreeSlot (i_s gap) (i_e gap) (roundMinutes (i_e gap - i_s gap)))
    (List.filter isValid gaps).

(** The day-by-day [while (cursor < slotEnd)] loop of [filterToWorkingHours];
    [days] bounds the number of rounds. *)
Fixpoint filterToWorkingHours_days (defaults : WorkingHours)
  (workingHours : option WorkingHours) (slotStart slotEnd : Z)
  (days : nat) (cursor : Z) (result : list FreeSlot) : list FreeSlot :=
  match days with
  | O => result
  | S days' =>
      if cursor <? slotEnd then
        let result' :=
          match getWorkingHoursForDay defaults cursor workingHours with
          | Some (workStart, workEnd) =>
              let effectiveStart := if slotStart >? workStart then slotStart else workStart in
              let effectiveEnd := if slotEnd <? workEnd then slotEnd else workEnd in
              if effectiveStart <? effectiveEnd then
                result ++ [mkFreeSlot effectiveStart effectiveEnd
                             (roundMinutes (effectiveEnd - effectiveStart))]
              else result
          | None => result
          end in
        filterToWorkingHours_days defaults workingHours slotStart slotEnd
          days' (cursor + msPerDay) result'
      else result
  end.

Definition filterToWorkingHours (defaults : WorkingHours) (freeSlots : list FreeSlot)
  (rangeStart rangeEnd : Z) (workingHours : option WorkingHours) : list FreeSlot :=
  fold_left
    (fun result slot =>
       let slotStart := fs_start slot in
       let slotEnd := fs_end slot in
       let cursor := startOfDay slotStart in
       filterToWorkingHours_days defaults workingHours slotStart slotEnd
         (Z.to_nat ((slotEnd - cursor) / msPerDay + 1)) cursor result)
    freeSlots [].

(** The [for .. of] loop of [findSuggestedSlots], with its [break]. *)
Fixpoint findSuggestedSlots_loop (minDurationMinutes : Z) (maxSuggestions : nat)
  (freeSlots suggested : list FreeSlot) : list FreeSlot :=
  match freeSlots with
  | [] => suggested
  | slot :: rest =>
      if fs_durationMinutes slot >=? minDurationMinutes then
        let slotStart := fs_start slot in
        let slotEnd := slotStart + minDurationMinutes * msPerMinute in
        let suggested' := suggested ++ [mkFreeSlot slotStart slotEnd minDurationMinutes] in
        if (maxSuggestions <=? List.length suggested')%nat then suggested'
        else findSuggestedSlots_loop minDurationMinutes maxSuggestions rest suggested'
      else findSuggestedSlots_loop minDurationMinutes maxSuggestions rest suggested
  end.

Definition findSuggestedSlots (freeSlots : list FreeSlot) (minDurationMinutes : Z)
  : list FreeSlot :=
  findSuggestedSlots_loop minDurationMinutes 5 freeSlots [].

(** [reason instanceof Error ? reason.message : 'Unknown error'] *)
Definition reasonMessage (r : Thrown) : string :=
  match r with
  | CalendarMCPError _ m _ => m
  | OtherError m => m
  | NonError => "Unknown error"%string
  end.

Definition includes_provider (l : list ProviderType) (p : ProviderType) : bool :=
  existsb (ProviderType_eqb p) l.

(** [params.providers && params.providers.length > 0] selects by type. *)
Definition filterProviders (wanted : option (list ProviderType))
  (providers : list ICalendarProvider) : list ICalendarProvider :=
  match wanted with
  | Some (t :: ts) =>
      List.filter (fun p => includes_provider (t :: ts) (providerType p)) providers
  | _ => providers
  end.

(** [obj[key] = value] on a plain object ([{}]) whose values are objects;
    the map holds the own properties of the object.  The key ['__proto__']
    reaches the setter inherited from [Object.prototype]: the assignment
    replaces the prototype of the object and creates no own property. *)
Definition setProperty {V : Type} (obj : gmap string V) (key : string) (value : V)
  : gmap string V :=
  if String.eqb key "__proto__" then obj else <[key := value]> obj.

(** One round of the loop over the settled [getFreeBusy] results. *)
Definition collectFreeBusy
  (acc : gmap string CalendarFreeBusy * list FreeBusyError * list BusySlot)
  (rp : Promise CalendarFreeBusy * ICalendarProvider)
  : gmap string CalendarFreeBusy * list FreeBusyError * list BusySlot :=
  let '(calendars, errors, allBusySlots) := acc in
  let '(result, provider) := rp in
  match result with
  | Resolved freeBusy =>
      (setProperty calendars (cfb_calendarId freeBusy) freeBusy, errors,
       allBusySlots ++ cfb_busy freeBusy)
  | Rejected reason =>
      (calendars,
       errors ++ [mkFreeBusyError (providerType provider) (providerId provider)
                    (reasonMessage reason)],
       allBusySlots)
  end.

Definition getAggregatedFreeBusy (defaults : WorkingHours)
  (registry : ProviderRegistry) (params : FreeBusyParams) : Promise FreeBusyResponse :=
  let providers := filterProviders (fbp_providers params) (getConnected registry) in
  match providers with
  | [] => Resolved (mkFreeBusyResponse ∅ [] [] None None)
  | _ =>
      results <- allSettled (List.map (fun p => getFreeBusy p params) providers) ;;
      let '(calendars, errors, allBusySlots) :=
        fold_left collectFreeBusy (combine results providers) (∅, [], []) in
      let mergedBusy := mergeBusySlots allBusySlots in
      let rangeStart := fbp_startTime params in
      let rangeEnd := fbp_endTime params in
      let freeSlots := computeFreeSlots mergedBusy rangeStart rangeEnd in
      let freeSlots :=
        match fbp_workingHoursOnly params with
        | Some true =>
            filterToWorkingHours defaults freeSlots rangeStart rangeEnd
              (fbp_workingHours params)
        | _ => freeSlots
        end in
      let suggestedSlots :=
        match fbp_slotDuration params with
        | Some d => if d >? 0 then Some (findSuggestedSlots freeSlots d) else None
        | None => None
        end in
      Resolved (mkFreeBusyResponse calendars mergedBusy freeSlots suggestedSlots
                  (match errors with [] => None | _ => Some errors end))
  end.

(** [Object.keys(response)]: the response object is built with [calendars]
    and [unified]; [suggestedSlots] and [errors] are assigned afterwards,
    each only when it is there. *)
Definition responseKeys (response : FreeBusyResponse) : list string :=
  ["calendars"; "unified"]%string
  ++ (match fbr_suggestedSlots response with
      | Some _ => ["suggestedSlots"]%string
      | None => []
      end)
  ++ (match fbr_errors response with
      | Some _ => ["errors"]%string
      | None => []
      end).

(** ** [src/services/calendar-service.ts]: CalendarService.listAllEvents *)

Definition INTERNAL_ERROR : string := "INTERNAL_ERROR"%string.

Definition toProviderError (provider : ICalendarProvider) (reason : Thrown)
  : ProviderError :=
  mkProviderError (providerType provider) (providerId provider)
    (match reason with CalendarMCPError c _ _ => c | _ => INTERNAL_ERROR end)
    (reasonMessage reason)
    (match reason with CalendarMCPError _ _ r => r | _ => false end).

Definition collectEvents (acc : list CalendarEvent * list ProviderError)
  (rp : Promise (list CalendarEvent) * ICalendarProvider)
  : list CalendarEvent * list ProviderError :=
  let '(events, errors) := acc in
  let '(result, provider) := rp in
  match result with
  | Resolved evs => (events ++ evs, errors)
  | Rejected reason => (events, errors ++ [toProviderError provider reason])
  end.

Definition listAllEvents (registry : ProviderRegistry) (params : ListEventsParams)
  : Promise ListEventsResult :=
  let providers := filterProviders (lep_providers params) (getConnected registry) in
  match providers with
  | [] => Resolved (mkListEventsResult [] None false)
  | _ =>
      results <- allSettled (List.map (fun p => listEvents p params) providers) ;;
      let '(events, errors) := fold_left collectEvents (combine results providers) ([], []) in
      let events := sortBy (fun a b => ev_start a <=? ev_start b) events in
      let limitedEvents :=
        match lep_maxResults params with
        | Some (S n) => firstn (S n) events
        | _ => events
        end in
      Resolved (mkListEventsResult limitedEvents
                  (match errors with [] => None | _ => Some errors end)
                  (negb (Nat.eqb (List.length errors) 0)
                   && negb (Nat.eqb (List.length events) 0)))
  end.

(** ** [src/services/conflict-service.ts]: ConflictService *)

Definition nonEmpty (s : string) : bool := negb (String.eqb s EmptyString).

(** The guard that skips the event being rescheduled. *)
Definition isExcluded (params : CheckConflictsParams) (event : CalendarEvent) : bool :=
  match ccp_excludeEventId params with
  | Some id =>
      nonEmpty id && String.eqb (ev_id event) id
      && match ccp_excludeProvider params with
         | Some p => ProviderType_eqb (ev_provider event) p
         | None => true
         end
  | None => false
  end.

Definition isConflict (params : CheckConflictsParams) (event : CalendarEvent) : bool :=
  if isExcluded params event then false
  else if ShowAs_eqb (ev_showAs event) showAs_free then false
  else rangesOverlap (ccp_startTime params) (ccp_endTime params)
         (ev_start event) (ev_end event).

Definition toConflict (event : CalendarEvent) : Conflict :=
  mkConflict (ev_id event) (ev_provider event) (ev_calendarId event)
    (ev_subject event) (ev_start event) (ev_end event) (ev_showAs event).

(** The busy times of [findAlternativeSlot], sorted by start. *)
Definition busySlotsOf (existingEvents : list CalendarEvent) : list (Z * Z) :=
  sortBy (fun a b => fst a <=? fst b)
    (List.map (fun e => (ev_start e, ev_end e))
       (List.filter (fun e => negb (ShowAs_eqb (ev_showAs e) showAs_free)) existingEvents)).

(** The inner [for] loop: the first busy time the candidate window hits. *)
Definition firstHit (busySlots : list (Z * Z)) (cursor slotEnd : Z) : option (Z * Z) :=
  List.find (fun busy => (cursor <? snd busy) && (slotEnd >? fst busy)) busySlots.

Definition suggestionAt (proposedStart cursor slotEnd : Z) : Suggestion :=
  let isLaterSameDay := cursor / msPerDay =? proposedStart / msPerDay in
  mkSuggestion cursor slotEnd
    (if isLaterSameDay then NextAvailableToday else NextAvailableOn (cursor / msPerDay)).

(** The [while (cursor < searchEnd)] loop.  [None] means that [fuel] rounds
    did not suffice; [Some r] that the loop was left with [return r]. *)
Fixpoint findAlternativeSlot_loop (fuel : nat) (proposedStart proposedEnd : Z)
  (duration searchEnd : Z) (busySlots : list (Z * Z)) (cursor : Z)
  : option (option Suggestion) :=
  match fuel with
  | O => None
  | S fuel' =>
      if cursor <? searchEnd then
        let slotEnd := cursor + duration in
        match firstHit busySlots cursor slotEnd with
        | Some busy =>
            let cursor1 := snd busy in
            let cursor2 := if cursor1 <=? proposedStart then proposedEnd else cursor1 in
            findAlternativeSlot_loop fuel' proposedStart proposedEnd duration searchEnd
              busySlots cursor2
        | None => Some (Some (suggestionAt proposedStart cursor slotEnd))
        end
      else Some None
  end.

(** One round more than there are busy times always suffices (every jump
    moves the cursor past the end of one more busy time), so the last branch
    is never taken.  [duration] is the exact length in milliseconds, where
    the code has the double [proposedEnd.diff(proposedStart, 'minutes').minutes]. *)
Definition findAlternativeSlot (proposedStart proposedEnd : Z)
  (existingEvents : list CalendarEvent) : Promise (option Suggestion) :=
  let duration := proposedEnd - proposedStart in
  let searchEnd := proposedStart + 7 * msPerDay in
  let busySlots := busySlotsOf existingEvents in
  match findAlternativeSlot_loop (S (List.length busySlots)) proposedStart proposedEnd
          duration searchEnd busySlots proposedStart with
  | Some r => Resolved r
  | None => Resolved None
  end.

Definition checkConflicts (registry : ProviderRegistry) (params : CheckConflictsParams)
  : Promise ConflictCheckResult :=
  let proposedStart := ccp_startTime params in
  let proposedEnd := ccp_endTime params in
  let bufferMinutes := 60 in
  let queryStart := proposedStart - bufferMinutes * msPerMinute in
  let queryEnd := proposedEnd + bufferMinutes * msPerMinute in
  let listParams := mkListEventsParams queryStart queryEnd None None (Some true) None in
  listed <- listAllEvents registry listParams ;;
  let events := ler_events listed in
  let conflicts := List.filter (isConflict params) events in
  let hasConflict := negb (Nat.eqb (List.length conflicts) 0) in
  suggestion <-
    (if hasConflict then findAlternativeSlot proposedStart proposedEnd events
     else Resolved None) ;;
  Resolved (mkConflictCheckResult hasConflict (List.map toConflict conflicts) suggestion).

(** ** [src/services/sync-service.ts]: SyncService *)

Inductive MatchConfidence : Type := high | medium | low.

(** The [details] text of a factor. *)
Inductive Details : Type :=
| PercentSimilar (percent : Z)
| Exact
| MinDifference (minutes : Z)
| OneOrBothMissing
| Same
| Different
| ExactMatch.

Record MatchFactor : Type := mkMatchFactor {
  mf_factor : string;
  mf_weight : Z;
  mf_matched : bool;
  mf_details : Details
}.

Record EventMatch : Type := mkEventMatch {
  em_sourceEvent : CalendarEvent;
  em_targetEvent : CalendarEvent;
  em_confidence : MatchConfidence;
  em_matchFactors : list MatchFactor;
  em_score : Q
}.

Record SyncParams : Type := mkSyncParams {
  sp_sourceProvider : ProviderType;
  sp_sourceCalendarId : option string;
  sp_targetProvider : ProviderType;
  sp_targetCalendarId : option string;
  sp_startTime : Z;
  sp_endTime : Z;
  sp_minConfidence : option MatchConfidence
}.

Record Statistics : Type := mkStatistics {
  totalSourceEvents : nat;
  totalTargetEvents : nat;
  matchedCount : nat;
  sourceOnlyCount : nat;
  targetOnlyCount : nat
}.

Record CalendarComparison : Type := mkCalendarComparison {
  cc_sourceCalendarId : string;
  cc_targetCalendarId : string;
  cc_sourceProvider : ProviderType;
  cc_targetProvider : ProviderType;
  cc_timeRange : Z * Z;
  cc_matches : list EventMatch;
  cc_sourceOnly : list CalendarEvent;
  cc_targetOnly : list CalendarEvent;
  cc_statistics : Statistics
}.

(** [String.prototype.toLowerCase] and [trim] on 8-bit characters. *)
Definition lowerChar (c : ascii) : ascii :=
  let n := nat_of_ascii c in
  if ((65 <=? n) && (n <=? 90))%nat then ascii_of_nat (n + 32) else c.

Fixpoint toLowerCase (s : string) : string :=
  match s with
  | EmptyString => EmptyString
  | String c s' => String (lowerChar c) (toLowerCase s')
  end.

Definition isWhiteSpace (c : ascii) : bool :=
  let n := nat_of_ascii c in
  ((n =? 32) || ((9 <=? n) && (n <=? 13)))%nat.

Fixpoint trimStart (s : string) : string :=
  match s with
  | EmptyString => EmptyString
  | String c s' => if isWhiteSpace c then trimStart s' else s
  end.

Fixpoint trimEnd (s : string) : string :=
  match s with
  | EmptyString => EmptyString
  | String c s' =>
      match trimEnd s' with
      | EmptyString => if isWhiteSpace c then EmptyString else String c EmptyString
      | t => String c t
      end
  end.

Definition trim (s : string) : string := trimEnd (trimStart s).

(** Row [i] of the edit-distance matrix from column [j] on: [row_above] is
    row [i-1] from column [j-1] on and [left] is [matrix[i][j-1]]. *)
Fixpoint matrixRow (c1 : ascii) (s2 : list ascii) (row_above : list Z) (left : Z)
  : list Z :=
  match s2, row_above with
  | c2 :: s2', diag :: ((up :: _) as row_above') =>
      let cost := if Ascii.eqb c1 c2 then 0 else 1 in
      let cell := Z.min (Z.min (up + 1) (left + 1)) (diag + cost) in
      cell :: matrixRow c1 s2' row_above' cell
  | _, _ => []
  end.

(** Rows [i], [i+1], ... for the remaining characters of [s1]; the result is
    the last row. *)
Fixpoint matrixRows (s1 s2 : list ascii) (i : Z) (row_above : list Z) : list Z :=
  match s1 with
  | [] => row_above
  | c1 :: s1' => matrixRows s1' s2 (i + 1) (i :: matrixRow c1 s2 row_above i)
  end.

(** [matrix[len1][len2]] *)
Definition editDistance (s1 s2 : string) : Z :=
  let l1 := list_ascii_of_string s1 in
  let l2 := list_ascii_of_string s2 in
  let row0 := List.map Z.of_nat (seq 0 (S (List.length l2))) in
  List.last (matrixRows l1 l2 1 row0) 0.

Definition fuzzyMatch (str1 str2 : string) : Q :=
  if negb (nonEmpty str1) && negb (nonEmpty str2) then 1%Q
  else if negb (nonEmpty str1) || negb (nonEmpty str2) then 0%Q
  else
    let s1 := trim (toLowerCase str1) in
    let s2 := trim (toLowerCase str2) in
    if String.eqb s1 s2 then 1%Q
    else
      let len1 := Z.of_nat (String.length s1) in
      let len2 := Z.of_nat (String.length s2) in
      if len1 =? 0 then 0%Q
      else if len2 =? 0 then 0%Q
      else
        let distance := editDistance s1 s2 in
        let maxLen := Z.max len1 len2 in
        (1 - inject_Z distance / inject_Z maxLen)%Q.

(** [Math.round] of a rational. *)
Definition roundQ (q : Q) : Z := Qfloor (q + (1 # 2))%Q.

Definition truthy (o : option string) : bool :=
  match o with Some s => nonEmpty s | None => false end.

Definition orEmpty (o : option string) : string :=
  match o with Some s => s | None => EmptyString end.

(** [diff <= 60000 ? 1 : diff <= 300000 ? 0.5 : 0] *)
Definition timeScore (diff : Z) : Q :=
  if diff <=? 60000 then 1%Q else if diff <=? 300000 then (1 # 2)%Q else 0%Q.

Definition boolScore (b : bool) : Q := if b then 1%Q else 0%Q.

Definition confidenceOf (score : Q) : MatchConfidence :=
  if Qle_bool (4 # 5) score then high
  else if Qle_bool (1 # 2) score then medium
  else low.

Definition calculateMatch (source target : CalendarEvent) : EventMatch :=
  let factors := [] in
  let totalWeight := 0 in
  let matchedWeight := 0%Q in
  (* subject *)
  let subjectWeight := 30 in
  let subjectMatched := fuzzyMatch (ev_subject source) (ev_subject target) in
  let factors := factors ++
    [mkMatchFactor "subject" subjectWeight (Qle_bool (4 # 5) subjectMatched)
       (PercentSimilar (roundQ (subjectMatched * 100)))] in
  let totalWeight := totalWeight + subjectWeight in
  let matchedWeight := (matchedWeight + inject_Z subjectWeight * subjectMatched)%Q in
  (* start time *)
  let startWeight := 25 in
  let startDiff := Z.abs (ev_start source - ev_start target) in
  let startMatched := startDiff <=? 60000 in
  let startScore := timeScore startDiff in
  let factors := factors ++
    [mkMatchFactor "startTime" startWeight startMatched
       (if startMatched then Exact else MinDifference (roundMinutes startDiff))] in
  let totalWeight := totalWeight + startWeight in
  let matchedWeight := (matchedWeight + inject_Z startWeight * startScore)%Q in
  (* end time *)
  let endWeight := 20 in
  let endDiff := Z.abs (ev_end source - ev_end target) in
  let endMatched := endDiff <=? 60000 in
  let endScore := timeScore endDiff in
  let factors := factors ++
    [mkMatchFactor "endTime" endWeight endMatched
       (if endMatched then Exact else MinDifference (roundMinutes endDiff))] in
  let totalWeight := totalWeight + endWeight in
  let matchedWeight := (matchedWeight + inject_Z endWeight * endScore)%Q in
  (* location, only when one of the two has one *)
  let '(factors, totalWeight, matchedWeight) :=
    if truthy (ev_location source) || truthy (ev_location target) then
      let locationWeight := 10 in
      let locationMatched :=
        fuzzyMatch (orEmpty (ev_location source)) (orEmpty (ev_location target)) in
      (factors ++
         [mkMatchFactor "location" locationWeight (Qle_bool (4 # 5) locationMatched)
            (if truthy (ev_location source) && truthy (ev_location target)
             then PercentSimilar (roundQ (locationMatched * 100))
             else OneOrBothMissing)],
       totalWeight + locationWeight,
       (matchedWeight + inject_Z locationWeight * locationMatched)%Q)
    else (factors, totalWeight, matchedWeight) in
  (* all-day flag *)
  let allDayWeight := 10 in
  let allDayMatched := Bool.eqb (ev_isAllDay source) (ev_isAllDay target) in
  let factors := factors ++
    [mkMatchFactor "isAllDay" allDayWeight allDayMatched
       (if allDayMatched then Same else Different)] in
  let totalWeight := totalWeight + allDayWeight in
  let matchedWeight := (matchedWeight + inject_Z allDayWeight * boolScore allDayMatched)%Q in
  (* iCalUId, only when both carry one *)
  let '(factors, totalWeight, matchedWeight) :=
    if truthy (ev_iCalUId source) && truthy (ev_iCalUId target) then
      let icalWeight := 5 in
      let icalMatched :=
        String.eqb (orEmpty (ev_iCalUId source)) (orEmpty (ev_iCalUId target)) in
      (factors ++
         [mkMatchFactor "iCalUId" icalWeight icalMatched
            (if icalMatched then ExactMatch else Different)],
       totalWeight + icalWeight,
       (matchedWeight + inject_Z icalWeight * boolScore icalMatched)%Q)
    else (factors, totalWeight, matchedWeight) in
  let score :=
    if totalWeight >? 0 then (matchedWeight / inject_Z totalWeight)%Q else 0%Q in
  mkEventMatch source target (confidenceOf score) factors score.

(** [calendarIds: id ? [id] : undefined] *)
Definition calendarIdsOf (id : option string) : option (list string) :=
  match id with
  | Some s => if nonEmpty s then Some [s] else None
  | None => None
  end.

Definition listSide (registry : ProviderRegistry) (provider : ProviderType)
  (calendarId : option string) (startTime endTime : Z) : Promise ListEventsResult :=
  listAllEvents registry
    (mkListEventsParams startTime endTime (Some [provider]) (calendarIdsOf calendarId)
       None None).

Definition minScoreOf (c : option MatchConfidence) : Q :=
  match c with
  | Some high => (4 # 5)%Q
  | Some medium => (1 # 2)%Q
  | _ => (3 # 10)%Q
  end.

Definition findMatchingEvents (registry : ProviderRegistry) (params : SyncParams)
  : Promise (list EventMatch) :=
  both <- promiseAll2
            (listSide registry (sp_sourceProvider params) (sp_sourceCalendarId params)
               (sp_startTime params) (sp_endTime params))
            (listSide registry (sp_targetProvider params) (sp_targetCalendarId params)
               (sp_startTime params) (sp_endTime params)) ;;
  let sourceEvents := ler_events (fst both) in
  let targetEvents := ler_events (snd both) in
  let minScore := minScoreOf (sp_minConfidence params) in
  let matches :=
    fold_left
      (fun matches sourceEvent =>
         fold_left
           (fun matches targetEvent =>
              let matchResult := calculateMatch sourceEvent targetEvent in
              if Qle_bool minScore (em_score matchResult)
              then matches ++ [matchResult] else matches)
           targetEvents matches)
      sourceEvents [] in
  Resolved (sortBy (fun a b => Qle_bool (em_score b) (em_score a)) matches).

(** One round of the inner loop of [compareCalendars]: a target whose id is
    taken is skipped; otherwise its match replaces the best one so far when
    it scores at least 0.5 and strictly more than that one. *)
Definition bestMatchStep (sourceEvent : CalendarEvent) (matchedTargetIds : gset string)
  (bestMatch : option EventMatch) (targetEvent : CalendarEvent) : option EventMatch :=
  if bool_decide (ev_id targetEvent ∈ matchedTargetIds) then bestMatch
  else
    let matchResult := calculateMatch sourceEvent targetEvent in
    if Qle_bool (1 # 2) (em_score matchResult)
       && match bestMatch with
          | None => true
          | Some best => negb (Qle_bool (em_score matchResult) (em_score best))
          end
    then Some matchResult else bestMatch.

(** The inner loop: the best match of one source event among the target
    events whose id is not yet taken. *)
Definition bestMatchFor (sourceEvent : CalendarEvent) (targetEvents : list CalendarEvent)
  (matchedTargetIds : gset string) : option EventMatch :=
  fold_left (bestMatchStep sourceEvent matchedTargetIds) targetEvents None.

(** The outer loop: matches, matched source ids, matched target ids. *)
Definition compareStep (targetEvents : list CalendarEvent)
  (st : list EventMatch * gset string * gset string) (sourceEvent : CalendarEvent)
  : list EventMatch * gset string * gset string :=
  let '(matches, matchedSourceIds, matchedTargetIds) := st in
  match bestMatchFor sourceEvent targetEvents matchedTargetIds with
  | Some bestMatch =>
      (matches ++ [bestMatch],
       {[ev_id sourceEvent]} ∪ matchedSourceIds,
       {[ev_id (em_targetEvent bestMatch)]} ∪ matchedTargetIds)
  | None => st
  end.

Definition compareEvents (sourceEvents targetEvents : list CalendarEvent)
  : list EventMatch * list CalendarEvent * list CalendarEvent :=
  let '(matches, matchedSourceIds, matchedTargetIds) :=
    fold_left (compareStep targetEvents) sourceEvents ([], ∅, ∅) in
  let sourceOnly :=
    List.filter (fun e => negb (bool_decide (ev_id e ∈ matchedSourceIds))) sourceEvents in
  let targetOnly :=
    List.filter (fun e => negb (bool_decide (ev_id e ∈ matchedTargetIds))) targetEvents in
  (matches, sourceOnly, targetOnly).

Definition orPrimary (id : option string) : string :=
  match id with Some s => s | None => "primary"%string end.

Definition compareCalendars (registry : ProviderRegistry) (params : SyncParams)
  : Promise CalendarComparison :=
  both <- promiseAll2
            (listSide registry (sp_sourceProvider params) (sp_sourceCalendarId params)
               (sp_startTime params) (sp_endTime params))
            (listSide registry (sp_targetProvider params) (sp_targetCalendarId params)
               (sp_startTime params) (sp_endTime params)) ;;
  let sourceEvents := ler_events (fst both) in
  let targetEvents := ler_events (snd both) in
  let '(matches, sourceOnly, targetOnly) := compareEvents sourceEvents targetEvents in
  Resolved
    (mkCalendarComparison
       (orPrimary (sp_sourceCalendarId params)) (orPrimary (sp_targetCalendarId params))
       (sp_sourceProvider params) (sp_targetProvider params)
       (sp_startTime params, sp_endTime params)
       matches sourceOnly targetOnly
       (mkStatistics (List.length sourceEvents) (List.length targetEvents)
          (List.length matches) (List.length sourceOnly) (List.length targetOnly))).

(** ** Vocabulary of the specification *)

(** Half-open membership of an instant in an interval, the clipping of an
    interval to a range, and the number of intervals of a list that hold a
    given instant. *)
Definition covers (t : Z) (i : Interval) : bool := (i_s i <=? t) && (t <? i_e i).

Definition clip (rangeStart rangeEnd : Z) (i : Interval) : Interval :=
  fromDateTimes (Z.max (i_s i) rangeStart) (Z.min (i_e i) rangeEnd).

Definition coverCount (t : Z) (l : list Interval) : nat :=
  List.length (List.filter (covers t) l).

Definition inRange (rangeStart rangeEnd t : Z) : bool :=
  (rangeStart <=? t) && (t <? rangeEnd).

(** The suggestion that [findSuggestedSlots] derives from a free slot. *)
Definition truncateTo (d : Z) (slot : FreeSlot) : FreeSlot :=
  mkFreeSlot (fs_start slot) (fs_start slot + d * msPerMinute) d.

(** The status-merge rule of the availability engine. *)
Definition mergedStatus (current next : BusyStatus) : BusyStatus :=
  match current, next with
  | status_busy, _ => status_busy
  | _, status_busy => status_busy
  | _, other => other
  end.

(** The slot that takes the place of two slots that overlap or touch, by the
    rule of the specification: it keeps the start (and the subject and id)
    of the slot held so far, takes the later end, and has the merged
    status. *)
Definition coalesce (current next : BusySlot) : BusySlot :=
  mkBusySlot (bs_start current) (Z.max (bs_end current) (bs_end next))
    (mergedStatus (bs_status current) (bs_status next))
    (bs_eventSubject current) (bs_eventId current).

(** A group is a slot and the slots that are coalesced into it, in order. *)
Definition groupSlots (g : BusySlot * list BusySlot) : list BusySlot :=
  fst g :: snd g.

Definition coalesceGroup (g : BusySlot * list BusySlot) : BusySlot :=
  fold_left coalesce (snd g) (fst g).

(** Each slot of the run starts no later than the slot coalesced so far
    ends. *)
Fixpoint IsRun (current : BusySlot) (absorbed : list BusySlot) : Prop :=
  match absorbed with
  | [] => True
  | next :: rest => bs_start next <= bs_end current /\ IsRun (coalesce current next) rest
  end.

(** Each group starts after the coalesced slot of the group before it ends. *)
Fixpoint Separated (groups : list (BusySlot * list BusySlot)) : Prop :=
  match groups with
  | g1 :: ((g2 :: _) as rest) =>
      bs_end (coalesceGroup g1) < bs_start (fst g2) /\ Separated rest
  | _ => True
  end.

Definition isBusy (slot : BusySlot) : bool := BusyStatus_eqb (bs_status slot) status_busy.

(** The status rule applied along a group: [busy] as soon as one slot of the
    group is, the status of the last slot otherwise. *)
Definition groupStatus (g : BusySlot * list BusySlot) : BusyStatus :=
  if existsb isBusy (groupSlots g) then status_busy
  else bs_status (List.last (snd g) (fst g)).

(** The forward walk of the alternative-slot search, in the words of the
    specification: from a candidate start either the horizon is reached, or
    the window is free, or the walk jumps to the end of the first busy time
    (in start order) that the window overlaps. *)
Section Walk.
Variables proposedStart proposedEnd : Z.
Variable busySlots : list (Z * Z).

Definition hits (cursor : Z) (busy : Z * Z) : Prop :=
  cursor < snd busy /\ cursor + (proposedEnd - proposedStart) > fst busy.

Inductive walk : Z -> option Suggestion -> Prop :=
| walk_horizon : forall cursor,
    proposedStart + 7 * msPerDay <= cursor ->
    walk cursor None
| walk_free : forall cursor,
    cursor < proposedStart + 7 * msPerDay ->
    (forall busy, In busy busySlots -> ~ hits cursor busy) ->
    walk cursor
      (Some (suggestionAt proposedStart cursor (cursor + (proposedEnd - proposedStart))))
| walk_jump : forall cursor before busy after r,
    cursor < proposedStart + 7 * msPerDay ->
    busySlots = before ++ busy :: after ->
    (forall b, In b before -> ~ hits cursor b) ->
    hits cursor busy ->
    walk (snd busy) r ->
    walk cursor r.
End Walk.

(** The factors of the match score as the specification lists them: weight
    and factor score, location and iCalUId only when they take part. *)
Definition factorScores (source target : CalendarEvent) : list (Z * Q) :=
  [(30, fuzzyMatch (ev_subject source) (ev_subject target));
   (25, timeScore (Z.abs (ev_start source - ev_start target)));
   (20, timeScore (Z.abs (ev_end source - ev_end target)))]
  ++ (if truthy (ev_location source) || truthy (ev_location target)
      then [(10, fuzzyMatch (orEmpty (ev_location source)) (orEmpty (ev_location target)))]
      else [])
  ++ [(10, boolScore (Bool.eqb (ev_isAllDay source) (ev_isAllDay target)))]
  ++ (if truthy (ev_iCalUId source) && truthy (ev_iCalUId target)
      then [(5, boolScore (String.eqb (orEmpty (ev_iCalUId source))
                             (orEmpty (ev_iCalUId target))))]
      else []).

Definition weightedSum (l : list (Z * Q)) : Q :=
  fold_left (fun acc wf => (acc + inject_Z (fst wf) * snd wf)%Q) l 0%Q.

Definition weightSum (l : list (Z * Q)) : Z :=
  fold_left (fun acc wf => acc + fst wf) l 0.

(** Greedy first-come-first-served matching, in the words of the
    specification: source events are taken in order; each gets a
    best-scoring target among those not yet claimed, provided that score
    reaches 0.5, and claims it. *)
Definition scoreOf (source target : CalendarEvent) : Q :=
  em_score (calculateMatch source target).

Inductive Greedy (targets : list CalendarEvent)
  : list CalendarEvent -> list CalendarEvent -> list EventMatch -> Prop :=
| greedy_done : forall claimed, Greedy targets claimed [] []
| greedy_none : forall claimed s sources ms,
    (forall t, In t targets -> ~ In t claimed -> (scoreOf s t < 1 # 2)%Q) ->
    Greedy targets claimed sources ms ->
    Greedy targets claimed (s :: sources) ms
| greedy_take : forall claimed s sources t ms,
    In t targets -> ~ In t claimed ->
    (1 # 2 <= scoreOf s t)%Q ->
    (forall t', In t' targets -> ~ In t' claimed -> (scoreOf s t' <= scoreOf s t)%Q) ->
    Greedy targets (t :: claimed) sources ms ->
    Greedy targets claimed (s :: sources) (calculateMatch s t :: ms).

(** The failed and the successful part of a free/busy fan-out. *)
Definition failedFreeBusy (params : FreeBusyParams) (providers : list ICalendarProvider)
  : list FreeBusyError :=
  flat_map
    (fun p => match getFreeBusy p params with
              | Rejected reason =>
                  [mkFreeBusyError (providerType p) (providerId p) (reasonMessage reason)]
              | Resolved _ => []
              end) providers.

Definition succeededBusy (params : FreeBusyParams) (providers : list ICalendarProvider)
  : list BusySlot :=
  flat_map
    (fun p => match getFreeBusy p params with
              | Resolved freeBusy => cfb_busy freeBusy
              | Rejected _ => []
              end) providers.

(** The same for an event listing. *)
Definition failedListings (params : ListEventsParams) (providers : list ICalendarProvider)
  : list ProviderError :=
  flat_map
    (fun p => match listEvents p params with
              | Rejected reason => [toProviderError p reason]
              | Resolved _ => []
              end) providers.

Definition succeededEvents (params : ListEventsParams) (providers : list ICalendarProvider)
  : list CalendarEvent :=
  flat_map
    (fun p => match listEvents p params with
              | Resolved evs => evs
              | Rejected _ => []
              end) providers.

(** [maxResults ? events.slice(0, maxResults) : events] *)
Definition limitEvents (maxResults : option nat) (events : list CalendarEvent)
  : list CalendarEvent :=
  match maxResults with
  | Some (S n) => firstn (S n) events
  | _ => events
  end.

(** The range that [checkConflicts] lists: the proposed interval with a
    buffer of 60 minutes on both sides. *)
Definition conflictQuery (params : CheckConflictsParams) : ListEventsParams :=
  mkListEventsParams (ccp_startTime params - 60 * msPerMinute)
    (ccp_endTime params + 60 * msPerMinute) None None (Some true) None.

(** What a listing keeps of a fan-out: the events of the providers that
    answered, in start order and cut to [maxResults], and one error for
    each provider that failed. *)
Definition survivingEvents (registry : ProviderRegistry) (query : ListEventsParams)
  : list CalendarEvent :=
  limitEvents (lep_maxResults query)
    (sortBy (fun a b => ev_start a <=? ev_start b)
       (succeededEvents query
          (filterProviders (lep_providers query) (getConnected registry)))).

Definition recordedErrors (registry : ProviderRegistry) (query : ListEventsParams)
  : list ProviderError :=
  failedListings query (filterProviders (lep_providers query) (getConnected registry)).

(** The listing that the synchronizer asks of one side. *)
Definition sideQuery (provider : ProviderType) (calendarId : option string)
  (startTime endTime : Z) : ListEventsParams :=
  mkListEventsParams startTime endTime (Some [provider]) (calendarIdsOf calendarId)
    None None.

(** The exclusion of [checkConflicts] in terms of the request: the id asked
    for is a non-empty string, it is the id of the event, and the provider
    asked for, if any, is the provider of the event. *)
Definition exclusionApplies (params : CheckConflictsParams) (event : CalendarEvent) : Prop :=
  exists id,
    ccp_excludeEventId params = Some id /\ id <> EmptyString /\ ev_id event = id
    /\ (ccp_excludeProvider params = None
        \/ ccp_excludeProvider params = Some (ev_provider event)).

(** Intervals that are non-empty, in increasing order and apart from each
    other, all of them starting after [b]. *)
Inductive SepAfter : Z -> list Interval -> Prop :=
| sep_nil : forall b, SepAfter b []
| sep_cons : forall b i l,
    b < i_s i -> i_s i < i_e i -> SepAfter (i_e i) l -> SepAfter b (i :: l).

(** The busy times that still end after the cursor: the measure that
    decreases with every jump of the alternative-slot search. *)
Definition pending (busySlots : list (Z * Z)) (cursor : Z) : nat :=
  List.length (List.filter (fun busy => cursor <? snd busy) busySlots).

(** Every cell of a row of the edit-distance matrix, row [i] from column
    [j] on, lies between 0 and the larger of its two indices. *)
Fixpoint rowBounded (i j : Z) (row : list Z) : Prop :=
  match row with
  | [] => True
  | cell :: row' => 0 <= cell <= Z.max i j /\ rowBounded i (j + 1) row'
  end.

(** What the inner loop of [compareCalendars] holds after the targets
    [seen]: nothing when no free target of them scores 0.5, else the match
    with a best-scoring free target among them. *)
Definition IsBest (s : CalendarEvent) (taken : gset string)
  (seen : list CalendarEvent) (b : option EventMatch) : Prop :=
  match b with
  | None => forall t, In t seen -> ev_id t ∉ taken -> (scoreOf s t < 1 # 2)%Q
  | Some m =>
      (exists t, In t seen /\ (ev_id t ∉ taken) /\ m = calculateMatch s t
                 /\ (1 # 2 <= scoreOf s t)%Q)
      /\ forall t, In t seen -> ev_id t ∉ taken -> (scoreOf s t <= em_score m)%Q
  end.

Definition indicator (b : bool) : nat := if b then 1%nat else 0%nat.

(** ** Further functions of [src/utils/datetime.ts] *)

(** [dt.set({ hour, minute, second: 0 })]: the milliseconds of [dt] stay. *)
Definition setHourMinute (dt : Z) (hm : Z * Z) : Z :=
  startOfDay dt + fst hm * 3600000 + snd hm * msPerMinute + dt mod 1000.

Definition isWithinWorkingHours (defaults : WorkingHours) (dt : Z)
  (workingHours : option WorkingHours) : bool :=
  let hours := match workingHours with Some h => h | None => defaults end in
  let dayName := weekdayLong dt in
  if negb (includes_string (wh_days hours) dayName) then false
  else
    let workStart := setHourMinute dt (wh_start hours) in
    let workEnd := setHourMinute dt (wh_end hours) in
    (dt >=? workStart) && (dt <=? workEnd).

(** ** [src/providers/index.ts]: ProviderRegistry *)

(** The registry is a [Map] from provider id to provider; the list holds its
    values in insertion order.  A synchronous function that may throw
    returns a [Promise] as well: [Rejected] carries what it throws. *)

Definition PROVIDER_NOT_FOUND : string := "PROVIDER_NOT_FOUND"%string.

Module Registry.

  (** [Map.prototype.set]: an existing key keeps its place. *)
Fixpoint register (provider : ICalendarProvider) (registry : ProviderRegistry)
  : ProviderRegistry :=
  match registry with
  | [] => [provider]
  | p :: rest =>
      if String.eqb (providerId p) (providerId provider) then provider :: rest
      else p :: register provider rest
  end.

Definition get (registry : ProviderRegistry) (id : string) : option ICalendarProvider :=
  List.find (fun p => String.eqb (providerId p) id) registry.

Definition has (registry : ProviderRegistry) (id : string) : bool :=
  existsb (fun p => String.eqb (providerId p) id) registry.

Definition getOrThrow (registry : ProviderRegistry) (id : string)
  : Promise ICalendarProvider :=
  match get registry id with
  | Some provider => Resolved provider
  | None =>
      Rejected (CalendarMCPError PROVIDER_NOT_FOUND
                  (String.append "Provider not found: " id) false)
  end.

Definition getAll (registry : ProviderRegistry) : list ICalendarProvider := registry.

Definition getByType (registry : ProviderRegistry) (type : ProviderType)
  : list ICalendarProvider :=
  List.filter (fun p => ProviderType_eqb (providerType p) type) (getAll registry).

Definition count (registry : ProviderRegistry) : nat := List.length registry.

(** [Map.prototype.delete] *)
Definition delete (registry : ProviderRegistry) (id : string) : ProviderRegistry :=
  List.filter (fun p => negb (String.eqb (providerId p) id)) registry.

(** [remove]: the answer and the registry afterwards.  When [disconnect]
    throws, nothing is deleted. *)
Definition remove (disconnect : ICalendarProvider -> Promise unit)
  (registry : ProviderRegistry) (id : string) : Promise (bool * ProviderRegistry) :=
  match get registry id with
  | Some provider =>
      _ <- (if isConnected provider then disconnect provider else Resolved tt) ;;
      Resolved (true, delete registry id)
  | None => Resolved (false, registry)
  end.

End Registry.

(** ** Further functions of [src/services/calendar-service.ts] *)

Record Calendar : Type := mkCalendar {
  cal_id : string;
  cal_provider : ProviderType;
  cal_name : string;
  cal_email : string;
  cal_isPrimary : bool;
  cal_canEdit : bool
}.

Inductive AttendeeType : Type := att_required | att_optional | att_resource.
Inductive ResponseStatus : Type :=
| resp_accepted | resp_declined | resp_tentative | resp_needsAction.
Inductive Sensitivity : Type :=
| sens_normal | sens_personal | sens_private | sens_confidential.
Inductive BodyType : Type := body_text | body_html.

Record Attendee : Type := mkAttendee {
  att_email : string;
  att_name : option string;
  att_response : ResponseStatus;
  att_type : AttendeeType;
  att_isOrganizer : option bool
}.

(** The fields of [CalendarEvent] that [copyEvent] reads besides those of
    the record [CalendarEvent] above; a full event is the pair of both. *)
Record EventDetails : Type := mkEventDetails {
  ed_timezone : string;
  ed_body : option string;
  ed_bodyType : option BodyType;
  ed_attendees : option (list Attendee);
  ed_sensitivity : Sensitivity
}.

Definition FullEvent : Type := (CalendarEvent * EventDetails)%type.

Record AttendeeInput : Type := mkAttendeeInput {
  ai_email : string;
  ai_name : option string;
  ai_type : AttendeeType
}.

Record CreateEventParams : Type := mkCreateEventParams {
  cep_subject : string;
  cep_startTime : Z;
  cep_endTime : Z;
  cep_timezone : option string;
  cep_isAllDay : option bool;
  cep_location : option string;
  cep_body : option string;
  cep_bodyType : option BodyType;
  cep_attendees : option (list AttendeeInput);
  cep_showAs : option ShowAs;
  cep_sensitivity : option Sensitivity;
  cep_sendInvites : option bool
}.

(** The methods of the capability interface that the record
    [ICalendarProvider] above does not carry, as functions of the provider. *)
Record ProviderMethods : Type := mkProviderMethods {
  listCalendars : ICalendarProvider -> Promise (list Calendar);
  getEvent : ICalendarProvider -> string -> option string -> Promise FullEvent;
  createEvent : ICalendarProvider -> CreateEventParams -> option string -> Promise FullEvent
}.

(** [providerFilter?: ProviderType | 'all'] *)
Inductive ProviderFilter : Type :=
| FilterAll
| FilterType (type : ProviderType).

Definition collectCalendars (acc : list Calendar * list ProviderError)
  (rp : Promise (list Calendar) * ICalendarProvider)
  : list Calendar * list ProviderError :=
  let '(calendars, errors) := acc in
  let '(result, provider) := rp in
  match result with
  | Resolved cals => (calendars ++ cals, errors)
  | Rejected reason => (calendars, errors ++ [toProviderError provider reason])
  end.

Definition listAllCalendars (methods : ProviderMethods) (registry : ProviderRegistry)
  (providerFilter : option ProviderFilter)
  : Promise (list Calendar * list ProviderError) :=
  let providers := getConnected registry in
  let targetProviders :=
    match providerFilter with
    | Some (FilterType t) =>
        List.filter (fun p => ProviderType_eqb (providerType p) t) providers
    | _ => providers
    end in
  match targetProviders with
  | [] => Resolved ([], [])
  | _ =>
      results <- allSettled (List.map (listCalendars methods) targetProviders) ;;
      Resolved (fold_left collectCalendars (combine results targetProviders) ([], []))
  end.

Definition providerTypeName (type : ProviderType) : string :=
  match type with
  | exchange => "exchange"
  | google => "google"
  | microsoft => "microsoft"
  end.

(** [getProviderByType]: the first connected provider of the type, or a
    thrown [CalendarMCPError]. *)
Definition getProviderByType (registry : ProviderRegistry) (type : ProviderType)
  : Promise ICalendarProvider :=
  match List.find isConnected (Registry.getByType registry type) with
  | Some connected => Resolved connected
  | None =>
      Rejected (CalendarMCPError PROVIDER_NOT_FOUND
                  (String.append "No connected "
                     (String.append (providerTypeName type) " provider found")) false)
  end.

Definition CalendarService_getEvent (methods : ProviderMethods)
  (registry : ProviderRegistry) (eventId : string) (provider : ProviderType)
  (calendarId : option string) : Promise FullEvent :=
  providerInstance <- getProviderByType registry provider ;;
  getEvent methods providerInstance eventId calendarId.

Definition CalendarService_createEvent (methods : ProviderMethods)
  (registry : ProviderRegistry) (params : CreateEventParams) (provider : ProviderType)
  (calendarId : option string) : Promise FullEvent :=
  providerInstance <- getProviderByType registry provider ;;
  createEvent methods providerInstance params calendarId.

Definition hasConnectedProviders (registry : ProviderRegistry) : bool :=
  negb (Nat.eqb (List.length (getConnected registry)) 0).

(** [[...new Set(types)]]: the first occurrence of each type, in order. *)
Definition uniqueTypes (types : list ProviderType) : list ProviderType :=
  fold_left
    (fun seen t => if includes_provider seen t then seen else seen ++ [t])
    types [].

Definition getConnectedProviderTypes (registry : ProviderRegistry) : list ProviderType :=
  uniqueTypes (List.map providerType (getConnected registry)).

(** ** Further functions of [src/services/conflict-service.ts] *)

Definition checkEventConflicts (registry : ProviderRegistry) (event : CalendarEvent)
  : Promise ConflictCheckResult :=
  checkConflicts registry
    (mkCheckConflictsParams (ev_start event) (ev_end event)
       (Some (ev_id event)) (Some (ev_provider event))).

Definition checkRescheduleConflicts (registry : ProviderRegistry) (eventId : string)
  (provider : ProviderType) (newStartTime newEndTime : Z) : Promise ConflictCheckResult :=
  checkConflicts registry
    (mkCheckConflictsParams newStartTime newEndTime (Some eventId) (Some provider)).

(** ** [src/services/sync-service.ts]: SyncService.copyEvent *)

Record CopyParams : Type := mkCopyParams {
  cp_sourceEventId : string;
  cp_sourceProvider : ProviderType;
  cp_sourceCalendarId : option string;
  cp_targetProvider : ProviderType;
  cp_targetCalendarId : option string;
  cp_includeAttendees : option bool;
  cp_includeBody : option bool
}.

(** [CopyEventResult].  [CopyFailed] stands for the result with
    [success: false]: its [sourceEvent] is a placeholder made of the
    requested id, provider and calendar id ([''] when absent) and of
    constants (subject ['Unknown'], empty times). *)
Inductive CopyEventResult : Type :=
| CopySucceeded (sourceEvent copiedEvent : FullEvent)
| CopyFailed (sourceEventId : string) (provider : ProviderType) (calendarId : string)
    (error : string).

Definition copiedAttendees (params : CopyParams) (sourceEvent : FullEvent)
  : list AttendeeInput :=
  match cp_includeAttendees params with
  | Some true =>
      List.map (fun a => mkAttendeeInput (att_email a) (att_name a) (att_type a))
        (match ed_attendees (snd sourceEvent) with Some l => l | None => [] end)
  | _ => []
  end.

Definition copyCreateParams (params : CopyParams) (sourceEvent : FullEvent)
  : CreateEventParams :=
  let attendees := copiedAttendees params sourceEvent in
  let event := fst sourceEvent in
  let details := snd sourceEvent in
  mkCreateEventParams (ev_subject event) (ev_start event) (ev_end event)
    (Some (ed_timezone details)) (Some (ev_isAllDay event)) (ev_location event)
    (match cp_includeBody params with
     | Some false => None
     | _ => ed_body details
     end)
    (ed_bodyType details)
    (match attendees with [] => None | _ => Some attendees end)
    (Some (ev_showAs event)) (Some (ed_sensitivity details))
    (Some false).

(** [error instanceof Error ? error.message : 'Unknown error copying event'] *)
Definition copyErrorMessage (reason : Thrown) : string :=
  match reason with
  | CalendarMCPError _ m _ => m
  | OtherError m => m
  | NonError => "Unknown error copying event"%string
  end.

(** The [try] block of [copyEvent], then its [catch]. *)
Definition copyEvent (methods : ProviderMethods) (registry : ProviderRegistry)
  (params : CopyParams) : Promise CopyEventResult :=
  let attempt :=
    sourceEvent <- CalendarService_getEvent methods registry (cp_sourceEventId params)
                     (cp_sourceProvider params) (cp_sourceCalendarId params) ;;
    copiedEvent <- CalendarService_createEvent methods registry
                     (copyCreateParams params sourceEvent)
                     (cp_targetProvider params) (cp_targetCalendarId params) ;;
    Resolved (CopySucceeded sourceEvent copiedEvent) in
  match attempt with
  | Resolved result => Resolved result
  | Rejected error =>
      Resolved (CopyFailed (cp_sourceEventId params) (cp_sourceProvider params)
                  (match cp_sourceCalendarId params with
                   | Some c => c
                   | None => EmptyString
                   end)
                  (copyErrorMessage error))
  end.

(** ** Vocabulary of the further properties *)

(** Busy slots in increasing order of start, each one ending before the
    next one starts. *)
Definition apart (a b : BusySlot) : Prop :=
  bs_end a < bs_start b /\ bs_start a <= bs_start b.

Definition slotCovers (t : Z) (slot : BusySlot) : bool :=
  (bs_start slot <=? t) && (t <? bs_end slot).

Definition freeCovers (t : Z) (slot : FreeSlot) : bool :=
  (fs_start slot <=? t) && (t <? fs_end slot).

(** Valid intervals in increasing order, each one ending before the next
    one starts, all of them starting after [b]. *)
Inductive WideApart : Z -> list Interval -> Prop :=
| wide_nil : forall b, WideApart b []
| wide_cons : forall b i l,
    b < i_s i -> i_s i <= i_e i -> WideApart (i_e i) l -> WideApart b (i :: l).

(** A free slot whose [durationMinutes] is its length rounded to minutes. *)
Definition rounded (slot : FreeSlot) : Prop :=
  fs_durationMinutes slot = roundMinutes (fs_end slot - fs_start slot).

(** The part of a free slot that lies in the working window of the [k]-th
    calendar day counted from the day the slot starts on. *)
Definition windowOf (defaults : WorkingHours) (workingHours : option WorkingHours)
  (slot : FreeSlot) (k : nat) : option FreeSlot :=
  let day := startOfDay (fs_start slot) + Z.of_nat k * msPerDay in
  if day <? fs_end slot then
    match getWorkingHoursForDay defaults day workingHours with
    | Some (workStart, workEnd) =>
        let s := Z.max (fs_start slot) workStart in
        let e := Z.min (fs_end slot) workEnd in
        if s <? e then Some (mkFreeSlot s e (roundMinutes (e - s))) else None
    | None => None
    end
  else None.


(** The answers of the providers whose free/busy call succeeded, in provider
    order. *)
Definition succeededFreeBusy (params : FreeBusyParams) (providers : list ICalendarProvider)
  : list CalendarFreeBusy :=
  flat_map
    (fun p => match getFreeBusy p params with
              | Resolved freeBusy => [freeBusy]
              | Rejected _ => []
              end) providers.

(** The last answer that carries a given calendar id. *)
Definition lastAnswerFor (id : string) (answers : list CalendarFreeBusy)
  : option CalendarFreeBusy :=
  List.find (fun fb => String.eqb (cfb_calendarId fb) id) (rev answers).

(** The providers a calendar listing asks. *)
Definition calendarTargets (registry : ProviderRegistry)
  (providerFilter : option ProviderFilter) : list ICalendarProvider :=
  List.filter
    (fun p => isConnected p
              && match providerFilter with
                 | Some (FilterType t) => ProviderType_eqb (providerType p) t
                 | _ => true
                 end) registry.

(** The message of the error thrown when no provider of a type is connected. *)
Definition noConnectedProvider (type : ProviderType) : Thrown :=
  CalendarMCPError PROVIDER_NOT_FOUND
    (String.append "No connected "
       (String.append (providerTypeName type) " provider found")) false.

(** The first connected provider of a type, in registration order. *)
Definition firstConnected (registry : ProviderRegistry) (type : ProviderType)
  : option ICalendarProvider :=
  List.find (fun p => ProviderType_eqb (providerType p) type && isConnected p) registry.

(** * Properties *)

(** ** The stable sort *)

Section SortBy.
Context {A : Type}.
Variable leb : A -> A -> bool.

Lemma sortInsert_perm (x : A) (l : list A) :
  Permutation (sortInsert leb x l) (x :: l).
Proof.
  induction l as [|y l IH]; simpl.
  - apply Permutation_refl.
  - destruct (leb x y).
    + apply Permutation_refl.
    + eapply Permutation_trans; [apply perm_skip, IH | apply perm_swap].
Qed.

Lemma sortBy_perm (l : list A) : Permutation (sortBy leb l) l.
Proof.
  induction l as [|x l IH]; simpl.
  - apply perm_nil.
  - eapply Permutation_trans; [apply sortInsert_perm | apply perm_skip, IH].
Qed.

Lemma sortBy_In (l : list A) (x : A) : In x (sortBy leb l) <-> In x l.
Proof.
  split; apply Permutation_in; [|apply Permutation_sym]; apply sortBy_perm.
Qed.

Lemma sortBy_length (l : list A) : List.length (sortBy leb l) = List.length l.
Proof. apply Permutation_length, sortBy_perm. Qed.
End SortBy.

Section SortByKey.
Context {A : Type}.
Variable key : A -> Z.

Let leb : A -> A -> bool := fun a b => key a <=? key b.

Lemma sortInsert_sorted (x : A) (l : list A) :
  StronglySorted (fun a b => key a <= key b) l ->
  StronglySorted (fun a b => key a <= key b) (sortInsert leb x l).
Proof.
  induction 1 as [|y l Hs IH Hy]; simpl.
  - constructor; [constructor | constructor].
  - unfold leb at 1. destruct (Z.leb_spec (key x) (key y)) as [Hxy|Hxy].
    + constructor; [constructor; assumption|].
      constructor; [assumption|].
      rewrite List.Forall_forall in Hy. rewrite List.Forall_forall.
      intros z Hz. specialize (Hy z Hz). simpl in Hy. lia.
    + constructor; [assumption|].
      rewrite List.Forall_forall. intros z Hz.
      apply (Permutation_in _ (sortInsert_perm leb x l)) in Hz.
      destruct Hz as [<-|Hz]; [lia|].
      rewrite List.Forall_forall in Hy. auto.
Qed.

Lemma sortBy_sorted (l : list A) :
  StronglySorted (fun a b => key a <= key b) (sortBy leb l).
Proof.
  induction l as [|x l IH]; simpl.
  - constructor.
  - apply sortInsert_sorted, IH.
Qed.
End SortByKey.

Lemma In_firstn {A : Type} (n : nat) (l : list A) (x : A) :
  In x (firstn n l) -> In x l.
Proof.
  intros H. rewrite <- (firstn_skipn n l). apply in_or_app. left. exact H.
Qed.

(** ** The availability engine *)

Lemma mergeBusySlots_loop_app (rest : list BusySlot) :
  forall current merged,
    mergeBusySlots_loop current rest merged
    = merged ++ mergeBusySlots_loop current rest [].
Proof.
  induction rest as [|next rest IH]; intros current merged; simpl.
  - reflexivity.
  - destruct (bs_start next <=? bs_end current).
    + apply IH.
    + rewrite IH. rewrite (IH next [current]).
      rewrite <- app_assoc. reflexivity.
Qed.

Lemma mergeBusySlots_loop_skip (current next : BusySlot) (rest merged : list BusySlot) :
  bs_end current < bs_start next ->
  mergeBusySlots_loop current (next :: rest) merged
  = mergeBusySlots_loop next rest (merged ++ [current]).
Proof.
  intros Hlt. simpl. destruct (Z.leb_spec (bs_start next) (bs_end current)); [lia|].
  reflexivity.
Qed.

Lemma mergeBusySlots_loop_coalesce (current next : BusySlot) (rest merged : list BusySlot) :
  bs_start next <= bs_end current ->
  mergeBusySlots_loop current (next :: rest) merged
  = mergeBusySlots_loop (coalesce current next) rest merged.
Proof.
  intros Hle. simpl. apply Z.leb_le in Hle. rewrite Hle. f_equal.
  destruct current as [cs ce cst csub cid], next as [ns ne nst nsub nid].
  unfold coalesce, with_end, with_status. simpl.
  destruct (Z.gtb_spec ne ce); destruct cst, nst; simpl; f_equal; lia.
Qed.

Lemma coalesce_status_fold (absorbed : list BusySlot) :
  forall current,
    bs_status (fold_left coalesce absorbed current)
    = fold_left mergedStatus (List.map bs_status absorbed) (bs_status current).
Proof.
  induction absorbed as [|next rest IH]; intros current; simpl; [reflexivity|].
  rewrite IH. reflexivity.
Qed.

Lemma last_nonempty {A : Type} (x : A) (l : list A) (d d' : A) :
  List.last (x :: l) d = List.last (x :: l) d'.
Proof.
  revert x. induction l as [|y l IH]; intros x; [reflexivity|].
  change (List.last (y :: l) d = List.last (y :: l) d'). apply IH.
Qed.

Lemma mergedStatus_fold (l : list BusyStatus) :
  forall c,
    fold_left mergedStatus l c
    = if BusyStatus_eqb c status_busy
         || existsb (fun st => BusyStatus_eqb st status_busy) l
      then status_busy else List.last l c.
Proof.
  induction l as [|n l IH]; intros c.
  - simpl. destruct c; reflexivity.
  - cbn [fold_left existsb]. rewrite IH.
    destruct c, n; simpl; try reflexivity;
      destruct (existsb (fun st => BusyStatus_eqb st status_busy) l);
      try reflexivity;
      destruct l as [|r l']; try reflexivity; apply last_nonempty.
Qed.

Lemma groupStatus_fold (g : BusySlot * list BusySlot) :
  bs_status (coalesceGroup g) = groupStatus g.
Proof.
  destruct g as [first absorbed]. unfold coalesceGroup, groupStatus, groupSlots.
  cbn [fst snd existsb]. rewrite coalesce_status_fold, mergedStatus_fold.
  assert (He : existsb (fun st => BusyStatus_eqb st status_busy)
                 (List.map bs_status absorbed)
               = existsb isBusy absorbed).
  { induction absorbed as [|x l IHl]; simpl; [reflexivity|]. rewrite IHl. reflexivity. }
  assert (Hl : List.last (List.map bs_status absorbed) (bs_status first)
               = bs_status (List.last absorbed first)).
  { clear. revert first. induction absorbed as [|x l IHl]; intros first; [reflexivity|].
    destruct l as [|y l']; [reflexivity|].
    change (List.last (List.map bs_status (y :: l')) (bs_status first)
            = bs_status (List.last (y :: l') first)).
    apply IHl. }
  rewrite He, Hl. reflexivity.
Qed.

Lemma mergeBusySlots_loop_groups (rest : list BusySlot) :
  forall current,
  exists absorbed groups,
    rest = absorbed ++ flat_map groupSlots groups
    /\ mergeBusySlots_loop current rest []
       = List.map coalesceGroup ((current, absorbed) :: groups)
    /\ Forall (fun g => IsRun (fst g) (snd g)) ((current, absorbed) :: groups)
    /\ Separated ((current, absorbed) :: groups).
Proof.
  induction rest as [|next rest IH]; intros current.
  - exists [], []. simpl. repeat split; constructor; [exact I | constructor].
  - destruct (Z.le_gt_cases (bs_start next) (bs_end current)) as [Hle|Hgt].
    + rewrite (mergeBusySlots_loop_coalesce _ _ _ _ Hle).
      destruct (IH (coalesce current next)) as (absorbed & groups & -> & Heq & Hrun & Hsep).
      exists (next :: absorbed), groups.
      split; [reflexivity|]. split; [exact Heq|].
      inversion Hrun as [|? ? Hhead Htail]; subst. split.
      * constructor; [|exact Htail]. simpl. split; [exact Hle | exact Hhead].
      * exact Hsep.
    + rewrite mergeBusySlots_loop_skip by lia. rewrite mergeBusySlots_loop_app.
      destruct (IH next) as (absorbed & groups & -> & Heq & Hrun & Hsep).
      exists [], ((next, absorbed) :: groups).
      split; [reflexivity|]. split; [rewrite Heq; reflexivity|]. split.
      * constructor; [exact I | exact Hrun].
      * split; [exact Hgt | exact Hsep].
Qed.

(** C5.  For every list of busy slots, [mergeBusySlots] cuts the slots,
    taken in increasing order of start, into consecutive groups and returns
    one slot per group: a slot joins the group before it when it starts no
    later than the slot coalesced so far ends (it overlaps or touches it),
    and opens a group otherwise.  Coalescing two slots gives the status
    [busy] if either of the two is [busy] and the status of the incoming
    slot otherwise; so the slot returned for a group is [busy] as soon as
    one slot of the group is, and has the status of the last slot of the
    group otherwise. *)
Theorem mergeBusySlots_status_rule :
  forall slots : list BusySlot,
  exists groups : list (BusySlot * list BusySlot),
    flat_map groupSlots groups = sortBy (fun a b => bs_start a <=? bs_start b) slots
    /\ mergeBusySlots slots = List.map coalesceGroup groups
    /\ Forall (fun g => IsRun (fst g) (snd g)) groups
    /\ Separated groups
    /\ List.map bs_status (mergeBusySlots slots) = List.map groupStatus groups
    /\ (forall current next,
          bs_status (coalesce current next)
          = if isBusy current || isBusy next then status_busy else bs_status next).
Proof.
  intros slots. unfold mergeBusySlots.
  assert (Hpair : forall current next,
            bs_status (coalesce current next)
            = if isBusy current || isBusy next then status_busy else bs_status next).
  { intros current next. unfold coalesce, isBusy. simpl.
    destruct (bs_status current), (bs_status next); reflexivity. }
  destruct (sortBy (fun a b => bs_start a <=? bs_start b) slots) as [|first rest].
  - exists []. repeat split; try constructor. exact Hpair.
  - destruct (mergeBusySlots_loop_groups rest first)
      as (absorbed & groups & -> & Heq & Hrun & Hsep).
    exists ((first, absorbed) :: groups).
    split; [reflexivity|]. split; [exact Heq|]. split; [exact Hrun|].
    split; [exact Hsep|]. split; [|exact Hpair].
    rewrite Heq, List.map_map. apply map_ext. intros g. apply groupStatus_fold.
Qed.

(** Three runs: [tentative] then [oof] gives [oof]; [busy] then [tentative]
    stays [busy]; a slot that starts after the end of the run stands alone. *)
Example mergeBusySlots_status_example :
  mergeBusySlots
    [mkBusySlot 30 40 status_busy None None;
     mkBusySlot 0 10 status_tentative None None;
     mkBusySlot 35 50 status_tentative None None;
     mkBusySlot 10 20 status_oof None None;
     mkBusySlot 60 70 status_tentative None None]
  = [mkBusySlot 0 20 status_oof None None;
     mkBusySlot 30 50 status_busy None None;
     mkBusySlot 60 70 status_tentative None None].
Proof. reflexivity. Qed.

Lemma findSuggestedSlots_loop_spec (d : Z) (m : nat) (freeSlots : list FreeSlot) :
  forall suggested,
    (List.length suggested < m)%nat ->
    findSuggestedSlots_loop d m freeSlots suggested
    = suggested
      ++ firstn (m - List.length suggested)
           (List.map (truncateTo d)
              (List.filter (fun slot => fs_durationMinutes slot >=? d) freeSlots)).
Proof.
  induction freeSlots as [|slot rest IH]; intros suggested Hlen; simpl.
  - rewrite firstn_nil, app_nil_r. reflexivity.
  - destruct (fs_durationMinutes slot >=? d); [|apply IH; assumption].
    rewrite length_app. simpl.
    destruct (Nat.leb_spec m (List.length suggested + 1)) as [Hm|Hm].
    + replace (m - List.length suggested)%nat with 1%nat by lia.
      simpl. reflexivity.
    + rewrite IH by (rewrite length_app; simpl; lia).
      rewrite length_app. simpl.
      replace (m - List.length suggested)%nat
        with (S (m - (List.length suggested + 1)))%nat by lia.
      simpl. rewrite <- app_assoc. reflexivity.
Qed.


(** ** Interval algebra *)

Ltac zbool :=
  repeat match goal with
    | |- context [?a <=? ?b] => destruct (Z.leb_spec a b)
    | |- context [?a <? ?b] => destruct (Z.ltb_spec a b)
    | |- context [?a >? ?b] => destruct (Z.gtb_spec a b)
    | |- context [?a >=? ?b] => destruct (Z.geb_spec a b)
    | |- context [?a =? ?b] => destruct (Z.eqb_spec a b)
    | H : context [?a <=? ?b] |- _ => destruct (Z.leb_spec a b)
    | H : context [?a <? ?b] |- _ => destruct (Z.ltb_spec a b)
    | H : context [?a >? ?b] |- _ => destruct (Z.gtb_spec a b)
    | H : context [?a >=? ?b] |- _ => destruct (Z.geb_spec a b)
    | H : context [?a =? ?b] |- _ => destruct (Z.eqb_spec a b)
    end.

Lemma coverCount_app (t : Z) (l1 l2 : list Interval) :
  coverCount t (l1 ++ l2) = (coverCount t l1 + coverCount t l2)%nat.
Proof. unfold coverCount. rewrite List.filter_app, List.length_app. reflexivity. Qed.

Lemma coverCount_cons (t : Z) (i : Interval) (l : list Interval) :
  coverCount t (i :: l) = (indicator (covers t i) + coverCount t l)%nat.
Proof. unfold coverCount. simpl. destruct (covers t i); reflexivity. Qed.

Lemma mergeIntervals_loop_app (rest : list Interval) :
  forall current merged,
    mergeIntervals_loop current rest merged
    = merged ++ mergeIntervals_loop current rest [].
Proof.
  induction rest as [|next rest IH]; intros current merged; simpl.
  - reflexivity.
  - destruct (overlaps current next || abutsStart current next).
    + apply IH.
    + rewrite IH. rewrite (IH next [current]).
      rewrite <- app_assoc. reflexivity.
Qed.

Lemma mergeIntervals_loop_sep (rest : list Interval) :
  forall current b,
    b < i_s current -> i_s current < i_e current ->
    Forall (fun i => i_s i < i_e i) rest ->
    StronglySorted (fun x y => i_s x <= i_s y) (current :: rest) ->
    SepAfter b (mergeIntervals_loop current rest []).
Proof.
  induction rest as [|next rest IH]; intros current b Hb Hne Hall Hsorted; simpl.
  - constructor; [assumption | assumption | constructor].
  - inversion Hall as [|? ? Hnext Hrest]; subst.
    inversion Hsorted as [|? ? Htail Hhead]; subst.
    inversion Hhead as [|? ? Hcn Hcr]; subst.
    inversion Htail as [|? ? Htail' Hnr]; subst.
    destruct (overlaps current next || abutsStart current next) eqn:Hm.
    + apply IH; simpl; try assumption.
      * zbool; lia.
      * constructor; assumption.
    + rewrite mergeIntervals_loop_app. simpl.
      assert (i_e current < i_s next).
      { unfold overlaps, abutsStart in Hm. zbool; simpl in Hm; try discriminate; lia. }
      constructor; try assumption.
      apply IH; assumption.
Qed.

Lemma mergeIntervals_sep (intervals : list Interval) :
  (forall i, In i intervals -> i_s i <> i_e i) ->
  exists b, SepAfter b (mergeIntervals intervals).
Proof.
  intros Hne. unfold mergeIntervals.
  destruct intervals as [|i0 l0]; [exists 0; constructor|].
  set (valid := List.filter isValid (i0 :: l0)).
  assert (Hvalid : forall i, In i valid -> i_s i < i_e i).
  { intros i Hi. apply filter_In in Hi. destruct Hi as [Hin Hv].
    unfold isValid in Hv. apply Z.leb_le in Hv. specialize (Hne i Hin). lia. }
  pose proof (sortBy_sorted i_s valid) as Hsorted.
  assert (Hin : forall i, In i (sortBy (fun a b => i_s a <=? i_s b) valid) -> i_s i < i_e i).
  { intros i Hi. apply Hvalid. eapply sortBy_In. exact Hi. }
  destruct (sortBy (fun a b => i_s a <=? i_s b) valid) as [|first rest].
  - exists 0; constructor.
  - exists (i_s first - 1).
    apply mergeIntervals_loop_sep.
    + lia.
    + apply Hin; left; reflexivity.
    + rewrite List.Forall_forall. intros i Hi. apply Hin; right; exact Hi.
    + exact Hsorted.
Qed.

Lemma clip_beyond_range (rs re t : Z) (l : list Interval) :
  forall b, SepAfter b l -> re - 1 <= b ->
  coverCount t (List.map (clip rs re) l) = 0%nat.
Proof.
  induction l as [|i l IH]; intros b Hsep Hb; simpl.
  - reflexivity.
  - inversion Hsep; subst. rewrite coverCount_cons.
    rewrite (IH (i_e i)) by (assumption || lia).
    unfold covers, clip; simpl. zbool; simpl; lia.
Qed.

Lemma findGaps_loop_count (rs re t : Z) (merged : list Interval) :
  rs < re ->
  forall b cursor gaps,
    SepAfter b merged ->
    rs <= cursor <= re ->
    cursor <= Z.max b rs ->
    (coverCount t (snd (findGaps_loop rs re merged cursor gaps))
     + indicator (inRange (fst (findGaps_loop rs re merged cursor gaps)) re t)
     + coverCount t (List.map (clip rs re) merged)
     = coverCount t gaps + indicator (inRange cursor re t))%nat
    /\ fst (findGaps_loop rs re merged cursor gaps) <= re.
Proof.
  intros Hr.
  induction merged as [|i rest IH]; intros b cursor gaps Hsep Hc Hb; simpl.
  - split; [unfold coverCount; simpl; lia | lia].
  - inversion Hsep as [|? ? ? Hbi Hne Hsep']; subst.
    rewrite coverCount_cons.
    unfold isValid. destruct (Z.leb_spec (i_s i) (i_e i)); [simpl | lia].
    destruct (Z.leb_spec (i_e i) rs).
    + (* entirely before the range *)
      destruct (IH (i_e i) cursor gaps Hsep' Hc ltac:(lia)) as [IH1 IH2].
      split; [|exact IH2]. rewrite <- IH1.
      unfold covers, clip; simpl. zbool; simpl; lia.
    + destruct (Z.geb_spec (i_s i) re).
      * (* past the range: break *)
        simpl. split; [|lia].
        rewrite (clip_beyond_range rs re t rest (i_e i)) by (assumption || lia).
        unfold covers, clip; simpl. zbool; simpl; lia.
      * set (effectiveStart := if i_s i >? rs then i_s i else rs).
        set (effectiveEnd := if i_e i <? re then i_e i else re).
        assert (HeS : effectiveStart = Z.max (i_s i) rs)
          by (unfold effectiveStart; zbool; lia).
        assert (HeE : effectiveEnd = Z.min (i_e i) re)
          by (unfold effectiveEnd; zbool; lia).
        destruct (IH (i_e i) effectiveEnd
                    (if cursor <? effectiveStart
                     then gaps ++ [fromDateTimes cursor effectiveStart] else gaps)
                    Hsep' ltac:(lia) ltac:(lia)) as [IH1 IH2].
        split; [|exact IH2].
        assert (Hgaps :
          (coverCount t (if (cursor <? effectiveStart)%Z
                         then gaps ++ [fromDateTimes cursor effectiveStart] else gaps)
           = coverCount t gaps
             + indicator ((cursor <=? t)%Z && (t <? effectiveStart)%Z))%nat).
        { destruct (Z.ltb_spec cursor effectiveStart).
          - rewrite coverCount_app. unfold coverCount at 2. simpl.
            unfold covers; simpl.
            destruct ((cursor <=? t) && (t <? effectiveStart)); reflexivity.
          - zbool; simpl; lia. }
        rewrite Hgaps in IH1.
        assert (Hsplit :
          (indicator ((cursor <=? t)%Z && (t <? effectiveStart)%Z)
           + indicator (covers t (clip rs re i))
           + indicator (inRange effectiveEnd re t)
           = indicator (inRange cursor re t))%nat).
        { unfold covers, clip, inRange; simpl. rewrite HeS, HeE.
          zbool; simpl; lia. }
        lia.
Qed.

(** C3 (as amended).  For every range with [rangeStart < rangeEnd] and every
    list of busy intervals none of which has length zero, every instant of
    the range lies in exactly one of the gaps returned by [findGaps] and the
    merged busy intervals clipped to the range, and no instant outside the
    range lies in any of them; an empty list gives the one gap that spans
    the range. *)
Theorem findGaps_partition :
  forall (intervals : list Interval) (rangeStart rangeEnd t : Z),
    rangeStart < rangeEnd ->
    (forall i, In i intervals -> i_s i <> i_e i) ->
    (coverCount t (findGaps intervals rangeStart rangeEnd)
     + coverCount t (List.map (clip rangeStart rangeEnd) (mergeIntervals intervals))
     = indicator (inRange rangeStart rangeEnd t))%nat
    /\ findGaps [] rangeStart rangeEnd = [fromDateTimes rangeStart rangeEnd].
Proof.
  intros intervals rs re t Hr Hne. split.
  - destruct (mergeIntervals_sep intervals Hne) as [b Hsep].
    destruct (findGaps_loop_count rs re t (mergeIntervals intervals) Hr
                b rs [] Hsep ltac:(lia) ltac:(lia)) as [Hcount Hle].
    unfold findGaps.
    destruct (findGaps_loop rs re (mergeIntervals intervals) rs []) as [cursor gaps].
    simpl in Hcount, Hle.
    replace (coverCount t []) with 0%nat in Hcount by reflexivity.
    rewrite <- Hcount.
    destruct (Z.ltb_spec cursor re).
    + rewrite coverCount_app. unfold coverCount at 2. simpl.
      unfold covers, inRange; simpl.
      destruct ((cursor <=? t) && (t <? re)); simpl; lia.
    + unfold inRange. zbool; simpl; lia.
  - unfold findGaps. simpl. destruct (Z.ltb_spec rs re); [reflexivity | lia].
Qed.

Lemma findGaps_partition_witness :
  (coverCount 615
     (findGaps [fromDateTimes 540 600; fromDateTimes 630 660] 540 1020)
   + coverCount 615
       (List.map (clip 540 1020)
          (mergeIntervals [fromDateTimes 540 600; fromDateTimes 630 660]))
   = indicator (inRange 540 1020 615))%nat
  /\ findGaps [] 540 1020 = [fromDateTimes 540 1020].
Proof.
  apply (findGaps_partition [fromDateTimes 540 600; fromDateTimes 630 660] 540 1020 615).
  - lia.
  - intros i [<-|[<-|[]]]; simpl; lia.
Defined.

(** C3 as stated fails when a zero-length interval starts where a longer one
    starts: [5,10), [5,5), [6,8) in the range [0,20).  The empty interval is
    not merged and moves the cursor back to 5, so the gaps [5,6) and [8,20)
    overlap the busy interval [5,10): the instant 5 lies in a gap and in a
    busy interval. *)
Lemma findGaps_partition_counterexample :
  let intervals := [fromDateTimes 5 10; fromDateTimes 5 5; fromDateTimes 6 8] in
  0 < 20
  /\ findGaps intervals 0 20
     = [fromDateTimes 0 5; fromDateTimes 5 6; fromDateTimes 8 20]
  /\ mergeIntervals intervals = intervals
  /\ coverCount 5 (findGaps intervals 0 20) = 1%nat
  /\ coverCount 5 (List.map (clip 0 20) (mergeIntervals intervals)) = 1%nat
  /\ (coverCount 5 (findGaps intervals 0 20)
      + coverCount 5 (List.map (clip 0 20) (mergeIntervals intervals))
      <> indicator (inRange 0 20 5))%nat.
Proof.
  cbv zeta. repeat split; try reflexivity; try lia.
  vm_compute. discriminate.
Qed.

(** ** The orchestrator *)

Lemma collectEvents_fold (params : ListEventsParams) (providers : list ICalendarProvider) :
  forall events errors,
    fold_left collectEvents
      (combine (List.map (fun p => listEvents p params) providers) providers)
      (events, errors)
    = (events ++ succeededEvents params providers,
       errors ++ failedListings params providers).
Proof.
  induction providers as [|p ps IH]; intros events errors; simpl.
  - rewrite !app_nil_r. reflexivity.
  - destruct (listEvents p params) as [evs|reason]; simpl;
      rewrite IH, <- ?app_assoc; reflexivity.
Qed.

Lemma listAllEvents_resolved (registry : ProviderRegistry) (params : ListEventsParams) :
  let providers := filterProviders (lep_providers params) (getConnected registry) in
  exists listed,
    listAllEvents registry params = Resolved listed
    /\ ler_events listed
       = limitEvents (lep_maxResults params)
           (sortBy (fun a b => ev_start a <=? ev_start b)
              (succeededEvents params providers))
    /\ ler_errors listed
       = match failedListings params providers with
         | [] => None
         | errors => Some errors
         end.
Proof.
  intros providers. unfold listAllEvents. fold providers.
  destruct providers as [|p ps] eqn:Hp.
  - eexists. split; [reflexivity|]. simpl.
    destruct (lep_maxResults params) as [[|n]|]; split; reflexivity.
  - unfold allSettled, await.
    rewrite collectEvents_fold, !app_nil_l.
    eexists. split; [reflexivity|]. cbn [ler_events ler_errors].
    split; [reflexivity|].
    destruct (failedListings params (p :: ps)); reflexivity.
Qed.

(** ** The conflict detector: alternative-slot search *)

Lemma pending_decreases (l : list (Z * Z)) (cursor : Z) (busy : Z * Z) :
  In busy l -> cursor < snd busy ->
  (pending l (snd busy) < pending l cursor)%nat.
Proof.
  intros Hin Hlt.
  assert (Hmono : forall l' : list (Z * Z),
             (pending l' (snd busy) <= pending l' cursor)%nat).
  { unfold pending. induction l' as [|b l' IH]; simpl; [lia|].
    destruct (Z.ltb_spec (snd busy) (snd b)); destruct (Z.ltb_spec cursor (snd b));
      simpl; lia. }
  unfold pending in *.
  induction l as [|b l IH]; simpl; [destruct Hin|].
  destruct Hin as [->|Hin].
  - rewrite Z.ltb_irrefl. destruct (Z.ltb_spec cursor (snd busy)); [|lia].
    simpl. specialize (Hmono l). lia.
  - specialize (IH Hin).
    destruct (Z.ltb_spec (snd busy) (snd b)); destruct (Z.ltb_spec cursor (snd b));
      simpl; lia.
Qed.

Lemma pending_le_length (l : list (Z * Z)) (cursor : Z) :
  (pending l cursor <= List.length l)%nat.
Proof.
  unfold pending. induction l as [|b l IH]; simpl; [lia|].
  destruct (cursor <? snd b); simpl; lia.
Qed.

Section AlternativeSlot.
Variables proposedStart proposedEnd : Z.
Variable busySlots : list (Z * Z).

Let duration := proposedEnd - proposedStart.
Let searchEnd := proposedStart + 7 * msPerDay.

Lemma firstHit_Some (l : list (Z * Z)) (cursor : Z) (busy : Z * Z) :
  firstHit l cursor (cursor + duration) = Some busy ->
  exists before after,
    l = before ++ busy :: after
    /\ (forall b, In b before -> ~ hits proposedStart proposedEnd cursor b)
    /\ hits proposedStart proposedEnd cursor busy.
Proof.
  unfold firstHit, hits. fold duration.
  induction l as [|b l IH]; simpl; [discriminate|].
  destruct ((cursor <? snd b) && (cursor + duration >? fst b)) eqn:Hb.
  - intros [= <-]. exists [], l. split; [reflexivity|]. split.
    + intros b' [].
    + apply andb_true_iff in Hb. destruct Hb as [H1 H2].
      apply Z.ltb_lt in H1. apply Z.gtb_lt in H2. lia.
  - intros Hfind. destruct (IH Hfind) as (before & after & -> & Hbefore & Hhit).
    exists (b :: before), after. split; [reflexivity|]. split; [|exact Hhit].
    intros b' [<-|Hin]; [|apply Hbefore; exact Hin].
    intros [H1 H2]. apply andb_false_iff in Hb.
    destruct Hb as [Hb|Hb]; [apply Z.ltb_ge in Hb; lia|].
    rewrite Z.gtb_ltb in Hb. apply Z.ltb_ge in Hb. lia.
Qed.

Lemma firstHit_None (l : list (Z * Z)) (cursor : Z) :
  firstHit l cursor (cursor + duration) = None ->
  forall b, In b l -> ~ hits proposedStart proposedEnd cursor b.
Proof.
  unfold firstHit, hits. fold duration. intros Hfind b Hin [H1 H2].
  pose proof (find_none _ _ Hfind b Hin) as Hb. simpl in Hb.
  apply andb_false_iff in Hb.
  destruct Hb as [Hb|Hb]; [apply Z.ltb_ge in Hb; lia|].
  rewrite Z.gtb_ltb in Hb. apply Z.ltb_ge in Hb. lia.
Qed.

(** With more rounds than pending busy times the loop returns, and what it
    returns is the outcome of the walk. *)
Lemma findAlternativeSlot_loop_walk (fuel : nat) :
  forall cursor,
    proposedStart <= cursor ->
    (pending busySlots cursor < fuel)%nat ->
    exists r,
      findAlternativeSlot_loop fuel proposedStart proposedEnd duration searchEnd
        busySlots cursor = Some r
      /\ walk proposedStart proposedEnd busySlots cursor r.
Proof.
  induction fuel as [|fuel IH]; intros cursor Hge Hfuel; [lia|].
  simpl. destruct (Z.ltb_spec cursor searchEnd) as [Hin|Hout].
  - destruct (firstHit busySlots cursor (cursor + duration)) as [busy|] eqn:Hfind.
    + destruct (firstHit_Some _ _ _ Hfind) as (before & after & Hsplit & Hbefore & Hhit).
      assert (Hlt : cursor < snd busy) by (destruct Hhit; assumption).
      destruct (Z.leb_spec (snd busy) proposedStart); [lia|].
      assert (Hmem : In busy busySlots)
        by (rewrite Hsplit; apply in_or_app; right; left; reflexivity).
      pose proof (pending_decreases busySlots cursor busy Hmem Hlt).
      destruct (IH (snd busy)) as (r & Hr & Hwalk); [lia | lia |].
      exists r. split; [exact Hr|].
      eapply walk_jump; eauto.
    + eexists. split; [reflexivity|].
      apply walk_free; [exact Hin|]. apply firstHit_None. exact Hfind.
  - eexists. split; [reflexivity|]. apply walk_horizon. exact Hout.
Qed.

Lemma findAlternativeSlot_loop_more (fuel : nat) :
  forall cursor r,
    findAlternativeSlot_loop fuel proposedStart proposedEnd duration searchEnd
      busySlots cursor = Some r ->
    forall fuel', (fuel <= fuel')%nat ->
      findAlternativeSlot_loop fuel' proposedStart proposedEnd duration searchEnd
        busySlots cursor = Some r.
Proof.
  induction fuel as [|fuel IH]; intros cursor r Hr fuel' Hle; [discriminate|].
  destruct fuel' as [|fuel']; [lia|].
  simpl in Hr |- *.
  destruct (cursor <? searchEnd); [|exact Hr].
  destruct (firstHit busySlots cursor (cursor + duration)); [|exact Hr].
  apply IH with (fuel' := fuel') in Hr; [exact Hr | lia].
Qed.

Lemma split_first_unique (P : Z * Z -> Prop) :
  forall (b1 b2 : Z * Z) (pre1 post1 pre2 post2 : list (Z * Z)),
    pre1 ++ b1 :: post1 = pre2 ++ b2 :: post2 ->
    (forall b, In b pre1 -> ~ P b) -> P b1 ->
    (forall b, In b pre2 -> ~ P b) -> P b2 ->
    b1 = b2.
Proof.
  intros b1 b2 pre1. induction pre1 as [|x pre1 IH]; intros post1 pre2 post2 Heq H1 Hb1 H2 Hb2.
  - destruct pre2 as [|y pre2]; simpl in Heq.
    + congruence.
    + injection Heq as <- _. exfalso. apply (H2 b1); [left; reflexivity | exact Hb1].
  - destruct pre2 as [|y pre2]; simpl in Heq.
    + injection Heq as -> _. exfalso. apply (H1 b2); [left; reflexivity | exact Hb2].
    + injection Heq as -> Heq. eapply IH; eauto.
      * intros b Hb. apply H1. right. exact Hb.
      * intros b Hb. apply H2. right. exact Hb.
Qed.

Lemma walk_deterministic (cursor : Z) (r1 r2 : option Suggestion) :
  walk proposedStart proposedEnd busySlots cursor r1 ->
  walk proposedStart proposedEnd busySlots cursor r2 ->
  r1 = r2.
Proof.
  intros H1. revert r2.
  induction H1 as [c Hh | c Hin Hfree | c before busy after r Hin Hsplit Hbefore Hhit Hw IH];
    intros r2 H2.
  - inversion H2; subst; try reflexivity; lia.
  - inversion H2 as [| |? before busy after ? ? Hsplit Hbefore Hhit]; subst;
      try reflexivity; try lia.
    exfalso. apply (Hfree busy); [|exact Hhit].
    apply in_or_app; right; left; reflexivity.
  - inversion H2 as [|? ? Hfree|? before' busy' after' ? ? Hsplit' Hbefore' Hhit' Hw'];
      subst; try lia.
    + exfalso. apply (Hfree busy); [|exact Hhit].
      apply in_or_app; right; left; reflexivity.
    + assert (busy = busy').
      { eapply (split_first_unique (hits proposedStart proposedEnd c)); eauto. }
      subst busy'. apply IH. exact Hw'.
Qed.

Lemma walk_Some (cursor : Z) (r : option Suggestion) :
  walk proposedStart proposedEnd busySlots cursor r ->
  forall s, r = Some s ->
    cursor <= sg_start s < searchEnd
    /\ sg_end s = sg_start s + duration
    /\ forall b, In b busySlots -> ~ (sg_start s < snd b /\ sg_end s > fst b).
Proof.
  induction 1 as [c Hh | c Hin Hfree | c before busy after r Hin Hsplit Hbefore Hhit Hw IH];
    intros s Hs.
  - discriminate.
  - injection Hs as <-. simpl. repeat split; try lia; try assumption.
  - destruct (IH s Hs) as (Hr & He & Hno). destruct Hhit as [Hlt _].
    repeat split; try lia; assumption.
Qed.
End AlternativeSlot.

Lemma busySlotsOf_sorted (existingEvents : list CalendarEvent) :
  StronglySorted (fun a b => fst a <= fst b) (busySlotsOf existingEvents).
Proof. unfold busySlotsOf. apply (sortBy_sorted fst). Qed.

Lemma busySlotsOf_In (existingEvents : list CalendarEvent) (busy : Z * Z) :
  In busy (busySlotsOf existingEvents) <->
  exists e, In e existingEvents /\ ev_showAs e <> showAs_free
            /\ busy = (ev_start e, ev_end e).
Proof.
  unfold busySlotsOf. rewrite sortBy_In, in_map_iff. split.
  - intros (e & <- & He). apply filter_In in He. destruct He as [Hin Hs].
    exists e. repeat split; [exact Hin|]. intros Hfree. rewrite Hfree in Hs. discriminate.
  - intros (e & Hin & Hs & ->). exists e. split; [reflexivity|].
    apply filter_In. split; [exact Hin|]. destruct (ev_showAs e); try reflexivity.
    contradiction.
Qed.

(** The walk of [findAlternativeSlot] in exact millisecond arithmetic.  For
    every proposed interval and every finite list of existing events it
    returns: one round more than there are busy times is enough for its
    loop, and more rounds change nothing.  What it returns is the outcome of
    the walk that starts at [proposedStart] and
    jumps to the end of the first busy time (in start order) overlapping the
    candidate window: the first window that overlaps no busy time, or
    nothing once the candidate start has reached the horizon of seven days
    after [proposedStart]; that outcome is unique.  A round whose jump does
    not get past [proposedStart] continues from [proposedEnd]. *)
Theorem findAlternativeSlot_terminates :
  forall (proposedStart proposedEnd : Z) (existingEvents : list CalendarEvent),
    let busySlots := busySlotsOf existingEvents in
    let duration := proposedEnd - proposedStart in
    let searchEnd := proposedStart + 7 * msPerDay in
    exists r,
      findAlternativeSlot proposedStart proposedEnd existingEvents = Resolved r
      /\ (forall fuel, (List.length busySlots < fuel)%nat ->
            findAlternativeSlot_loop fuel proposedStart proposedEnd duration searchEnd
              busySlots proposedStart = Some r)
      /\ StronglySorted (fun a b => fst a <= fst b) busySlots
      /\ walk proposedStart proposedEnd busySlots proposedStart r
      /\ (forall r', walk proposedStart proposedEnd busySlots proposedStart r' -> r' = r)
      /\ (forall s, r = Some s ->
            proposedStart <= sg_start s < searchEnd
            /\ sg_end s = sg_start s + duration
            /\ forall busy, In busy busySlots ->
                 ~ (sg_start s < snd busy /\ sg_end s > fst busy))
      /\ (forall fuel cursor busy,
            cursor < searchEnd ->
            firstHit busySlots cursor (cursor + duration) = Some busy ->
            snd busy <= proposedStart ->
            findAlternativeSlot_loop (S fuel) proposedStart proposedEnd duration searchEnd
              busySlots cursor
            = findAlternativeSlot_loop fuel proposedStart proposedEnd duration searchEnd
                busySlots proposedEnd).
Proof.
  intros ps pe events busySlots duration searchEnd.
  pose proof (pending_le_length busySlots ps) as Hpending.
  destruct (findAlternativeSlot_loop_walk ps pe busySlots (S (List.length busySlots)) ps)
    as (r & Hr & Hwalk); [lia | lia |].
  fold duration searchEnd in Hr.
  exists r. split; [|split; [|split; [|split; [|split; [|split]]]]].
  - unfold findAlternativeSlot. fold busySlots duration searchEnd. rewrite Hr. reflexivity.
  - intros fuel Hfuel.
    apply (findAlternativeSlot_loop_more ps pe busySlots _ _ _ Hr). lia.
  - apply busySlotsOf_sorted.
  - exact Hwalk.
  - intros r' Hr'. eapply walk_deterministic; eassumption.
  - intros s Hs. apply (walk_Some ps pe busySlots ps r Hwalk s Hs).
  - intros fuel cursor busy Hin Hfind Hback. simpl.
    apply Z.ltb_lt in Hin. rewrite Hin, Hfind.
    apply Z.leb_le in Hback. rewrite Hback. reflexivity.
Qed.

(** ** The conflict detector: [checkConflicts] *)

Lemma findAlternativeSlot_resolved (proposedStart proposedEnd : Z)
  (existingEvents : list CalendarEvent) :
  exists r, findAlternativeSlot proposedStart proposedEnd existingEvents = Resolved r.
Proof.
  unfold findAlternativeSlot.
  destruct (findAlternativeSlot_loop _ _ _ _ _ _ _); eexists; reflexivity.
Qed.

Lemma checkConflicts_resolved (registry : ProviderRegistry) (params : CheckConflictsParams) :
  exists listed suggestion,
    listAllEvents registry (conflictQuery params) = Resolved listed
    /\ findAlternativeSlot (ccp_startTime params) (ccp_endTime params) (ler_events listed)
       = Resolved suggestion
    /\ checkConflicts registry params
       = Resolved
           (let conflicts := List.filter (isConflict params) (ler_events listed) in
            let hasConflict := negb (Nat.eqb (List.length conflicts) 0) in
            mkConflictCheckResult hasConflict (List.map toConflict conflicts)
              (if hasConflict then suggestion else None)).
Proof.
  destruct (listAllEvents_resolved registry (conflictQuery params)) as (listed & Hl & _).
  destruct (findAlternativeSlot_resolved (ccp_startTime params) (ccp_endTime params)
              (ler_events listed)) as (suggestion & Hs).
  exists listed, suggestion. split; [exact Hl|]. split; [exact Hs|].
  unfold checkConflicts. change (mkListEventsParams _ _ _ _ _ _) with (conflictQuery params).
  rewrite Hl. cbn [await].
  destruct (negb (Nat.eqb (List.length (List.filter (isConflict params) (ler_events listed))) 0)).
  - rewrite Hs. reflexivity.
  - reflexivity.
Qed.

Lemma isConflict_true (params : CheckConflictsParams) (event : CalendarEvent) :
  isConflict params event = true <->
  isExcluded params event = false
  /\ ev_showAs event <> showAs_free
  /\ rangesOverlap (ccp_startTime params) (ccp_endTime params)
       (ev_start event) (ev_end event) = true.
Proof.
  unfold isConflict. destruct (isExcluded params event).
  - split; [discriminate | intros [? _]; discriminate].
  - destruct (ev_showAs event); simpl; split; try discriminate;
      try (intros (_ & H & _); contradiction);
      try (intros H; repeat split; [discriminate | exact H]);
      try (intros (_ & _ & H); exact H).
Qed.

Lemma isExcluded_ext (params : CheckConflictsParams) (e e' : CalendarEvent) :
  ev_id e = ev_id e' -> ev_provider e = ev_provider e' ->
  isExcluded params e = isExcluded params e'.
Proof. unfold isExcluded. intros -> ->. reflexivity. Qed.

Lemma findAlternativeSlot_no_overlap (proposedStart proposedEnd : Z)
  (existingEvents : list CalendarEvent) (s : Suggestion) :
  findAlternativeSlot proposedStart proposedEnd existingEvents = Resolved (Some s) ->
  forall busy, In busy (busySlotsOf existingEvents) ->
    ~ (sg_start s < snd busy /\ sg_end s > fst busy).
Proof.
  intros Hfind.
  pose proof (pending_le_length (busySlotsOf existingEvents) proposedStart) as Hp.
  destruct (findAlternativeSlot_loop_walk proposedStart proposedEnd
              (busySlotsOf existingEvents)
              (S (List.length (busySlotsOf existingEvents))) proposedStart)
    as (r & Hr & Hwalk); [lia | lia |].
  unfold findAlternativeSlot in Hfind. rewrite Hr in Hfind.
  injection Hfind as ->.
  apply (walk_Some _ _ _ _ _ Hwalk s eq_refl).
Qed.


(** The example of the specification: a proposed hour against a busy event
    in its first half, and against the same event showing as free. *)
Example checkConflicts_busy_and_free_example :
  let busyEvent :=
    mkEvent "e1" google "primary" "Review" 50400000 52200000 false None showAs_busy None in
  let freeEvent :=
    mkEvent "e1" google "primary" "Review" 50400000 52200000 false None showAs_free None in
  let provider evs :=
    mkProvider "g1" google true (fun _ => Resolved evs)
      (fun _ => Resolved (mkCalendarFreeBusy google "primary" "Main" [])) in
  let params := mkCheckConflictsParams 50400000 54000000 None None in
  checkConflicts [provider [busyEvent]] params
  = Resolved (mkConflictCheckResult true [toConflict busyEvent]
                (Some (mkSuggestion 52200000 55800000 NextAvailableToday)))
  /\ checkConflicts [provider [freeEvent]] params
     = Resolved (mkConflictCheckResult false [] None).
Proof. split; reflexivity. Qed.

Lemma isExcluded_spec (params : CheckConflictsParams) (event : CalendarEvent) :
  isExcluded params event = true <-> exclusionApplies params event.
Proof.
  unfold isExcluded, exclusionApplies, nonEmpty.
  destruct (ccp_excludeEventId params) as [id|].
  - destruct (String.eqb_spec id EmptyString) as [Hempty|Hne]; simpl.
    + split; [discriminate|]. intros (id' & Hid & Hne' & _). congruence.
    + destruct (String.eqb_spec (ev_id event) id) as [Heq|Hneq]; simpl.
      * destruct (ccp_excludeProvider params) as [p|].
        -- split.
           ++ intros Hp. exists id. repeat split; try assumption. right. f_equal.
              destruct (ev_provider event), p; simpl in Hp; congruence.
           ++ intros (_ & _ & _ & _ & [Hp|Hp]); [discriminate|].
              injection Hp as ->. destruct (ev_provider event); reflexivity.
        -- split; [|reflexivity]. intros _. exists id. repeat split; auto.
      * split; [discriminate|]. intros (id' & Hid & _ & Hev & _). congruence.
  - split; [discriminate|]. intros (id & Hid & _). discriminate.
Qed.

(** C10 (as amended).  In every [checkConflicts] call whose [excludeEventId]
    is a non-empty string, the reported conflicts are the listed events that
    overlap the proposed interval and do not show as free, except those
    whose id is [excludeEventId] and whose provider is [excludeProvider]
    when one is given.  An event excluded in this way, unless it shows as
    free, is still among the busy times of the alternative-slot search, so
    that a returned suggestion does not overlap it. *)
Theorem checkConflicts_excluded_event_still_busy :
  forall (registry : ProviderRegistry) (params : CheckConflictsParams) (id : string),
    ccp_excludeEventId params = Some id ->
    id <> EmptyString ->
    let sameProvider e :=
      ccp_excludeProvider params = None
      \/ ccp_excludeProvider params = Some (ev_provider e) in
    exists listed result,
      listAllEvents registry (conflictQuery params) = Resolved listed
      /\ checkConflicts registry params = Resolved result
      /\ (forall c, In c (ccr_conflicts result) <->
            exists e, In e (ler_events listed) /\ c = toConflict e
                      /\ ~ (ev_id e = id /\ sameProvider e)
                      /\ ev_showAs e <> showAs_free
                      /\ rangesOverlap (ccp_startTime params) (ccp_endTime params)
                           (ev_start e) (ev_end e) = true)
      /\ forall e, In e (ler_events listed) -> ev_id e = id -> sameProvider e ->
           (forall c, In c (ccr_conflicts result) ->
              ~ (cf_id c = ev_id e /\ cf_provider c = ev_provider e))
           /\ (ev_showAs e <> showAs_free ->
               In (ev_start e, ev_end e) (busySlotsOf (ler_events listed))
               /\ forall s, ccr_suggestion result = Some s ->
                    ~ (sg_start s < ev_end e /\ sg_end s > ev_start e)
                    /\ rangesOverlap (sg_start s) (sg_end s) (ev_start e) (ev_end e)
                       = false).
Proof.
  intros registry params id Hid Hne sameProvider.
  destruct (checkConflicts_resolved registry params) as (listed & suggestion & Hl & Hs & Hc).
  eexists listed, _. split; [exact Hl|]. split; [exact Hc|].
  cbv zeta. cbn [ccr_hasConflict ccr_conflicts ccr_suggestion].
  assert (Hex : forall e, isExcluded params e = true <-> ev_id e = id /\ sameProvider e).
  { intros e. rewrite isExcluded_spec. unfold exclusionApplies, sameProvider. split.
    - intros (id' & Hid' & _ & Hev & Hp). split; [congruence | exact Hp].
    - intros [Hev Hp]. exists id. repeat split; assumption. }
  split.
  - intros c. rewrite in_map_iff. split.
    + intros (e & <- & He). apply filter_In in He. destruct He as [Hin He].
      apply isConflict_true in He. destruct He as (Hnot & Hfree & Hov).
      exists e. split; [exact Hin|]. split; [reflexivity|].
      split; [|split; assumption].
      intros H. apply Hex in H. congruence.
    + intros (e & Hin & -> & Hnot & Hfree & Hov). exists e. split; [reflexivity|].
      apply filter_In. split; [exact Hin|]. apply isConflict_true.
      split; [|split; assumption].
      destruct (isExcluded params e) eqn:He; [|reflexivity].
      contradiction Hnot. apply Hex. exact He.
  - intros e Hin Hev Hp. split.
    + intros c Hc' [Hcid Hcp].
      apply in_map_iff in Hc'. destruct Hc' as (e' & <- & He').
      apply filter_In in He'. destruct He' as [_ He'].
      apply isConflict_true in He'. destruct He' as (Hex' & _).
      simpl in Hcid, Hcp.
      rewrite (isExcluded_ext params e' e Hcid Hcp) in Hex'.
      assert (isExcluded params e = true) by (apply Hex; split; assumption).
      congruence.
    + intros Hs'.
      assert (Hbusy : In (ev_start e, ev_end e) (busySlotsOf (ler_events listed))).
      { apply busySlotsOf_In. exists e. repeat split; assumption. }
      split; [exact Hbusy|].
      intros s Hsug.
      destruct (negb (Nat.eqb (List.length
                                 (List.filter (isConflict params) (ler_events listed))) 0));
        [|discriminate].
      subst suggestion.
      pose proof (findAlternativeSlot_no_overlap _ _ _ _ Hs _ Hbusy) as Hno.
      simpl in Hno. split; [exact Hno|].
      unfold rangesOverlap. destruct (Z.ltb_spec (sg_start s) (ev_end e));
        destruct (Z.gtb_spec (sg_end s) (ev_start e)); simpl; try reflexivity.
      exfalso. apply Hno. lia.
Qed.

Lemma checkConflicts_excluded_event_still_busy_witness :
  let moved :=
    mkEvent "e1" google "primary" "Review" 50400000 52200000 false None showAs_busy None in
  let other :=
    mkEvent "e2" google "primary" "Call" 51000000 53000000 false None showAs_busy None in
  let provider :=
    mkProvider "g1" google true (fun _ => Resolved [moved; other])
      (fun _ => Resolved (mkCalendarFreeBusy google "primary" "Main" [])) in
  let params := mkCheckConflictsParams 50400000 54000000 (Some "e1") (Some google) in
  checkConflicts [provider] params
  = Resolved (mkConflictCheckResult true [toConflict other]
                (Some (mkSuggestion 53000000 56600000 NextAvailableToday)))
  /\ In (ev_start moved, ev_end moved) (busySlotsOf [moved; other])
  /\ rangesOverlap 53000000 56600000 (ev_start moved) (ev_end moved) = false.
Proof.
  cbv zeta.
  destruct (checkConflicts_excluded_event_still_busy
              [mkProvider "g1" google true
                 (fun _ => Resolved
                    [mkEvent "e1" google "primary" "Review" 50400000 52200000 false None
                       showAs_busy None;
                     mkEvent "e2" google "primary" "Call" 51000000 53000000 false None
                       showAs_busy None])
                 (fun _ => Resolved (mkCalendarFreeBusy google "primary" "Main" []))]
              (mkCheckConflictsParams 50400000 54000000 (Some "e1") (Some google))
              "e1" eq_refl ltac:(discriminate))
    as (listed & result & Hl & Hc & _ & Hex).
  assert (Hl' : listed
                = mkListEventsResult
                    [mkEvent "e1" google "primary" "Review" 50400000 52200000 false None
                       showAs_busy None;
                     mkEvent "e2" google "primary" "Call" 51000000 53000000 false None
                       showAs_busy None] None false).
  { vm_compute in Hl. injection Hl as <-. reflexivity. }
  subst listed.
  assert (Hr : result
               = mkConflictCheckResult true
                   [toConflict (mkEvent "e2" google "primary" "Call" 51000000 53000000
                                  false None showAs_busy None)]
                   (Some (mkSuggestion 53000000 56600000 NextAvailableToday))).
  { vm_compute in Hc. injection Hc as <-. reflexivity. }
  subst result.
  destruct (Hex (mkEvent "e1" google "primary" "Review" 50400000 52200000 false None
                   showAs_busy None))
    as (_ & Hbusy); [left; reflexivity | reflexivity | right; reflexivity |].
  destruct Hbusy as (Hin & Hsug); [discriminate|].
  split; [reflexivity|]. split; [exact Hin|].
  apply (Hsug (mkSuggestion 53000000 56600000 NextAvailableToday) eq_refl).
Defined.

(** C10 as stated fails: an event whose id is [excludeEventId] is still
    reported when [excludeProvider] names another provider, and when the id
    is the empty string. *)
Lemma checkConflicts_exclusion_counterexample :
  let moved :=
    mkEvent "e1" google "primary" "Review" 50400000 52200000 false None showAs_busy None in
  let unnamed :=
    mkEvent "" google "primary" "Draft" 50400000 52200000 false None showAs_busy None in
  let provider evs :=
    mkProvider "g1" google true (fun _ => Resolved evs)
      (fun _ => Resolved (mkCalendarFreeBusy google "primary" "Main" [])) in
  checkConflicts [provider [moved]]
    (mkCheckConflictsParams 50400000 54000000 (Some (ev_id moved)) (Some microsoft))
  = Resolved (mkConflictCheckResult true [toConflict moved]
                (Some (mkSuggestion 52200000 55800000 NextAvailableToday)))
  /\ checkConflicts [provider [unnamed]]
       (mkCheckConflictsParams 50400000 54000000 (Some (ev_id unnamed)) None)
     = Resolved (mkConflictCheckResult true [toConflict unnamed]
                   (Some (mkSuggestion 52200000 55800000 NextAvailableToday))).
Proof. split; reflexivity. Qed.

(** ** Provider failures in the conflict detector and the synchronizer *)

Lemma listSide_resolved (registry : ProviderRegistry) (provider : ProviderType)
  (calendarId : option string) (startTime endTime : Z) :
  exists listed,
    listSide registry provider calendarId startTime endTime = Resolved listed.
Proof.
  unfold listSide.
  destruct (listAllEvents_resolved registry
              (mkListEventsParams startTime endTime (Some [provider])
                 (calendarIdsOf calendarId) None None)) as (listed & Hl & _).
  exists listed. exact Hl.
Qed.

Lemma compareCalendars_resolved (registry : ProviderRegistry) (params : SyncParams) :
  exists src tgt cmp,
    listSide registry (sp_sourceProvider params) (sp_sourceCalendarId params)
      (sp_startTime params) (sp_endTime params) = Resolved src
    /\ listSide registry (sp_targetProvider params) (sp_targetCalendarId params)
         (sp_startTime params) (sp_endTime params) = Resolved tgt
    /\ compareCalendars registry params = Resolved cmp
    /\ (cc_matches cmp, cc_sourceOnly cmp, cc_targetOnly cmp)
       = compareEvents (ler_events src) (ler_events tgt).
Proof.
  destruct (listSide_resolved registry (sp_sourceProvider params)
              (sp_sourceCalendarId params) (sp_startTime params) (sp_endTime params))
    as (src & Hsrc).
  destruct (listSide_resolved registry (sp_targetProvider params)
              (sp_targetCalendarId params) (sp_startTime params) (sp_endTime params))
    as (tgt & Htgt).
  exists src, tgt. unfold compareCalendars. rewrite Hsrc, Htgt.
  cbn [promiseAll2 await fst snd].
  destruct (compareEvents (ler_events src) (ler_events tgt)) as [[matches sourceOnly] targetOnly].
  eexists. repeat split; try reflexivity.
Qed.

Lemma matching_fold_exact (minScore : Q) (sourceEvent : CalendarEvent)
  (targetEvents : list CalendarEvent) :
  forall matches,
    fold_left
      (fun matches targetEvent =>
         let matchResult := calculateMatch sourceEvent targetEvent in
         if Qle_bool minScore (em_score matchResult)
         then matches ++ [matchResult] else matches)
      targetEvents matches
    = matches
      ++ List.filter (fun m => Qle_bool minScore (em_score m))
           (List.map (calculateMatch sourceEvent) targetEvents).
Proof.
  induction targetEvents as [|t l IH]; intros matches; simpl.
  - rewrite app_nil_r. reflexivity.
  - rewrite IH. destruct (Qle_bool minScore (em_score (calculateMatch sourceEvent t))).
    + rewrite <- app_assoc. reflexivity.
    + reflexivity.
Qed.

Lemma matching_outer_exact (minScore : Q) (targetEvents sourceEvents : list CalendarEvent) :
  forall matches,
    fold_left
      (fun matches sourceEvent =>
         fold_left
           (fun matches targetEvent =>
              let matchResult := calculateMatch sourceEvent targetEvent in
              if Qle_bool minScore (em_score matchResult)
              then matches ++ [matchResult] else matches)
           targetEvents matches)
      sourceEvents matches
    = matches
      ++ flat_map
           (fun sourceEvent =>
              List.filter (fun m => Qle_bool minScore (em_score m))
                (List.map (calculateMatch sourceEvent) targetEvents))
           sourceEvents.
Proof.
  induction sourceEvents as [|s l IH]; intros matches; simpl.
  - rewrite app_nil_r. reflexivity.
  - rewrite IH, matching_fold_exact, <- app_assoc. reflexivity.
Qed.

Lemma failedListings_In (params : ListEventsParams) (providers : list ICalendarProvider)
  (p : ICalendarProvider) (reason : Thrown) :
  In p providers -> listEvents p params = Rejected reason ->
  In (toProviderError p reason) (failedListings params providers).
Proof.
  intros Hin Hrej. unfold failedListings. apply in_flat_map.
  exists p. split; [exact Hin|]. rewrite Hrej. left. reflexivity.
Qed.

Lemma succeededEvents_without (params : ListEventsParams)
  (providers : list ICalendarProvider) :
  succeededEvents params providers
  = succeededEvents params
      (List.filter (fun p => match listEvents p params with
                             | Resolved _ => true
                             | Rejected _ => false
                             end) providers).
Proof.
  unfold succeededEvents.
  induction providers as [|p ps IH]; simpl; [reflexivity|].
  destruct (listEvents p params) as [evs|reason] eqn:Hp; simpl.
  - rewrite Hp, IH. reflexivity.
  - exact IH.
Qed.

(** C1 (as amended).  A provider whose event listing fails during
    [checkConflicts], [findMatchingEvents] or [compareCalendars] does not
    make the operation fail: [listAllEvents] records the failure as an entry
    of its [errors] and resolves with the events of the providers that
    succeeded (the events it would return were the failing providers not
    asked at all), and each of the three operations resolves with the
    result computed from those events: the conflicts and the suggestion, the
    matches at or above the floor in score order, the greedy comparison and
    its statistics. *)
Theorem provider_failure_is_not_propagated :
  forall (registry : ProviderRegistry) (cparams : CheckConflictsParams)
         (sparams : SyncParams),
    let events := survivingEvents registry (conflictQuery cparams) in
    let sourceEvents :=
      survivingEvents registry
        (sideQuery (sp_sourceProvider sparams) (sp_sourceCalendarId sparams)
           (sp_startTime sparams) (sp_endTime sparams)) in
    let targetEvents :=
      survivingEvents registry
        (sideQuery (sp_targetProvider sparams) (sp_targetCalendarId sparams)
           (sp_startTime sparams) (sp_endTime sparams)) in
    (forall query,
       let providers := filterProviders (lep_providers query) (getConnected registry) in
       exists listed,
         listAllEvents registry query = Resolved listed
         /\ ler_events listed = survivingEvents registry query
         /\ ler_events listed
            = limitEvents (lep_maxResults query)
                (sortBy (fun a b => ev_start a <=? ev_start b)
                   (succeededEvents query
                      (List.filter (fun p => match listEvents p query with
                                             | Resolved _ => true
                                             | Rejected _ => false
                                             end) providers)))
         /\ ler_errors listed
            = match recordedErrors registry query with
              | [] => None
              | errors => Some errors
              end
         /\ (forall p reason, In p providers -> listEvents p query = Rejected reason ->
               In (toProviderError p reason) (recordedErrors registry query)))
    /\ (exists suggestion,
          findAlternativeSlot (ccp_startTime cparams) (ccp_endTime cparams) events
          = Resolved suggestion
          /\ checkConflicts registry cparams
             = Resolved
                 (let conflicts := List.filter (isConflict cparams) events in
                  let hasConflict := negb (Nat.eqb (List.length conflicts) 0) in
                  mkConflictCheckResult hasConflict (List.map toConflict conflicts)
                    (if hasConflict then suggestion else None)))
    /\ findMatchingEvents registry sparams
       = Resolved
           (sortBy (fun a b => Qle_bool (em_score b) (em_score a))
              (flat_map
                 (fun sourceEvent =>
                    List.filter
                      (fun m => Qle_bool (minScoreOf (sp_minConfidence sparams))
                                  (em_score m))
                      (List.map (calculateMatch sourceEvent) targetEvents))
                 sourceEvents))
    /\ compareCalendars registry sparams
       = Resolved
           (mkCalendarComparison
              (orPrimary (sp_sourceCalendarId sparams))
              (orPrimary (sp_targetCalendarId sparams))
              (sp_sourceProvider sparams) (sp_targetProvider sparams)
              (sp_startTime sparams, sp_endTime sparams)
              (fst (fst (compareEvents sourceEvents targetEvents)))
              (snd (fst (compareEvents sourceEvents targetEvents)))
              (snd (compareEvents sourceEvents targetEvents))
              (mkStatistics (List.length sourceEvents) (List.length targetEvents)
                 (List.length (fst (fst (compareEvents sourceEvents targetEvents))))
                 (List.length (snd (fst (compareEvents sourceEvents targetEvents))))
                 (List.length (snd (compareEvents sourceEvents targetEvents))))).
Proof.
  intros registry cparams sparams events sourceEvents targetEvents.
  assert (Hlist : forall query,
            exists listed,
              listAllEvents registry query = Resolved listed
              /\ ler_events listed = survivingEvents registry query
              /\ ler_errors listed
                 = match recordedErrors registry query with
                   | [] => None
                   | errors => Some errors
                   end).
  { intros query.
    destruct (listAllEvents_resolved registry query) as (listed & Hl & Hev & Herr).
    exists listed. split; [exact Hl|]. split; [exact Hev | exact Herr]. }
  assert (Hside : forall provider calendarId startTime endTime,
            exists listed,
              listSide registry provider calendarId startTime endTime = Resolved listed
              /\ ler_events listed
                 = survivingEvents registry
                     (sideQuery provider calendarId startTime endTime)).
  { intros provider calendarId startTime endTime.
    destruct (Hlist (sideQuery provider calendarId startTime endTime))
      as (listed & Hl & Hev & _).
    exists listed. split; [exact Hl | exact Hev]. }
  destruct (Hside (sp_sourceProvider sparams) (sp_sourceCalendarId sparams)
              (sp_startTime sparams) (sp_endTime sparams)) as (src & Hsrc & Hsev).
  destruct (Hside (sp_targetProvider sparams) (sp_targetCalendarId sparams)
              (sp_startTime sparams) (sp_endTime sparams)) as (tgt & Htgt & Htev).
  fold sourceEvents in Hsev. fold targetEvents in Htev.
  split; [|split; [|split]].
  - intros query providers.
    destruct (Hlist query) as (listed & Hl & Hev & Herr).
    exists listed. split; [exact Hl|]. split; [exact Hev|].
    split; [|split; [exact Herr|]].
    + rewrite Hev. unfold survivingEvents. fold providers.
      rewrite <- succeededEvents_without. reflexivity.
    + intros p reason Hin Hrej. apply failedListings_In; assumption.
  - destruct (checkConflicts_resolved registry cparams)
      as (listed & suggestion & Hl & Hs & Hc).
    destruct (Hlist (conflictQuery cparams)) as (listed' & Hl' & Hev & _).
    rewrite Hl in Hl'. injection Hl' as <-. fold events in Hev.
    rewrite Hev in Hs, Hc.
    exists suggestion. split; [exact Hs | exact Hc].
  - unfold findMatchingEvents. rewrite Hsrc, Htgt. cbn [promiseAll2 await fst snd].
    rewrite Hsev, Htev, matching_outer_exact, app_nil_l. reflexivity.
  - unfold compareCalendars. rewrite Hsrc, Htgt. cbn [promiseAll2 await fst snd].
    rewrite Hsev, Htev.
    destruct (compareEvents sourceEvents targetEvents) as [[matches so] to].
    reflexivity.
Qed.

(** C1 as stated fails: with one provider whose listing is rejected and one
    that answers, the three operations resolve, with results computed from
    the answering provider alone. *)
Lemma provider_failure_counterexample :
  let later :=
    mkEvent "m1" microsoft "primary" "Lunch" 57600000 61200000 false None showAs_busy None in
  let failing :=
    mkProvider "g1" google true (fun _ => Rejected (OtherError "timeout"))
      (fun _ => Rejected (OtherError "timeout")) in
  let answering :=
    mkProvider "m1" microsoft true (fun _ => Resolved [later])
      (fun _ => Resolved (mkCalendarFreeBusy microsoft "primary" "Main" [])) in
  let registry := [failing; answering] in
  let cparams := mkCheckConflictsParams 50400000 54000000 None None in
  let sparams := mkSyncParams google None microsoft None 0 86400000 None in
  In failing (getConnected registry)
  /\ listEvents failing (conflictQuery cparams) = Rejected (OtherError "timeout")
  /\ checkConflicts registry cparams = Resolved (mkConflictCheckResult false [] None)
  /\ findMatchingEvents registry sparams = Resolved []
  /\ exists cmp, compareCalendars registry sparams = Resolved cmp
                 /\ cc_sourceOnly cmp = [] /\ cc_targetOnly cmp = [later].
Proof.
  cbv zeta. split; [left; reflexivity|]. split; [reflexivity|].
  split; [reflexivity|]. split; [reflexivity|].
  eexists. split; [vm_compute; reflexivity|]. split; reflexivity.
Qed.

(** ** The availability engine: partial success *)

Lemma collectFreeBusy_fold (params : FreeBusyParams) (providers : list ICalendarProvider) :
  forall calendars errors allBusySlots,
  exists calendars',
    fold_left collectFreeBusy
      (combine (List.map (fun p => getFreeBusy p params) providers) providers)
      (calendars, errors, allBusySlots)
    = (calendars', errors ++ failedFreeBusy params providers,
       allBusySlots ++ succeededBusy params providers).
Proof.
  induction providers as [|p ps IH]; intros calendars errors allBusySlots; simpl.
  - exists calendars. rewrite !app_nil_r. reflexivity.
  - destruct (getFreeBusy p params) as [freeBusy|reason]; simpl.
    + destruct (IH (setProperty calendars (cfb_calendarId freeBusy) freeBusy) errors
                  (allBusySlots ++ cfb_busy freeBusy)) as (calendars' & ->).
      exists calendars'. rewrite <- app_assoc. reflexivity.
    + destruct (IH calendars
                  (errors ++ [mkFreeBusyError (providerType p) (providerId p)
                                (reasonMessage reason)])
                  allBusySlots) as (calendars' & ->).
      exists calendars'. rewrite <- app_assoc. reflexivity.
Qed.

Lemma failedFreeBusy_In (params : FreeBusyParams) (providers : list ICalendarProvider)
  (p : ICalendarProvider) (reason : Thrown) :
  In p providers -> getFreeBusy p params = Rejected reason ->
  In (mkFreeBusyError (providerType p) (providerId p) (reasonMessage reason))
    (failedFreeBusy params providers).
Proof.
  intros Hin Hrej. unfold failedFreeBusy. apply in_flat_map.
  exists p. split; [exact Hin|]. rewrite Hrej. left. reflexivity.
Qed.

Lemma failedFreeBusy_length (params : FreeBusyParams) (providers : list ICalendarProvider) :
  List.length (failedFreeBusy params providers)
  = List.length
      (List.filter
         (fun p => match getFreeBusy p params with Rejected _ => true | Resolved _ => false end)
         providers).
Proof.
  induction providers as [|p ps IH]; simpl; [reflexivity|].
  destruct (getFreeBusy p params); simpl; rewrite IH; reflexivity.
Qed.

(** C2 (as amended).  Whenever the [getFreeBusy] call of some selected
    provider throws, [getAggregatedFreeBusy] itself does not throw (whether
    or not other providers succeed): it resolves with a response whose
    [errors] field is present and holds exactly one entry per failing
    provider, in provider order, and whose unified busy list is the merge of
    the busy slots of the providers that succeeded.  The response carries no
    flag besides: its properties are [calendars], [unified],
    [suggestedSlots] when a positive slot duration is asked for, and
    [errors]. *)
Theorem getAggregatedFreeBusy_partial_success :
  forall (defaults : WorkingHours) (registry : ProviderRegistry) (params : FreeBusyParams),
    let providers := filterProviders (fbp_providers params) (getConnected registry) in
    (exists p reason, In p providers /\ getFreeBusy p params = Rejected reason) ->
    exists response,
      getAggregatedFreeBusy defaults registry params = Resolved response
      /\ fbr_errors response = Some (failedFreeBusy params providers)
      /\ failedFreeBusy params providers <> []
      /\ List.length (failedFreeBusy params providers)
         = List.length
             (List.filter
                (fun p => match getFreeBusy p params with
                          | Rejected _ => true
                          | Resolved _ => false
                          end) providers)
      /\ (forall p reason, In p providers -> getFreeBusy p params = Rejected reason ->
            In (mkFreeBusyError (providerType p) (providerId p) (reasonMessage reason))
              (failedFreeBusy params providers))
      /\ fbr_unified_busy response = mergeBusySlots (succeededBusy params providers)
      /\ responseKeys response
         = ["calendars"; "unified"]%string
           ++ (match fbp_slotDuration params with
               | Some d => if d >? 0 then ["suggestedSlots"]%string else []
               | None => []
               end)
           ++ ["errors"]%string.
Proof.
  intros defaults registry params providers (p0 & reason0 & Hin0 & Hrej0).
  pose proof (failedFreeBusy_In params providers p0 reason0 Hin0 Hrej0) as Hfailed.
  unfold getAggregatedFreeBusy. fold providers.
  destruct providers as [|p ps] eqn:Hp; [destruct Hin0|].
  unfold allSettled, await.
  destruct (collectFreeBusy_fold params (p :: ps) ∅ [] []) as (calendars & ->).
  rewrite !app_nil_l.
  eexists. split; [reflexivity|].
  unfold responseKeys. cbn [fbr_errors fbr_unified_busy fbr_suggestedSlots].
  split; [|split; [|split; [|split; [|split]]]].
  - destruct (failedFreeBusy params (p :: ps)); [destruct Hfailed | reflexivity].
  - intros Hnil. rewrite Hnil in Hfailed. destruct Hfailed.
  - apply failedFreeBusy_length.
  - intros p' reason' Hin' Hrej'. apply failedFreeBusy_In; assumption.
  - reflexivity.
  - destruct (failedFreeBusy params (p :: ps)); [destruct Hfailed|].
    destruct (fbp_slotDuration params) as [d|]; [destruct (d >? 0)|]; reflexivity.
Qed.

Lemma getAggregatedFreeBusy_partial_success_witness :
  let failing :=
    mkProvider "g1" google true (fun _ => Resolved [])
      (fun _ => Rejected (OtherError "timeout")) in
  let answering :=
    mkProvider "m1" microsoft true (fun _ => Resolved [])
      (fun _ => Resolved (mkCalendarFreeBusy microsoft "primary" "Main"
                            [mkBusySlot 100 200 status_tentative None None;
                             mkBusySlot 150 300 status_busy None None])) in
  let params := mkFreeBusyParams 0 1000 None None None None None in
  exists response,
    getAggregatedFreeBusy (mkWorkingHours (9, 0) (17, 0) []) [failing; answering] params
    = Resolved response
    /\ fbr_errors response = Some [mkFreeBusyError google "g1" "timeout"]
    /\ fbr_unified_busy response = [mkBusySlot 100 300 status_busy None None]
    /\ responseKeys response = ["calendars"; "unified"; "errors"]%string.
Proof.
  cbv zeta.
  destruct (getAggregatedFreeBusy_partial_success
              (mkWorkingHours (9, 0) (17, 0) [])
              [mkProvider "g1" google true (fun _ => Resolved [])
                 (fun _ => Rejected (OtherError "timeout"));
               mkProvider "m1" microsoft true (fun _ => Resolved [])
                 (fun _ => Resolved (mkCalendarFreeBusy microsoft "primary" "Main"
                                       [mkBusySlot 100 200 status_tentative None None;
                                        mkBusySlot 150 300 status_busy None None]))]
              (mkFreeBusyParams 0 1000 None None None None None))
    as (response & Hres & Herr & _ & _ & _ & Hbusy & Hkeys).
  - eexists _, _. split; [left; reflexivity | reflexivity].
  - exists response. split; [exact Hres|]. split; [exact Herr|].
    split; [exact Hbusy | exact Hkeys].
Defined.

(** C2 as stated fails in its last clause: with one provider that throws and
    one that answers, the response holds the error and the merged busy slot
    of the answer, and has no property that flags it as partial. *)
Lemma getAggregatedFreeBusy_partial_flag_counterexample :
  let failing :=
    mkProvider "g1" google true (fun _ => Resolved [])
      (fun _ => Rejected (OtherError "timeout")) in
  let answer :=
    mkCalendarFreeBusy microsoft "primary" "Main"
      [mkBusySlot 100 200 status_tentative None None;
       mkBusySlot 150 300 status_busy None None] in
  let answering :=
    mkProvider "m1" microsoft true (fun _ => Resolved []) (fun _ => Resolved answer) in
  let params := mkFreeBusyParams 0 1000 None None None None None in
  let response :=
    mkFreeBusyResponse (<["primary"%string := answer]> ∅)
      [mkBusySlot 100 300 status_busy None None]
      [mkFreeSlot 0 100 0; mkFreeSlot 300 1000 0]
      None (Some [mkFreeBusyError google "g1" "timeout"]) in
  getAggregatedFreeBusy (mkWorkingHours (9, 0) (17, 0) []) [failing; answering] params
  = Resolved response
  /\ responseKeys response = ["calendars"; "unified"; "errors"]%string
  /\ ~ In "partial"%string (responseKeys response)
  /\ ~ In "partialSuccess"%string (responseKeys response).
Proof.
  cbv zeta. split; [reflexivity|]. split; [reflexivity|].
  split; simpl; intuition discriminate.
Qed.

(** ** The synchronizer: match score *)

Lemma row0_bounded (n a : nat) :
  rowBounded 0 (Z.of_nat a) (List.map Z.of_nat (seq a n)).
Proof.
  revert a. induction n as [|n IH]; intros a; simpl; [exact I|].
  split; [lia|].
  replace (Z.of_nat a + 1) with (Z.of_nat (S a)) by lia. apply IH.
Qed.

Lemma matrixRow_bounded (c1 : ascii) (s2 : list ascii) :
  forall (row_above : list Z) (left i j : Z),
    1 <= i -> 1 <= j ->
    rowBounded (i - 1) (j - 1) row_above ->
    0 <= left <= Z.max i (j - 1) ->
    rowBounded i j (matrixRow c1 s2 row_above left).
Proof.
  induction s2 as [|c2 s2 IH]; intros row_above left i j Hi Hj Habove Hleft; simpl.
  - exact I.
  - destruct row_above as [|diag [|up rest]]; simpl; try exact I.
    simpl in Habove. destruct Habove as (Hdiag & Hup & Hrest).
    replace (j - 1 + 1) with j in Hup, Hrest by lia.
    assert (Hcell : 0 <= Z.min (Z.min (up + 1) (left + 1))
                          (diag + (if Ascii.eqb c1 c2 then 0 else 1)) <= Z.max i j)
      by (destruct (Ascii.eqb c1 c2); lia).
    split; [exact Hcell|].
    apply IH; [lia | lia | | lia].
    replace (j + 1 - 1) with j by lia. simpl. split; [exact Hup | exact Hrest].
Qed.

Lemma matrixRow_length (c1 : ascii) (s2 : list ascii) :
  forall (row_above : list Z) (left : Z),
    (List.length (matrixRow c1 s2 row_above left) <= List.length s2)%nat.
Proof.
  induction s2 as [|c2 s2 IH]; intros row_above left; simpl; [lia|].
  destruct row_above as [|diag [|up rest]]; simpl; try lia.
  specialize (IH (up :: rest)
                (Z.min (Z.min (up + 1) (left + 1))
                   (diag + (if Ascii.eqb c1 c2 then 0 else 1)))).
  lia.
Qed.

Lemma matrixRows_bounded (s1 s2 : list ascii) :
  forall (i : Z) (row_above : list Z),
    1 <= i ->
    rowBounded (i - 1) 0 row_above ->
    (List.length row_above <= S (List.length s2))%nat ->
    rowBounded (i - 1 + Z.of_nat (List.length s1)) 0 (matrixRows s1 s2 i row_above)
    /\ (List.length (matrixRows s1 s2 i row_above) <= S (List.length s2))%nat.
Proof.
  induction s1 as [|c1 s1 IH]; intros i row_above Hi Habove Hlen; simpl.
  - replace (i - 1 + Z.of_nat 0) with (i - 1) by lia. split; assumption.
  - destruct (IH (i + 1) (i :: matrixRow c1 s2 row_above i)) as [Hb Hl].
    + lia.
    + replace (i + 1 - 1) with i by lia. simpl. split; [lia|].
      apply matrixRow_bounded; try lia.
      replace (1 - 1) with 0 by lia. exact Habove.
    + simpl. pose proof (matrixRow_length c1 s2 row_above i). lia.
    + split; [|exact Hl].
      replace (i - 1 + Z.of_nat (S (List.length s1)))
        with (i + 1 - 1 + Z.of_nat (List.length s1)) by lia.
      exact Hb.
Qed.

Lemma rowBounded_last (row : list Z) :
  forall (i j : Z) (n : nat),
    0 <= i -> 0 <= j ->
    rowBounded i j row ->
    (List.length row <= S n)%nat ->
    0 <= List.last row 0 <= Z.max i (j + Z.of_nat n).
Proof.
  induction row as [|cell row IH]; intros i j n Hi Hj Hb Hlen.
  - simpl. lia.
  - simpl in Hb. destruct Hb as [Hcell Hrest].
    destruct row as [|cell2 row2].
    + simpl. lia.
    + destruct n as [|n]; [simpl in Hlen; lia|].
      specialize (IH i (j + 1) n Hi ltac:(lia) Hrest ltac:(simpl in *; lia)).
      change (List.last (cell :: cell2 :: row2) 0) with (List.last (cell2 :: row2) 0).
      lia.
Qed.

Lemma length_list_ascii (s : string) :
  List.length (list_ascii_of_string s) = String.length s.
Proof. induction s as [|c s IH]; simpl; [reflexivity | rewrite IH; reflexivity]. Qed.

Lemma editDistance_bounds (s1 s2 : string) :
  0 <= editDistance s1 s2
       <= Z.max (Z.of_nat (String.length s1)) (Z.of_nat (String.length s2)).
Proof.
  unfold editDistance.
  set (l1 := list_ascii_of_string s1). set (l2 := list_ascii_of_string s2).
  destruct (matrixRows_bounded l1 l2 1 (List.map Z.of_nat (seq 0 (S (List.length l2)))))
    as [Hb Hl].
  - lia.
  - apply (row0_bounded (S (List.length l2)) 0).
  - rewrite List.length_map, List.length_seq. lia.
  - pose proof (rowBounded_last _ (1 - 1 + Z.of_nat (List.length l1)) 0 (List.length l2)
                  ltac:(lia) ltac:(lia) Hb Hl) as H.
    rewrite <- (length_list_ascii s1), <- (length_list_ascii s2). fold l1 l2. lia.
Qed.

Lemma fuzzyMatch_bounds (str1 str2 : string) : (0 <= fuzzyMatch str1 str2 <= 1)%Q.
Proof.
  unfold fuzzyMatch.
  destruct (negb (nonEmpty str1) && negb (nonEmpty str2)); [lra|].
  destruct (negb (nonEmpty str1) || negb (nonEmpty str2)); [lra|].
  set (s1 := trim (toLowerCase str1)). set (s2 := trim (toLowerCase str2)).
  destruct (String.eqb s1 s2); [lra|].
  destruct (Z.eqb_spec (Z.of_nat (String.length s1)) 0) as [|Hlen1]; [lra|].
  destruct (Z.eqb_spec (Z.of_nat (String.length s2)) 0) as [|Hlen2]; [lra|].
  pose proof (editDistance_bounds s1 s2) as Hd.
  set (d := editDistance s1 s2) in *.
  set (m := Z.max (Z.of_nat (String.length s1)) (Z.of_nat (String.length s2))) in *.
  assert (Hm : (0 < inject_Z m)%Q).
  { change 0%Q with (inject_Z 0). rewrite <- Zlt_Qlt. lia. }
  assert (Hq : (0 <= inject_Z d / inject_Z m <= 1)%Q).
  { split.
    - apply Qle_shift_div_l; [exact Hm|]. rewrite Qmult_0_l.
      change 0%Q with (inject_Z 0). rewrite <- Zle_Qle. lia.
    - apply Qle_shift_div_r; [exact Hm|]. rewrite Qmult_1_l.
      rewrite <- Zle_Qle. lia. }
  lra.
Qed.

Lemma timeScore_bounds (diff : Z) : (0 <= timeScore diff <= 1)%Q.
Proof.
  unfold timeScore. destruct (diff <=? 60000); [lra|].
  destruct (diff <=? 300000); lra.
Qed.

Lemma boolScore_bounds (b : bool) : (0 <= boolScore b <= 1)%Q.
Proof. destruct b; simpl; lra. Qed.

Lemma factorScores_bounds (source target : CalendarEvent) :
  Forall (fun wf => 0 <= fst wf /\ (0 <= snd wf <= 1)%Q) (factorScores source target).
Proof.
  unfold factorScores.
  repeat (apply Forall_app; split);
    repeat match goal with
      | |- Forall _ (if ?c then _ else _) => destruct c
      | |- Forall _ (_ :: _) => constructor
      | |- Forall _ [] => constructor
      end; simpl; (split; [lia|]);
    first [apply fuzzyMatch_bounds | apply timeScore_bounds | apply boolScore_bounds].
Qed.

Lemma weighted_fold_bounds (l : list (Z * Q)) :
  Forall (fun wf => 0 <= fst wf /\ (0 <= snd wf <= 1)%Q) l ->
  forall (acc : Q) (accw : Z),
    (0 <= acc <= inject_Z accw)%Q ->
    (0 <= fold_left (fun a wf => a + inject_Z (fst wf) * snd wf) l acc
       <= inject_Z (fold_left (fun a wf => (a + fst wf)%Z) l accw))%Q.
Proof.
  induction 1 as [|[w f] l [Hw Hf] Hall IH]; intros acc accw Hacc; simpl.
  - exact Hacc.
  - apply IH. simpl in Hw, Hf.
    assert (Hwq : (0 <= inject_Z w)%Q).
    { change 0%Q with (inject_Z 0). rewrite <- Zle_Qle. exact Hw. }
    assert (Hmul : (0 <= inject_Z w * f <= inject_Z w)%Q).
    { split.
      - apply Qmult_le_0_compat; [exact Hwq | apply Hf].
      - rewrite <- (Qmult_1_r (inject_Z w)) at 2.
        destruct (Qle_lt_or_eq _ _ Hwq) as [Hpos|Hzero].
        + apply Qmult_le_l; [exact Hpos | apply Hf].
        + rewrite <- Hzero. lra. }
    rewrite inject_Z_plus. lra.
Qed.

Lemma weightSum_positive (source target : CalendarEvent) :
  0 < weightSum (factorScores source target).
Proof.
  unfold factorScores, weightSum.
  destruct (truthy (ev_location source) || truthy (ev_location target));
    destruct (truthy (ev_iCalUId source) && truthy (ev_iCalUId target));
    simpl; lia.
Qed.

Lemma calculateMatch_score (source target : CalendarEvent) :
  em_score (calculateMatch source target)
  = (weightedSum (factorScores source target)
     / inject_Z (weightSum (factorScores source target)))%Q.
Proof.
  unfold calculateMatch, factorScores, weightedSum, weightSum.
  destruct (truthy (ev_location source) || truthy (ev_location target));
    destruct (truthy (ev_iCalUId source) && truthy (ev_iCalUId target));
    reflexivity.
Qed.

Lemma calculateMatch_weights (source target : CalendarEvent) :
  List.map mf_weight (em_matchFactors (calculateMatch source target))
  = List.map fst (factorScores source target).
Proof.
  unfold calculateMatch, factorScores.
  destruct (truthy (ev_location source) || truthy (ev_location target));
    destruct (truthy (ev_iCalUId source) && truthy (ev_iCalUId target));
    reflexivity.
Qed.

Lemma calculateMatch_confidence (source target : CalendarEvent) :
  em_confidence (calculateMatch source target)
  = confidenceOf (em_score (calculateMatch source target)).
Proof.
  unfold calculateMatch.
  destruct (truthy (ev_location source) || truthy (ev_location target));
    destruct (truthy (ev_iCalUId source) && truthy (ev_iCalUId target));
    reflexivity.
Qed.

Lemma calculateMatch_events (source target : CalendarEvent) :
  em_sourceEvent (calculateMatch source target) = source
  /\ em_targetEvent (calculateMatch source target) = target.
Proof.
  unfold calculateMatch.
  destruct (truthy (ev_location source) || truthy (ev_location target));
    destruct (truthy (ev_iCalUId source) && truthy (ev_iCalUId target));
    split; reflexivity.
Qed.

Lemma scoreOf_bounds (source target : CalendarEvent) :
  (0 <= scoreOf source target <= 1)%Q.
Proof.
  unfold scoreOf. rewrite calculateMatch_score.
  pose proof (weightSum_positive source target) as Hpos.
  pose proof (weighted_fold_bounds _ (factorScores_bounds source target) 0%Q 0
                ltac:(split; apply Qle_refl)) as Hb.
  fold (weightedSum (factorScores source target)) in Hb.
  fold (weightSum (factorScores source target)) in Hb.
  assert (Hq : (0 < inject_Z (weightSum (factorScores source target)))%Q).
  { change 0%Q with (inject_Z 0). rewrite <- Zlt_Qlt. exact Hpos. }
  split.
  - apply Qle_shift_div_l; [exact Hq|]. rewrite Qmult_0_l. apply Hb.
  - apply Qle_shift_div_r; [exact Hq|]. rewrite Qmult_1_l. apply Hb.
Qed.

Lemma confidenceOf_spec (score : Q) :
  (confidenceOf score = high <-> (4 # 5 <= score)%Q)
  /\ (confidenceOf score = medium <-> (1 # 2 <= score)%Q /\ (score < 4 # 5)%Q)
  /\ (confidenceOf score = low <-> (score < 1 # 2)%Q).
Proof.
  unfold confidenceOf.
  destruct (Qle_bool (4 # 5) score) eqn:H1.
  - apply Qle_bool_iff in H1.
    repeat split; intros;
      repeat match goal with H : _ /\ _ |- _ => destruct H end;
      try discriminate; try reflexivity; lra.
  - assert (H1' : (score < 4 # 5)%Q).
    { apply Qnot_le_lt. intros H. apply Qle_bool_iff in H. congruence. }
    destruct (Qle_bool (1 # 2) score) eqn:H2.
    + apply Qle_bool_iff in H2.
      repeat split; intros;
        repeat match goal with H : _ /\ _ |- _ => destruct H end;
        try discriminate; try reflexivity; lra.
    + assert (H2' : (score < 1 # 2)%Q).
      { apply Qnot_le_lt. intros H. apply Qle_bool_iff in H. congruence. }
      repeat split; intros;
        repeat match goal with H : _ /\ _ |- _ => destruct H end;
        try discriminate; try reflexivity; lra.
Qed.

(** C4.  For every pair of events [calculateMatch] returns a score between
    0 and 1: every factor score lies between 0 and 1, the weights recorded
    in the match factors are the weights of the factors that take part, and
    the score is the weighted sum of the factor scores divided by the sum of
    those weights.  The confidence is [high] exactly when the score is at
    least 0.8, [medium] exactly when it is at least 0.5 and below 0.8, and
    [low] otherwise. *)
Theorem calculateMatch_score_in_unit_interval :
  forall (source target : CalendarEvent),
    let m := calculateMatch source target in
    let factors := factorScores source target in
    (0 <= em_score m <= 1)%Q
    /\ Forall (fun wf => (0 <= snd wf <= 1)%Q) factors
    /\ List.map mf_weight (em_matchFactors m) = List.map fst factors
    /\ 0 < weightSum factors
    /\ em_score m = (weightedSum factors / inject_Z (weightSum factors))%Q
    /\ (em_confidence m = high <-> (4 # 5 <= em_score m)%Q)
    /\ (em_confidence m = medium <-> (1 # 2 <= em_score m)%Q /\ (em_score m < 4 # 5)%Q)
    /\ (em_confidence m = low <-> (em_score m < 1 # 2)%Q).
Proof.
  intros source target m factors.
  split; [apply (scoreOf_bounds source target)|].
  split.
  { pose proof (factorScores_bounds source target) as H.
    rewrite List.Forall_forall in H. rewrite List.Forall_forall.
    intros wf Hwf. apply (H wf Hwf). }
  split; [apply calculateMatch_weights|].
  split; [apply weightSum_positive|].
  split; [apply calculateMatch_score|].
  unfold m. rewrite calculateMatch_confidence. apply confidenceOf_spec.
Qed.

(** The scoring example of the specification: same subject, same start and
    end, neither all-day, no location: 85 over 85. *)
Example calculateMatch_identical_example :
  let a := mkEvent "a" google "primary" "Standup" 1000 2000 false None showAs_busy None in
  let b := mkEvent "b" microsoft "primary" "Standup" 1000 2000 false None showAs_busy None in
  em_score (calculateMatch a b) = (85 # 85)%Q
  /\ em_confidence (calculateMatch a b) = high
  /\ List.map mf_weight (em_matchFactors (calculateMatch a b)) = [30; 25; 20; 10].
Proof. repeat split; reflexivity. Qed.

(** ** The synchronizer: greedy comparison *)

Lemma Qnot_le_bool (a b : Q) : Qle_bool a b = false -> (b < a)%Q.
Proof.
  intros H. apply Qnot_le_lt. intros Hle. apply Qle_bool_iff in Hle. congruence.
Qed.

Lemma bestMatchStep_cases (s : CalendarEvent) (taken : gset string)
  (b : option EventMatch) (t : CalendarEvent) :
  (bestMatchStep s taken b t = b
   /\ (ev_id t ∈ taken \/ (scoreOf s t < 1 # 2)%Q
       \/ exists best, b = Some best /\ (scoreOf s t <= em_score best)%Q))
  \/ (bestMatchStep s taken b t = Some (calculateMatch s t)
      /\ (ev_id t ∉ taken) /\ (1 # 2 <= scoreOf s t)%Q
      /\ forall best, b = Some best -> (em_score best < scoreOf s t)%Q).
Proof.
  unfold bestMatchStep. cbv zeta. fold (scoreOf s t).
  destruct (bool_decide_reflect (ev_id t ∈ taken)) as [Htaken|Hfree].
  { left. split; [reflexivity | left; exact Htaken]. }
  destruct (Qle_bool (1 # 2) (scoreOf s t)) eqn:Hhalf; cbn [andb].
  - apply Qle_bool_iff in Hhalf. destruct b as [best|].
    + destruct (Qle_bool (scoreOf s t) (em_score best)) eqn:Hcmp; cbn [negb].
      * apply Qle_bool_iff in Hcmp. left. split; [reflexivity|].
        right. right. exists best. split; [reflexivity | exact Hcmp].
      * apply Qnot_le_bool in Hcmp. right. repeat split; try assumption.
        intros best' [= <-]. exact Hcmp.
    + right. repeat split; try assumption. intros best [=].
  - apply Qnot_le_bool in Hhalf. left. split; [reflexivity|]. right. left. exact Hhalf.
Qed.

Lemma IsBest_step (s : CalendarEvent) (taken : gset string)
  (seen : list CalendarEvent) (b : option EventMatch) (t : CalendarEvent) :
  IsBest s taken seen b -> IsBest s taken (seen ++ [t]) (bestMatchStep s taken b t).
Proof.
  intros Hbest.
  destruct (bestMatchStep_cases s taken b t) as [[-> Hwhy]|(-> & Hfree & Hhalf & Hbeats)].
  - destruct b as [m|]; simpl in Hbest |- *.
    + destruct Hbest as [(t0 & Hin0 & Hfree0 & Hm & Hhalf0) Hmax]. split.
      * exists t0. split; [apply in_or_app; left; exact Hin0|]. tauto.
      * intros t' Hin' Hfree'. apply in_app_or in Hin'.
        destruct Hin' as [Hin'|[<-|[]]]; [apply Hmax; assumption|].
        destruct Hwhy as [Htaken|[Hlow|(best & [= <-] & Hle)]].
        -- contradiction.
        -- subst m. fold (scoreOf s t0). apply Qlt_le_weak.
           eapply Qlt_le_trans; eassumption.
        -- exact Hle.
    + intros t' Hin' Hfree'. apply in_app_or in Hin'.
      destruct Hin' as [Hin'|[<-|[]]]; [apply Hbest; assumption|].
      destruct Hwhy as [Htaken|[Hlow|(best & Habs & _)]];
        [contradiction | exact Hlow | discriminate].
  - simpl. split.
    + exists t. split; [apply in_or_app; right; left; reflexivity|]. tauto.
    + fold (scoreOf s t). intros t' Hin' Hfree'. apply in_app_or in Hin'.
      destruct Hin' as [Hin'|[<-|[]]]; [|apply Qle_refl].
      destruct b as [m|]; simpl in Hbest.
      * destruct Hbest as [_ Hmax]. apply Qlt_le_weak.
        eapply Qle_lt_trans; [apply Hmax; assumption | apply Hbeats; reflexivity].
      * apply Qlt_le_weak. eapply Qlt_le_trans; [apply Hbest; assumption | exact Hhalf].
Qed.

Lemma IsBest_fold (s : CalendarEvent) (taken : gset string) (l : list CalendarEvent) :
  forall seen b,
    IsBest s taken seen b ->
    IsBest s taken (seen ++ l) (fold_left (bestMatchStep s taken) l b).
Proof.
  induction l as [|t l IH]; intros seen b Hbest; simpl.
  - rewrite app_nil_r. exact Hbest.
  - replace (seen ++ t :: l) with ((seen ++ [t]) ++ l)
      by (rewrite <- app_assoc; reflexivity).
    apply IH. apply IsBest_step. exact Hbest.
Qed.

Lemma bestMatchFor_best (s : CalendarEvent) (targets : list CalendarEvent)
  (taken : gset string) :
  IsBest s taken targets (bestMatchFor s targets taken).
Proof.
  unfold bestMatchFor.
  apply (IsBest_fold s taken targets [] None). simpl. intros t [].
Qed.

Lemma NoDup_map_eq {A B : Type} (f : A -> B) (l : list A) (x y : A) :
  List.NoDup (List.map f l) -> In x l -> In y l -> f x = f y -> x = y.
Proof.
  induction l as [|a l IH]; simpl; intros Hnd Hx Hy Hf; [destruct Hx|].
  inversion Hnd as [|? ? Hnotin Hnd']; subst.
  destruct Hx as [->|Hx], Hy as [->|Hy].
  - reflexivity.
  - exfalso. apply Hnotin. rewrite Hf. apply in_map. exact Hy.
  - exfalso. apply Hnotin. rewrite <- Hf. apply in_map. exact Hx.
  - apply IH; assumption.
Qed.

Lemma Greedy_events (targets claimed sources : list CalendarEvent) (ms : list EventMatch) :
  Greedy targets claimed sources ms ->
  List.NoDup (List.map em_targetEvent ms)
  /\ (forall m, In m ms ->
        In (em_targetEvent m) targets /\ ~ In (em_targetEvent m) claimed)
  /\ (forall m, In m ms -> In (em_sourceEvent m) sources).
Proof.
  induction 1 as [claimed
                 |claimed s sources ms Hnone Hg (Hnd & Htgt & Hsrc)
                 |claimed s sources t ms Hin Hfree Hhalf Hmax Hg (Hnd & Htgt & Hsrc)].
  - split; [constructor|]. split; intros m [].
  - split; [exact Hnd|]. split; [exact Htgt|].
    intros m Hm. right. apply Hsrc. exact Hm.
  - destruct (calculateMatch_events s t) as [Hs Ht]. simpl. rewrite Ht.
    split; [|split].
    + constructor; [|exact Hnd].
      intros Hdup. apply in_map_iff in Hdup. destruct Hdup as (m & Hm & Hinm).
      destruct (Htgt m Hinm) as [_ Hnot]. apply Hnot. left. symmetry. exact Hm.
    + intros m [<-|Hm].
      * rewrite Ht. split; assumption.
      * destruct (Htgt m Hm) as [H1 H2]. split; [exact H1|].
        intros Hc. apply H2. right. exact Hc.
    + intros m [<-|Hm]; [left; symmetry; exact Hs | right; apply Hsrc; exact Hm].
Qed.

Lemma compare_fold (targets : list CalendarEvent) :
  List.NoDup (List.map ev_id targets) ->
  forall (sources : list CalendarEvent) (matches : list EventMatch)
         (matchedSourceIds matchedTargetIds : gset string)
         (claimed : list CalendarEvent),
    (forall t, In t claimed -> In t targets) ->
    (forall id, id ∈ matchedTargetIds <-> In id (List.map ev_id claimed)) ->
    exists ms matchedSourceIds' matchedTargetIds',
      fold_left (compareStep targets) sources
        (matches, matchedSourceIds, matchedTargetIds)
      = (matches ++ ms, matchedSourceIds', matchedTargetIds')
      /\ Greedy targets claimed sources ms
      /\ (forall id, id ∈ matchedSourceIds' <->
            id ∈ matchedSourceIds
            \/ In id (List.map (fun m => ev_id (em_sourceEvent m)) ms))
      /\ (forall id, id ∈ matchedTargetIds' <->
            id ∈ matchedTargetIds
            \/ In id (List.map (fun m => ev_id (em_targetEvent m)) ms)).
Proof.
  intros Hnd.
  induction sources as [|s sources IH];
    intros matches srcIds tgtIds claimed Hsub Hids.
  - exists [], srcIds, tgtIds. simpl. rewrite app_nil_r.
    split; [reflexivity|]. split; [constructor|]. split; intros id; tauto.
  - assert (Hfree : forall t, In t targets -> (ev_id t ∉ tgtIds <-> ~ In t claimed)).
    { intros t Hin. rewrite Hids. split.
      - intros Hnot Hc. apply Hnot. apply in_map. exact Hc.
      - intros Hnot Hid. apply in_map_iff in Hid. destruct Hid as (c & Hc & Hinc).
        apply Hnot. rewrite <- (NoDup_map_eq ev_id targets c t Hnd (Hsub c Hinc) Hin Hc).
        exact Hinc. }
    pose proof (bestMatchFor_best s targets tgtIds) as Hbest.
    cbn [fold_left]. unfold compareStep at 2.
    destruct (bestMatchFor s targets tgtIds) as [m|]; simpl in Hbest.
    + destruct Hbest as [(t & Hin & Hnot & -> & Hhalf) Hmax].
      destruct (calculateMatch_events s t) as [Hs Ht]. rewrite Ht.
      destruct (IH (matches ++ [calculateMatch s t]) ({[ev_id s]} ∪ srcIds)
                  ({[ev_id t]} ∪ tgtIds) (t :: claimed))
        as (ms & srcIds' & tgtIds' & Hfold & Hg & Hsrc' & Htgt').
      * intros t' [<-|Hc]; [exact Hin | apply Hsub; exact Hc].
      * intros id. simpl. rewrite elem_of_union, elem_of_singleton, Hids.
        split; intros [H|H]; auto.
      * exists (calculateMatch s t :: ms), srcIds', tgtIds'.
        rewrite Hfold, <- app_assoc. split; [reflexivity|]. split; [|split].
        -- apply greedy_take; try assumption.
           ++ apply Hfree; assumption.
           ++ intros t' Hin' Hnot'. apply Hmax; [exact Hin'|].
              apply Hfree; assumption.
        -- intros id. rewrite Hsrc', elem_of_union, elem_of_singleton. simpl.
           rewrite Hs. split; intros H; repeat destruct H as [H|H]; auto.
        -- intros id. rewrite Htgt', elem_of_union, elem_of_singleton. simpl.
           rewrite Ht. split; intros H; repeat destruct H as [H|H]; auto.
    + destruct (IH matches srcIds tgtIds claimed Hsub Hids)
        as (ms & srcIds' & tgtIds' & Hfold & Hg & Hsrc' & Htgt').
      exists ms, srcIds', tgtIds'. split; [exact Hfold|]. split; [|split; assumption].
      apply greedy_none; [|exact Hg].
      intros t Hin Hnot. apply Hbest; [exact Hin|]. apply Hfree; assumption.
Qed.

(** C6 (as amended).  For every pair of source and target event lists in
    which no two events of the same list share an id, [compareCalendars]
    matches greedily, first come first served: it takes the source events in
    their original order and gives each a best-scoring target among those
    no earlier source event has claimed, provided that score is at least
    0.5; a target is claimed at most once, and never taken back by a later
    source event; the source and target events that end up in no match are
    exactly [sourceOnly] and [targetOnly]. *)
Theorem compareCalendars_greedy :
  forall (sourceEvents targetEvents : list CalendarEvent),
    List.NoDup (List.map ev_id sourceEvents) ->
    List.NoDup (List.map ev_id targetEvents) ->
    let matches := fst (fst (compareEvents sourceEvents targetEvents)) in
    let sourceOnly := snd (fst (compareEvents sourceEvents targetEvents)) in
    let targetOnly := snd (compareEvents sourceEvents targetEvents) in
    Greedy targetEvents [] sourceEvents matches
    /\ List.NoDup (List.map em_targetEvent matches)
    /\ (forall e, In e sourceOnly <->
          In e sourceEvents /\ ~ In e (List.map em_sourceEvent matches))
    /\ (forall e, In e targetOnly <->
          In e targetEvents /\ ~ In e (List.map em_targetEvent matches))
    /\ (forall (registry : ProviderRegistry) (params : SyncParams),
          exists src tgt cmp,
            listSide registry (sp_sourceProvider params) (sp_sourceCalendarId params)
              (sp_startTime params) (sp_endTime params) = Resolved src
            /\ listSide registry (sp_targetProvider params) (sp_targetCalendarId params)
                 (sp_startTime params) (sp_endTime params) = Resolved tgt
            /\ compareCalendars registry params = Resolved cmp
            /\ (cc_matches cmp, cc_sourceOnly cmp, cc_targetOnly cmp)
               = compareEvents (ler_events src) (ler_events tgt)).
Proof.
  intros sources targets Hsrc Htgt.
  unfold compareEvents.
  destruct (compare_fold targets Htgt sources [] ∅ ∅ [])
    as (ms & srcIds & tgtIds & Hfold & Hg & HsrcIds & HtgtIds).
  { intros t []. }
  { intros id. simpl. rewrite elem_of_empty. tauto. }
  rewrite Hfold. cbn [app fst snd].
  destruct (Greedy_events _ _ _ _ Hg) as (Hnd & Htargets & Hsources).
  split; [exact Hg|]. split; [exact Hnd|]. split; [|split].
  - intros e. rewrite filter_In, negb_true_iff, bool_decide_eq_false, HsrcIds.
    rewrite elem_of_empty. split; intros [Hin Hnot]; (split; [exact Hin|]).
    + intros Hm. apply Hnot. right.
      apply in_map_iff in Hm. destruct Hm as (m & <- & Hm).
      apply in_map_iff. exists m. split; [reflexivity | exact Hm].
    + intros [[]|Hid]. apply in_map_iff in Hid. destruct Hid as (m & Hid & Hm).
      apply Hnot. apply in_map_iff. exists m. split; [|exact Hm].
      apply (NoDup_map_eq ev_id sources _ _ Hsrc (Hsources m Hm) Hin Hid).
  - intros e. rewrite filter_In, negb_true_iff, bool_decide_eq_false, HtgtIds.
    rewrite elem_of_empty. split; intros [Hin Hnot]; (split; [exact Hin|]).
    + intros Hm. apply Hnot. right.
      apply in_map_iff in Hm. destruct Hm as (m & <- & Hm).
      apply in_map_iff. exists m. split; [reflexivity | exact Hm].
    + intros [[]|Hid]. apply in_map_iff in Hid. destruct Hid as (m & Hid & Hm).
      apply Hnot. apply in_map_iff. exists m. split; [|exact Hm].
      apply (NoDup_map_eq ev_id targets _ _ Htgt (proj1 (Htargets m Hm)) Hin Hid).
  - intros registry params. apply compareCalendars_resolved.
Qed.

Lemma compareCalendars_greedy_witness :
  let s1 := mkEvent "s1" google "primary" "Standup" 0 1000 false None showAs_busy None in
  let s2 := mkEvent "s2" google "primary" "Retro" 5000000 5001000 false None showAs_busy None in
  let t1 := mkEvent "t1" microsoft "primary" "Retro" 5000000 5001000 false None showAs_busy None in
  let t2 := mkEvent "t2" microsoft "primary" "Standup" 0 1000 false None showAs_busy None in
  Greedy [t1; t2] [] [s1; s2] (fst (fst (compareEvents [s1; s2] [t1; t2])))
  /\ List.NoDup (List.map em_targetEvent (fst (fst (compareEvents [s1; s2] [t1; t2])))).
Proof.
  cbv zeta.
  pose proof (compareCalendars_greedy
    [mkEvent "s1" google "primary" "Standup" 0 1000 false None showAs_busy None;
     mkEvent "s2" google "primary" "Retro" 5000000 5001000 false None showAs_busy None]
    [mkEvent "t1" microsoft "primary" "Retro" 5000000 5001000 false None showAs_busy None;
     mkEvent "t2" microsoft "primary" "Standup" 0 1000 false None showAs_busy None]) as H.
  cbv zeta in H.
  destruct H as (Hg & Hnd & _).
  - constructor; [simpl; intros [H|[]]; discriminate H|].
    constructor; [simpl; intros []|constructor].
  - constructor; [simpl; intros [H|[]]; discriminate H|].
    constructor; [simpl; intros []|constructor].
  - split; [exact Hg | exact Hnd].
Defined.

(** C6 as stated fails when two events of a list share an id: the loops
    record claimed targets and matched sources by id.  Here both targets
    carry the id "x"; the first source claims the first target, and the
    second target, though claimed by nobody and a perfect match of the
    second source, is skipped for it and is missing from [targetOnly]. *)
Lemma compareCalendars_greedy_counterexample :
  let s1 := mkEvent "s1" google "primary" "Standup" 0 1000 false None showAs_busy None in
  let s2 := mkEvent "s2" google "primary" "Retro" 5000000 5001000 false None showAs_busy None in
  let t1 := mkEvent "x" microsoft "primary" "Standup" 0 1000 false None showAs_busy None in
  let t2 := mkEvent "x" microsoft "primary" "Retro" 5000000 5001000 false None showAs_busy None in
  let r := compareEvents [s1; s2] [t1; t2] in
  fst (fst r) = [calculateMatch s1 t1]
  /\ snd (fst r) = [s2]
  /\ snd r = []
  /\ In t2 [t1; t2]
  /\ ~ In t2 (List.map em_targetEvent (fst (fst r)))
  /\ ~ In t2 (snd r)
  /\ (1 # 2 <= scoreOf s2 t2)%Q
  /\ ~ Greedy [t1; t2] [] [s1; s2] (fst (fst r)).
Proof.
  cbv zeta.
  set (s1 := mkEvent "s1" google "primary" "Standup" 0 1000 false None showAs_busy None).
  set (s2 := mkEvent "s2" google "primary" "Retro" 5000000 5001000 false None showAs_busy None).
  set (t1 := mkEvent "x" microsoft "primary" "Standup" 0 1000 false None showAs_busy None).
  set (t2 := mkEvent "x" microsoft "primary" "Retro" 5000000 5001000 false None showAs_busy None).
  assert (Hm : fst (fst (compareEvents [s1; s2] [t1; t2])) = [calculateMatch s1 t1])
    by (vm_compute; reflexivity).
  assert (Hso : snd (fst (compareEvents [s1; s2] [t1; t2])) = [s2])
    by (vm_compute; reflexivity).
  assert (Hto : snd (compareEvents [s1; s2] [t1; t2]) = [])
    by (vm_compute; reflexivity).
  rewrite Hm, Hso, Hto.
  assert (Hne : t2 <> t1) by (intros H; discriminate H).
  split; [reflexivity|]. split; [reflexivity|]. split; [reflexivity|].
  split; [right; left; reflexivity|].
  split.
  { cbn [List.map In]. rewrite (proj2 (calculateMatch_events s1 t1)).
    intros [H|[]]. apply Hne. auto. }
  split; [intros []|].
  split; [vm_compute; discriminate|].
  intros Hg.
  inversion Hg as [|? ? ? ? Hnone Hg'|? ? ? t ? Hin Hfree Hhalf Hmax Hg'].
  - specialize (Hnone t1 ltac:(left; reflexivity) ltac:(intros [])).
    vm_compute in Hnone. discriminate Hnone.
  - destruct Hin as [<-|[<-|[]]].
    + inversion Hg' as [|? ? ? ? Hnone' Hg''|].
      assert (Hlow : (scoreOf s2 t2 < 1 # 2)%Q).
      { apply Hnone'; [right; left; reflexivity|]. intros [H'|[]]. apply Hne. auto. }
      vm_compute in Hlow. discriminate Hlow.
    + specialize (Hmax t1 ltac:(left; reflexivity) ltac:(intros [])).
      vm_compute in Hmax. apply Hmax. reflexivity.
Qed.

(** ** Further properties of the interval algebra and the services *)

(** X1.  Overlap is symmetric in its two ranges. *)
Theorem rangesOverlap_symmetric :
  forall s1 e1 s2 e2 : Z,
    rangesOverlap s1 e1 s2 e2 = rangesOverlap s2 e2 s1 e1.
Proof.
  intros s1 e1 s2 e2. unfold rangesOverlap.
  rewrite !Z.gtb_ltb. apply andb_comm.
Qed.

Lemma sortBy_sorted_id {A : Type} (key : A -> Z) (l : list A) :
  StronglySorted (fun a b => key a <= key b) l ->
  sortBy (fun a b => key a <=? key b) l = l.
Proof.
  induction 1 as [|x l Hs IH Hx]; simpl; [reflexivity|].
  rewrite IH. destruct l as [|y l]; simpl; [reflexivity|].
  inversion Hx as [|? ? Hxy _]; subst.
  apply Z.leb_le in Hxy. rewrite Hxy. reflexivity.
Qed.

Lemma SepAfter_sorted (l : list Interval) :
  forall b, SepAfter b l ->
    StronglySorted (fun a c => i_s a <= i_s c) l
    /\ Forall (fun i => b < i_s i) l
    /\ List.filter isValid l = l.
Proof.
  induction l as [|i l IH]; intros b Hsep.
  - repeat split; constructor.
  - inversion Hsep as [|? ? ? Hb Hne Hsep']; subst.
    destruct (IH (i_e i) Hsep') as (Hs & Hall & Hf).
    rewrite List.Forall_forall in Hall.
    split; [|split].
    + constructor; [exact Hs|]. rewrite List.Forall_forall.
      intros c Hc. specialize (Hall c Hc). simpl in Hall. lia.
    + constructor; [exact Hb|]. rewrite List.Forall_forall.
      intros c Hc. specialize (Hall c Hc). simpl in Hall. lia.
    + simpl. unfold isValid at 1.
      destruct (Z.leb_spec (i_s i) (i_e i)); [|lia]. rewrite Hf. reflexivity.
Qed.

Lemma mergeIntervals_loop_sep_id (rest : list Interval) :
  forall current,
    SepAfter (i_e current) rest ->
    mergeIntervals_loop current rest [] = current :: rest.
Proof.
  induction rest as [|next rest IH]; intros current Hsep; simpl; [reflexivity|].
  inversion Hsep as [|? ? ? Hb Hne Hsep']; subst.
  unfold overlaps, abutsStart.
  destruct (Z.gtb_spec (i_e current) (i_s next)); [lia|].
  destruct (Z.eqb_spec (i_e current) (i_s next)); [lia|].
  simpl. rewrite mergeIntervals_loop_app, IH by exact Hsep'. reflexivity.
Qed.

Lemma mergeIntervals_sep_id (l : list Interval) (b : Z) :
  SepAfter b l -> mergeIntervals l = l.
Proof.
  intros Hsep. destruct (SepAfter_sorted l b Hsep) as (Hs & _ & Hf).
  unfold mergeIntervals. destruct l as [|i l]; [reflexivity|].
  rewrite Hf, (sortBy_sorted_id i_s _ Hs).
  inversion Hsep; subst. apply mergeIntervals_loop_sep_id. assumption.
Qed.

(** X2.  Merging is idempotent on every list of intervals none of which
    has length zero. *)
Theorem mergeIntervals_idempotent :
  forall intervals : list Interval,
    (forall i, In i intervals -> i_s i <> i_e i) ->
    mergeIntervals (mergeIntervals intervals) = mergeIntervals intervals.
Proof.
  intros intervals Hne.
  destruct (mergeIntervals_sep intervals Hne) as [b Hsep].
  apply (mergeIntervals_sep_id _ b Hsep).
Qed.

Lemma mergeIntervals_idempotent_witness :
  mergeIntervals
    (mergeIntervals [fromDateTimes 630 660; fromDateTimes 540 600; fromDateTimes 600 615])
  = mergeIntervals [fromDateTimes 630 660; fromDateTimes 540 600; fromDateTimes 600 615].
Proof.
  apply mergeIntervals_idempotent.
  intros i [<-|[<-|[<-|[]]]]; simpl; lia.
Defined.

(** X3.  From a cursor at or after [proposedStart] every jump of the
    alternative-slot search lands strictly after [proposedStart]: the
    forcing of the cursor to [proposedEnd] does not fire. *)
Theorem findAlternativeSlot_guard_idle :
  forall (proposedStart proposedEnd : Z) (existingEvents : list CalendarEvent)
         (cursor : Z) (busy : Z * Z),
    proposedStart <= cursor ->
    firstHit (busySlotsOf existingEvents) cursor (cursor + (proposedEnd - proposedStart))
    = Some busy ->
    cursor < snd busy /\ (snd busy <=? proposedStart) = false.
Proof.
  intros ps pe events cursor busy Hge Hfind.
  destruct (firstHit_Some ps pe _ _ _ Hfind) as (_ & _ & _ & _ & [Hlt _]).
  split; [exact Hlt|]. apply Z.leb_gt. lia.
Qed.

Lemma findAlternativeSlot_guard_idle_witness :
  0 < snd (0, 1800000) /\ (snd (0, 1800000) <=? 0) = false.
Proof.
  apply (findAlternativeSlot_guard_idle 0 3600000
           [mkEvent "e1" google "primary" "Review" 0 1800000 false None showAs_busy None]
           0 (0, 1800000)).
  - lia.
  - reflexivity.
Defined.

Lemma matching_fold_floor (minScore : Q) (sourceEvent : CalendarEvent)
  (targetEvents : list CalendarEvent) :
  forall matches,
    Forall (fun m => (minScore <= em_score m)%Q) matches ->
    Forall (fun m => (minScore <= em_score m)%Q)
      (fold_left
         (fun matches targetEvent =>
            let matchResult := calculateMatch sourceEvent targetEvent in
            if Qle_bool minScore (em_score matchResult)
            then matches ++ [matchResult] else matches)
         targetEvents matches).
Proof.
  induction targetEvents as [|t l IH]; intros matches Hall; simpl; [exact Hall|].
  apply IH.
  destruct (Qle_bool minScore (em_score (calculateMatch sourceEvent t))) eqn:Hle;
    [|exact Hall].
  apply Qle_bool_iff in Hle. apply Forall_app. split; [exact Hall|].
  constructor; [exact Hle | constructor].
Qed.

Lemma matching_outer_floor (minScore : Q) (targetEvents sourceEvents : list CalendarEvent) :
  forall matches,
    Forall (fun m => (minScore <= em_score m)%Q) matches ->
    Forall (fun m => (minScore <= em_score m)%Q)
      (fold_left
         (fun matches sourceEvent =>
            fold_left
              (fun matches targetEvent =>
                 let matchResult := calculateMatch sourceEvent targetEvent in
                 if Qle_bool minScore (em_score matchResult)
                 then matches ++ [matchResult] else matches)
              targetEvents matches)
         sourceEvents matches).
Proof.
  induction sourceEvents as [|s l IH]; intros matches Hall; simpl; [exact Hall|].
  apply IH. apply matching_fold_floor. exact Hall.
Qed.

(** Every match returned by [findMatchingEvents] scores at least the
    floor of the requested confidence: 0.8 for [high], 0.5 for [medium],
    0.3 otherwise. *)
Theorem findMatchingEvents_confidence_floor :
  forall (registry : ProviderRegistry) (params : SyncParams),
  exists matches,
    findMatchingEvents registry params = Resolved matches
    /\ forall m, In m matches ->
         (minScoreOf (sp_minConfidence params) <= em_score m)%Q.
Proof.
  intros registry params.
  destruct (listSide_resolved registry (sp_sourceProvider params)
              (sp_sourceCalendarId params) (sp_startTime params) (sp_endTime params))
    as (src & Hsrc).
  destruct (listSide_resolved registry (sp_targetProvider params)
              (sp_targetCalendarId params) (sp_startTime params) (sp_endTime params))
    as (tgt & Htgt).
  unfold findMatchingEvents. rewrite Hsrc, Htgt. cbn [promiseAll2 await fst snd].
  eexists. split; [reflexivity|].
  intros m Hm. apply sortBy_In in Hm. revert m Hm. rewrite <- List.Forall_forall.
  apply matching_outer_floor. constructor.
Qed.

(** The free/busy example of the specification (times of the day in
    milliseconds): range 09:00-17:00 with busy 09:00-10:00 and
    10:30-11:00 leaves 10:00-10:30 and 11:00-17:00 free. *)
Example computeFreeSlots_example :
  computeFreeSlots
    (mergeBusySlots
       [mkBusySlot 32400000 36000000 status_busy None None;
        mkBusySlot 37800000 39600000 status_busy None None])
    32400000 61200000
  = [mkFreeSlot 36000000 37800000 30; mkFreeSlot 39600000 61200000 360].
Proof. reflexivity. Qed.

(** The working-hours example of the specification: on Monday 1970-01-05 a
    free slot 07:00-20:00 is cut to the working hours 09:00-18:00; on Sunday
    1970-01-04 nothing is left. *)
Example filterToWorkingHours_example :
  let hours :=
    mkWorkingHours (9, 0) (18, 0)
      ["monday"; "tuesday"; "wednesday"; "thursday"; "friday"]%string in
  let monday := 4 * msPerDay in
  let sunday := 3 * msPerDay in
  filterToWorkingHours hours
    [mkFreeSlot (monday + 25200000) (monday + 72000000) 780] monday (monday + msPerDay)
    (Some hours)
  = [mkFreeSlot (monday + 32400000) (monday + 64800000) 540]
  /\ filterToWorkingHours hours
       [mkFreeSlot (sunday + 25200000) (sunday + 72000000) 780] sunday (sunday + msPerDay)
       (Some hours)
     = [].
Proof. split; reflexivity. Qed.

(** ** The availability engine: what [mergeBusySlots] keeps *)

Lemma mergeBusySlots_loop_merge (current next : BusySlot) (rest merged : list BusySlot) :
  bs_start next <= bs_end current ->
  exists coalesced,
    mergeBusySlots_loop current (next :: rest) merged
    = mergeBusySlots_loop coalesced rest merged
    /\ bs_start coalesced = bs_start current
    /\ bs_end coalesced = Z.max (bs_end current) (bs_end next)
    /\ bs_status coalesced = mergedStatus (bs_status current) (bs_status next).
Proof.
  intros Hle. simpl. apply Z.leb_le in Hle. rewrite Hle.
  eexists. split; [reflexivity|].
  destruct current as [cs ce cst csub cid], next as [ns ne nst nsub nid]; simpl.
  destruct (Z.gtb_spec ne ce); destruct cst, nst; simpl; repeat split; lia.
Qed.

Lemma sorted_cons_inv {A : Type} (R : A -> A -> Prop) (x y : A) (l : list A) :
  StronglySorted R (x :: y :: l) ->
  R x y /\ StronglySorted R (x :: l) /\ StronglySorted R (y :: l).
Proof.
  intros H. inversion H as [|? ? Htail Hhead]; subst.
  inversion Hhead as [|? ? Hxy Hxl]; subst.
  inversion Htail as [|? ? Htail' Hyl]; subst.
  split; [exact Hxy|]. split; [constructor; assumption | exact Htail].
Qed.

Lemma sorted_same_key {A : Type} (key : A -> Z) (x x' : A) (l : list A) :
  key x' = key x ->
  StronglySorted (fun a b => key a <= key b) (x :: l) ->
  StronglySorted (fun a b => key a <= key b) (x' :: l).
Proof.
  intros Hk H. inversion H as [|? ? Htail Hhead]; subst.
  constructor; [exact Htail|]. rewrite List.Forall_forall in Hhead.
  rewrite List.Forall_forall. intros y Hy. rewrite Hk. apply Hhead. exact Hy.
Qed.

Lemma mergeBusySlots_loop_apart (rest : list BusySlot) :
  forall current,
    StronglySorted (fun a b => bs_start a <= bs_start b) (current :: rest) ->
    StronglySorted apart (mergeBusySlots_loop current rest [])
    /\ Forall (fun m => bs_start current <= bs_start m)
         (mergeBusySlots_loop current rest []).
Proof.
  induction rest as [|next rest IH]; intros current Hsorted.
  - simpl. split.
    + constructor; [constructor | constructor].
    + constructor; [lia | constructor].
  - destruct (sorted_cons_inv _ _ _ _ Hsorted) as (Hcn & Hcur & Hnext).
    destruct (Z.le_gt_cases (bs_start next) (bs_end current)) as [Hle|Hgt].
    + destruct (mergeBusySlots_loop_merge current next rest [] Hle)
        as (c & -> & Hs & _ & _).
      destruct (IH c (sorted_same_key bs_start _ _ _ Hs Hcur)) as [H1 H2].
      split; [exact H1|]. rewrite <- Hs. exact H2.
    + rewrite mergeBusySlots_loop_skip by lia.
      rewrite mergeBusySlots_loop_app. simpl.
      destruct (IH next Hnext) as [H1 H2].
      rewrite List.Forall_forall in H2.
      split.
      * constructor; [exact H1|]. rewrite List.Forall_forall.
        intros m Hm. specialize (H2 m Hm). simpl in H2. unfold apart. lia.
      * constructor; [lia|]. rewrite List.Forall_forall.
        intros m Hm. specialize (H2 m Hm). simpl in H2. lia.
Qed.

Lemma mergeBusySlots_sorted_apart :
  forall slots : list BusySlot, StronglySorted apart (mergeBusySlots slots).
Proof.
  intros slots. unfold mergeBusySlots.
  pose proof (sortBy_sorted bs_start slots) as Hsorted.
  destruct (sortBy (fun a b => bs_start a <=? bs_start b) slots) as [|first rest].
  - constructor.
  - apply mergeBusySlots_loop_apart. exact Hsorted.
Qed.

Lemma mergeBusySlots_loop_length (rest : list BusySlot) :
  forall current merged,
    (List.length (mergeBusySlots_loop current rest merged)
     <= List.length merged + S (List.length rest))%nat.
Proof.
  induction rest as [|next rest IH]; intros current merged; simpl.
  - rewrite length_app. simpl. lia.
  - destruct (bs_start next <=? bs_end current).
    + etransitivity; [apply IH | lia].
    + etransitivity; [apply IH|]. rewrite length_app. simpl. lia.
Qed.

(** X4.  For every list of busy slots the slots returned by
    [mergeBusySlots] are in increasing order of start and strictly apart:
    each one ends before the next one starts.  There are never more of them
    than slots in the input, and there is at least one unless the input is
    empty. *)
Theorem mergeBusySlots_apart :
  forall slots : list BusySlot,
    StronglySorted apart (mergeBusySlots slots)
    /\ (List.length (mergeBusySlots slots) <= List.length slots)%nat
    /\ (mergeBusySlots slots = [] <-> slots = []).
Proof.
  intros slots. split; [apply mergeBusySlots_sorted_apart|].
  unfold mergeBusySlots.
  rewrite <- (sortBy_length (fun a b => bs_start a <=? bs_start b) slots).
  destruct (sortBy (fun a b => bs_start a <=? bs_start b) slots) as [|first rest] eqn:Hs.
  - split; [simpl; lia|]. split; [|reflexivity].
    intros _. destruct slots as [|s l]; [reflexivity|].
    pose proof (sortBy_length (fun a b => bs_start a <=? bs_start b) (s :: l)) as Hl.
    rewrite Hs in Hl. discriminate.
  - split.
    + etransitivity; [apply mergeBusySlots_loop_length | simpl; lia].
    + split.
      * intros Hnil. exfalso.
        rewrite mergeBusySlots_loop_app in Hnil. simpl in Hnil.
        clear - Hnil. revert first Hnil.
        induction rest as [|next rest IH]; intros first Hnil; simpl in Hnil.
        -- discriminate.
        -- destruct (bs_start next <=? bs_end first).
           ++ apply (IH _ Hnil).
           ++ rewrite mergeBusySlots_loop_app in Hnil. discriminate.
      * intros ->. discriminate.
Qed.

Lemma mergeBusySlots_loop_covers (t : Z) (rest : list BusySlot) :
  forall current,
    StronglySorted (fun a b => bs_start a <= bs_start b) (current :: rest) ->
    existsb (slotCovers t) (mergeBusySlots_loop current rest [])
    = slotCovers t current || existsb (slotCovers t) rest.
Proof.
  induction rest as [|next rest IH]; intros current Hsorted.
  - simpl. reflexivity.
  - destruct (sorted_cons_inv _ _ _ _ Hsorted) as (Hcn & Hcur & Hnext).
    destruct (Z.le_gt_cases (bs_start next) (bs_end current)) as [Hle|Hgt].
    + destruct (mergeBusySlots_loop_merge current next rest [] Hle)
        as (c & -> & Hs & He & _).
      rewrite (IH c (sorted_same_key bs_start _ _ _ Hs Hcur)).
      simpl. rewrite orb_assoc. f_equal.
      unfold slotCovers. rewrite Hs, He. zbool; simpl; lia.
    + rewrite mergeBusySlots_loop_skip by lia.
      rewrite mergeBusySlots_loop_app. simpl. rewrite (IH next Hnext). reflexivity.
Qed.

Lemma existsb_sortBy {A : Type} (leb : A -> A -> bool) (f : A -> bool) (l : list A) :
  existsb f (sortBy leb l) = existsb f l.
Proof.
  apply eq_true_iff_eq. rewrite !existsb_exists.
  split; intros (x & Hx & Hf); exists x; (split; [|exact Hf]).
  - apply (sortBy_In leb l x). exact Hx.
  - apply (sortBy_In leb l x). exact Hx.
Qed.

(** X5.  Merging busy slots neither loses nor invents busy time: for every
    list of busy slots an instant lies in some merged slot exactly when it
    lies in some slot of the input. *)
Theorem mergeBusySlots_same_cover :
  forall (slots : list BusySlot) (t : Z),
    existsb (slotCovers t) (mergeBusySlots slots) = existsb (slotCovers t) slots.
Proof.
  intros slots t.
  rewrite <- (existsb_sortBy (fun a b => bs_start a <=? bs_start b) (slotCovers t) slots).
  unfold mergeBusySlots.
  pose proof (sortBy_sorted bs_start slots) as Hsorted.
  destruct (sortBy (fun a b => bs_start a <=? bs_start b) slots) as [|first rest].
  - reflexivity.
  - apply mergeBusySlots_loop_covers. exact Hsorted.
Qed.

Lemma apart_sorted (l : list BusySlot) :
  StronglySorted apart l ->
  StronglySorted (fun a b => bs_start a <= bs_start b) l.
Proof.
  induction 1 as [|x l Hs IH Hx]; constructor; [exact IH|].
  rewrite List.Forall_forall in Hx. rewrite List.Forall_forall.
  intros y Hy. destruct (Hx y Hy) as [_ H]. exact H.
Qed.

Lemma mergeBusySlots_loop_apart_id (rest : list BusySlot) :
  forall current,
    StronglySorted apart (current :: rest) ->
    mergeBusySlots_loop current rest [] = current :: rest.
Proof.
  induction rest as [|next rest IH]; intros current Hsorted; [reflexivity|].
  destruct (sorted_cons_inv _ _ _ _ Hsorted) as ([Hcn _] & _ & Hnext).
  rewrite mergeBusySlots_loop_skip by exact Hcn.
  rewrite mergeBusySlots_loop_app, (IH next Hnext). reflexivity.
Qed.

(** X6.  [mergeBusySlots] is idempotent on every list of busy slots. *)
Theorem mergeBusySlots_idempotent :
  forall slots : list BusySlot,
    mergeBusySlots (mergeBusySlots slots) = mergeBusySlots slots.
Proof.
  intros slots. pose proof (mergeBusySlots_sorted_apart slots) as Hapart.
  unfold mergeBusySlots at 1.
  rewrite (sortBy_sorted_id bs_start _ (apart_sorted _ Hapart)).
  destruct (mergeBusySlots slots) as [|first rest]; [reflexivity|].
  apply mergeBusySlots_loop_apart_id. exact Hapart.
Qed.

Lemma mergeBusySlots_loop_busy (rest : list BusySlot) :
  forall current,
    StronglySorted (fun a b => bs_start a <= bs_start b) (current :: rest) ->
    (exists head tail,
        mergeBusySlots_loop current rest [] = head :: tail
        /\ bs_start head = bs_start current
        /\ bs_end current <= bs_end head
        /\ (bs_status current = status_busy -> bs_status head = status_busy))
    /\ forall s, In s rest -> bs_status s = status_busy ->
         exists m, In m (mergeBusySlots_loop current rest [])
                   /\ bs_status m = status_busy
                   /\ bs_start m <= bs_start s /\ bs_end s <= bs_end m.
Proof.
  induction rest as [|next rest IH]; intros current Hsorted.
  - simpl. split.
    + exists current, []. repeat split; auto; lia.
    + intros s [].
  - destruct (sorted_cons_inv _ _ _ _ Hsorted) as (Hcn & Hcur & Hnext).
    destruct (Z.le_gt_cases (bs_start next) (bs_end current)) as [Hle|Hgt].
    + destruct (mergeBusySlots_loop_merge current next rest [] Hle)
        as (c & -> & Hs & He & Hst).
      destruct (IH c (sorted_same_key bs_start _ _ _ Hs Hcur))
        as ((head & tail & Heq & Hhs & Hhe & Hhb) & Hrest).
      split.
      * exists head, tail. split; [exact Heq|]. split; [lia|]. split; [lia|].
        intros Hb. apply Hhb. rewrite Hst, Hb. reflexivity.
      * intros s [<-|Hin] Hb; [|apply Hrest; assumption].
        exists head. split; [rewrite Heq; left; reflexivity|].
        split; [|lia].
        apply Hhb. rewrite Hst, Hb. destruct (bs_status current); reflexivity.
    + rewrite mergeBusySlots_loop_skip by lia.
      rewrite mergeBusySlots_loop_app. simpl.
      destruct (IH next Hnext) as ((head & tail & Heq & Hhs & Hhe & Hhb) & Hrest).
      split.
      * exists current, (mergeBusySlots_loop next rest []).
        repeat split; auto; lia.
      * intros s [<-|Hin] Hb.
        -- exists head. split; [right; rewrite Heq; left; reflexivity|].
           split; [apply Hhb; exact Hb | lia].
        -- destruct (Hrest s Hin Hb) as (m & Hm & Hmb & Hms & Hme).
           exists m. split; [right; exact Hm|]. tauto.
Qed.

(** X7.  Merging never downgrades busy time: for every busy slot of the
    input whose status is [busy] there is a merged slot with status [busy]
    that starts no later and ends no earlier. *)
Theorem mergeBusySlots_keeps_busy :
  forall (slots : list BusySlot) (s : BusySlot),
    In s slots -> bs_status s = status_busy ->
    exists m, In m (mergeBusySlots slots)
              /\ bs_status m = status_busy
              /\ bs_start m <= bs_start s /\ bs_end s <= bs_end m.
Proof.
  intros slots s Hin Hbusy.
  apply (sortBy_In (fun a b => bs_start a <=? bs_start b)) in Hin.
  unfold mergeBusySlots.
  pose proof (sortBy_sorted bs_start slots) as Hsorted.
  destruct (sortBy (fun a b => bs_start a <=? bs_start b) slots) as [|first rest];
    [destruct Hin|].
  destruct (mergeBusySlots_loop_busy rest first Hsorted)
    as ((head & tail & Heq & Hhs & Hhe & Hhb) & Hrest).
  destruct Hin as [<-|Hin]; [|apply Hrest; assumption].
  exists head. split; [rewrite Heq; left; reflexivity|].
  split; [apply Hhb; exact Hbusy | lia].
Qed.

Lemma mergeBusySlots_keeps_busy_witness :
  exists m,
    In m (mergeBusySlots [mkBusySlot 100 200 status_busy None None;
                          mkBusySlot 150 300 status_tentative None None])
    /\ bs_status m = status_busy /\ bs_start m <= 100 /\ 200 <= bs_end m.
Proof.
  apply (mergeBusySlots_keeps_busy
           [mkBusySlot 100 200 status_busy None None;
            mkBusySlot 150 300 status_tentative None None]
           (mkBusySlot 100 200 status_busy None None)).
  - left. reflexivity.
  - reflexivity.
Defined.

(** ** Interval algebra: what [mergeIntervals] keeps *)

Lemma SepAfter_strong (l : list Interval) :
  forall b, SepAfter b l ->
    StronglySorted (fun a c => i_e a < i_s c) l
    /\ Forall (fun i => b < i_s i /\ i_s i < i_e i) l.
Proof.
  induction l as [|i l IH]; intros b Hsep.
  - split; constructor.
  - inversion Hsep as [|? ? ? Hb Hne Hsep']; subst.
    destruct (IH (i_e i) Hsep') as [Hs Hall].
    rewrite List.Forall_forall in Hall.
    split.
    + constructor; [exact Hs|]. rewrite List.Forall_forall.
      intros c Hc. destruct (Hall c Hc) as [H _]. exact H.
    + constructor; [split; assumption|]. rewrite List.Forall_forall.
      intros c Hc. destruct (Hall c Hc) as [H1 H2]. split; lia.
Qed.

(** X8.  On every list of intervals none of which has length zero
    [mergeIntervals] returns non-empty intervals in increasing order, each
    one ending strictly before the next one starts (neither overlapping nor
    touching). *)
Theorem mergeIntervals_disjoint :
  forall intervals : list Interval,
    (forall i, In i intervals -> i_s i <> i_e i) ->
    StronglySorted (fun a c => i_e a < i_s c) (mergeIntervals intervals)
    /\ Forall (fun i => i_s i < i_e i) (mergeIntervals intervals).
Proof.
  intros intervals Hne.
  destruct (mergeIntervals_sep intervals Hne) as [b Hsep].
  destruct (SepAfter_strong _ b Hsep) as [Hs Hall].
  split; [exact Hs|].
  rewrite List.Forall_forall in Hall. rewrite List.Forall_forall.
  intros i Hi. destruct (Hall i Hi) as [_ H]. exact H.
Qed.

Lemma mergeIntervals_disjoint_witness :
  StronglySorted (fun a c => i_e a < i_s c)
    (mergeIntervals [fromDateTimes 630 660; fromDateTimes 540 600; fromDateTimes 600 615])
  /\ Forall (fun i => i_s i < i_e i)
       (mergeIntervals [fromDateTimes 630 660; fromDateTimes 540 600; fromDateTimes 600 615]).
Proof.
  apply mergeIntervals_disjoint.
  intros i [<-|[<-|[<-|[]]]]; simpl; lia.
Defined.

Lemma mergeIntervals_loop_covers (t : Z) (rest : list Interval) :
  forall current,
    i_s current <= i_e current ->
    Forall (fun i => i_s i <= i_e i) rest ->
    StronglySorted (fun a b => i_s a <= i_s b) (current :: rest) ->
    existsb (covers t) (mergeIntervals_loop current rest [])
    = covers t current || existsb (covers t) rest.
Proof.
  induction rest as [|next rest IH]; intros current Hv Hall Hsorted.
  - simpl. reflexivity.
  - destruct (sorted_cons_inv _ _ _ _ Hsorted) as (Hcn & Hcur & Hnext).
    inversion Hall as [|? ? Hvn Hall']; subst.
    simpl mergeIntervals_loop.
    destruct (overlaps current next || abutsStart current next) eqn:Hm.
    + rewrite IH.
      * simpl. rewrite orb_assoc. f_equal.
        unfold overlaps, abutsStart in Hm. unfold covers. simpl.
        zbool; simpl in *; try discriminate; lia.
      * simpl. zbool; lia.
      * exact Hall'.
      * apply (sorted_same_key i_s current); [reflexivity | exact Hcur].
    + rewrite mergeIntervals_loop_app. simpl.
      rewrite (IH next Hvn Hall' Hnext). reflexivity.
Qed.

Lemma existsb_covers_valid (t : Z) (l : list Interval) :
  existsb (covers t) (List.filter isValid l) = existsb (covers t) l.
Proof.
  induction l as [|i l IH]; simpl; [reflexivity|].
  unfold isValid at 1. destruct (Z.leb_spec (i_s i) (i_e i)); simpl; rewrite IH.
  - reflexivity.
  - unfold covers. zbool; simpl; try reflexivity; lia.
Qed.

(** X9.  Merging intervals neither loses nor invents covered time: for
    every list of intervals an instant lies in some merged interval exactly
    when it lies in some interval of the input. *)
Theorem mergeIntervals_same_cover :
  forall (intervals : list Interval) (t : Z),
    existsb (covers t) (mergeIntervals intervals) = existsb (covers t) intervals.
Proof.
  intros intervals t.
  rewrite <- (existsb_covers_valid t intervals).
  rewrite <- (existsb_sortBy (fun a b => i_s a <=? i_s b) (covers t)
                (List.filter isValid intervals)).
  unfold mergeIntervals.
  assert (Hvalid : forall i,
             In i (sortBy (fun a b => i_s a <=? i_s b) (List.filter isValid intervals)) ->
             i_s i <= i_e i).
  { intros i Hi. apply sortBy_In in Hi. apply filter_In in Hi.
    destruct Hi as [_ Hv]. apply Z.leb_le. exact Hv. }
  pose proof (sortBy_sorted i_s (List.filter isValid intervals)) as Hsorted.
  destruct intervals as [|i0 l0]; [reflexivity|].
  destruct (sortBy (fun a b => i_s a <=? i_s b) (List.filter isValid (i0 :: l0)))
    as [|first rest]; [reflexivity|].
  apply mergeIntervals_loop_covers.
  - apply Hvalid. left. reflexivity.
  - rewrite List.Forall_forall. intros i Hi. apply Hvalid. right. exact Hi.
  - exact Hsorted.
Qed.

(** ** The availability engine: free and busy time of one request *)

Lemma StronglySorted_filter {A : Type} (R : A -> A -> Prop) (f : A -> bool) (l : list A) :
  StronglySorted R l -> StronglySorted R (List.filter f l).
Proof.
  induction 1 as [|x l Hs IH Hx]; simpl; [constructor|].
  destruct (f x); [|exact IH].
  constructor; [exact IH|]. rewrite List.Forall_forall in Hx.
  rewrite List.Forall_forall. intros y Hy. apply filter_In in Hy. apply Hx, Hy.
Qed.

Lemma StronglySorted_map {A B : Type} (R : B -> B -> Prop) (g : A -> B) (l : list A) :
  StronglySorted (fun a b => R (g a) (g b)) l -> StronglySorted R (List.map g l).
Proof.
  induction 1 as [|x l Hs IH Hx]; simpl; constructor; [exact IH|].
  rewrite List.Forall_forall in Hx. rewrite List.Forall_forall.
  intros y Hy. apply in_map_iff in Hy. destruct Hy as (a & <- & Ha). apply Hx, Ha.
Qed.

Lemma WideApart_of_sorted (l : list Interval) :
  StronglySorted (fun a c => i_e a < i_s c /\ i_s a <= i_s c) l ->
  Forall (fun i => i_s i <= i_e i) l ->
  forall b, Forall (fun i => b < i_s i) l -> WideApart b l.
Proof.
  induction 1 as [|x l Hs IH Hx]; intros Hvalid b Hb; [constructor|].
  inversion Hvalid as [|? ? Hvx Hvl]; subst.
  inversion Hb as [|? ? Hbx Hbl]; subst.
  constructor; [exact Hbx | exact Hvx|].
  apply IH; [exact Hvl|].
  rewrite List.Forall_forall in Hx. rewrite List.Forall_forall.
  intros y Hy. destruct (Hx y Hy) as [H _]. exact H.
Qed.

Lemma WideApart_sorted (l : list Interval) :
  forall b, WideApart b l ->
    StronglySorted (fun a c => i_s a <= i_s c) l
    /\ Forall (fun i => b < i_s i) l
    /\ List.filter isValid l = l.
Proof.
  induction l as [|i l IH]; intros b Hsep.
  - repeat split; constructor.
  - inversion Hsep as [|? ? ? Hb Hne Hsep']; subst.
    destruct (IH (i_e i) Hsep') as (Hs & Hall & Hf).
    rewrite List.Forall_forall in Hall.
    split; [|split].
    + constructor; [exact Hs|]. rewrite List.Forall_forall.
      intros c Hc. specialize (Hall c Hc). simpl in Hall. lia.
    + constructor; [exact Hb|]. rewrite List.Forall_forall.
      intros c Hc. specialize (Hall c Hc). simpl in Hall. lia.
    + simpl. unfold isValid at 1.
      destruct (Z.leb_spec (i_s i) (i_e i)); [|lia]. rewrite Hf. reflexivity.
Qed.

Lemma mergeIntervals_loop_wide_id (rest : list Interval) :
  forall current,
    WideApart (i_e current) rest ->
    mergeIntervals_loop current rest [] = current :: rest.
Proof.
  induction rest as [|next rest IH]; intros current Hsep; simpl; [reflexivity|].
  inversion Hsep as [|? ? ? Hb Hne Hsep']; subst.
  unfold overlaps, abutsStart.
  destruct (Z.gtb_spec (i_e current) (i_s next)); [lia|].
  destruct (Z.eqb_spec (i_e current) (i_s next)); [lia|].
  simpl. rewrite mergeIntervals_loop_app, IH by exact Hsep'. reflexivity.
Qed.

Lemma mergeIntervals_wide_id (l : list Interval) (b : Z) :
  WideApart b l -> mergeIntervals l = l.
Proof.
  intros Hsep. destruct (WideApart_sorted l b Hsep) as (Hs & _ & Hf).
  unfold mergeIntervals. destruct l as [|i l]; [reflexivity|].
  rewrite Hf, (sortBy_sorted_id i_s _ Hs).
  inversion Hsep; subst. apply mergeIntervals_loop_wide_id. assumption.
Qed.

Lemma filter_isValid_twice (l : list Interval) :
  List.filter isValid (List.filter isValid l) = List.filter isValid l.
Proof.
  induction l as [|i l IH]; simpl; [reflexivity|].
  destruct (isValid i) eqn:Hv; simpl; [rewrite Hv, IH; reflexivity | exact IH].
Qed.

Lemma mergeIntervals_valid_only (l : list Interval) :
  mergeIntervals l = mergeIntervals (List.filter isValid l).
Proof.
  unfold mergeIntervals. rewrite filter_isValid_twice.
  destruct l as [|i l]; [reflexivity|].
  destruct (List.filter isValid (i :: l)) as [|j l'] eqn:Hf; reflexivity.
Qed.

Lemma clip_beyond_range_wide (rs re t : Z) (l : list Interval) :
  forall b, WideApart b l -> re - 1 <= b ->
  coverCount t (List.map (clip rs re) l) = 0%nat.
Proof.
  induction l as [|i l IH]; intros b Hsep Hb; simpl.
  - reflexivity.
  - inversion Hsep; subst. rewrite coverCount_cons.
    rewrite (IH (i_e i)) by (assumption || lia).
    unfold covers, clip; simpl. zbool; simpl; lia.
Qed.

Lemma findGaps_loop_count_wide (rs re t : Z) (merged : list Interval) :
  rs < re ->
  forall b cursor gaps,
    WideApart b merged ->
    rs <= cursor <= re ->
    cursor <= Z.max b rs ->
    (coverCount t (snd (findGaps_loop rs re merged cursor gaps))
     + indicator (inRange (fst (findGaps_loop rs re merged cursor gaps)) re t)
     + coverCount t (List.map (clip rs re) merged)
     = coverCount t gaps + indicator (inRange cursor re t))%nat
    /\ fst (findGaps_loop rs re merged cursor gaps) <= re.
Proof.
  intros Hr.
  induction merged as [|i rest IH]; intros b cursor gaps Hsep Hc Hb; simpl.
  - split; [unfold coverCount; simpl; lia | lia].
  - inversion Hsep as [|? ? ? Hbi Hne Hsep']; subst.
    rewrite coverCount_cons.
    unfold isValid. destruct (Z.leb_spec (i_s i) (i_e i)); [simpl | lia].
    destruct (Z.leb_spec (i_e i) rs).
    + destruct (IH (i_e i) cursor gaps Hsep' Hc ltac:(lia)) as [IH1 IH2].
      split; [|exact IH2]. rewrite <- IH1.
      unfold covers, clip; simpl. zbool; simpl; lia.
    + destruct (Z.geb_spec (i_s i) re).
      * simpl. split; [|lia].
        rewrite (clip_beyond_range_wide rs re t rest (i_e i)) by (assumption || lia).
        unfold covers, clip; simpl. zbool; simpl; lia.
      * set (effectiveStart := if i_s i >? rs then i_s i else rs).
        set (effectiveEnd := if i_e i <? re then i_e i else re).
        assert (HeS : effectiveStart = Z.max (i_s i) rs)
          by (unfold effectiveStart; zbool; lia).
        assert (HeE : effectiveEnd = Z.min (i_e i) re)
          by (unfold effectiveEnd; zbool; lia).
        destruct (IH (i_e i) effectiveEnd
                    (if cursor <? effectiveStart
                     then gaps ++ [fromDateTimes cursor effectiveStart] else gaps)
                    Hsep' ltac:(lia) ltac:(lia)) as [IH1 IH2].
        split; [|exact IH2].
        assert (Hgaps :
          (coverCount t (if (cursor <? effectiveStart)%Z
                         then gaps ++ [fromDateTimes cursor effectiveStart] else gaps)
           = coverCount t gaps
             + indicator ((cursor <=? t)%Z && (t <? effectiveStart)%Z))%nat).
        { destruct (Z.ltb_spec cursor effectiveStart).
          - rewrite coverCount_app. unfold coverCount at 2. simpl.
            unfold covers; simpl.
            destruct ((cursor <=? t) && (t <? effectiveStart)); reflexivity.
          - zbool; simpl; lia. }
        rewrite Hgaps in IH1.
        assert (Hsplit :
          (indicator ((cursor <=? t)%Z && (t <? effectiveStart)%Z)
           + indicator (covers t (clip rs re i))
           + indicator (inRange effectiveEnd re t)
           = indicator (inRange cursor re t))%nat).
        { unfold covers, clip, inRange; simpl. rewrite HeS, HeE.
          zbool; simpl; lia. }
        lia.
Qed.

Lemma findGaps_count_wide (rs re t b : Z) (l : list Interval) :
  rs < re -> WideApart b l ->
  (coverCount t (findGaps l rs re) + coverCount t (List.map (clip rs re) l)
   = indicator (inRange rs re t))%nat.
Proof.
  intros Hr Hsep. unfold findGaps. rewrite (mergeIntervals_wide_id l b Hsep).
  destruct (findGaps_loop_count_wide rs re t l Hr b rs [] Hsep ltac:(lia) ltac:(lia))
    as [Hcount Hle].
  destruct (findGaps_loop rs re l rs []) as [cursor gaps].
  simpl in Hcount, Hle.
  replace (coverCount t []) with 0%nat in Hcount by reflexivity.
  rewrite <- Hcount.
  destruct (Z.ltb_spec cursor re).
  - rewrite coverCount_app. unfold coverCount at 2. simpl.
    unfold covers, inRange; simpl.
    destruct ((cursor <=? t) && (t <? re)); simpl; lia.
  - unfold inRange. zbool; simpl; lia.
Qed.

Lemma busyIntervals_wide (slots : list BusySlot) :
  exists b,
    WideApart b
      (List.filter isValid
         (List.map (fun slot => createInterval (bs_start slot) (bs_end slot))
            (mergeBusySlots slots))).
Proof.
  pose proof (mergeBusySlots_sorted_apart slots) as Hapart.
  set (busy := List.map (fun slot => createInterval (bs_start slot) (bs_end slot))
                 (mergeBusySlots slots)).
  assert (Hs : StronglySorted (fun a c => i_e a < i_s c /\ i_s a <= i_s c)
                 (List.filter isValid busy)).
  { apply StronglySorted_filter. unfold busy. apply StronglySorted_map. exact Hapart. }
  assert (Hv : Forall (fun i => i_s i <= i_e i) (List.filter isValid busy)).
  { rewrite List.Forall_forall. intros i Hi. apply filter_In in Hi.
    apply Z.leb_le. apply Hi. }
  destruct (List.filter isValid busy) as [|i l] eqn:Hf.
  - exists 0. constructor.
  - exists (i_s i - 1). apply WideApart_of_sorted; [exact Hs | exact Hv|].
    inversion Hs as [|? ? _ Hi]; subst.
    constructor; [lia|]. rewrite List.Forall_forall in Hi.
    rewrite List.Forall_forall. intros y Hy. destruct (Hi y Hy). lia.
Qed.

Lemma coverCount_valid (t : Z) (l : list Interval) :
  coverCount t (List.filter isValid l) = coverCount t l.
Proof.
  unfold coverCount. induction l as [|i l IH]; simpl; [reflexivity|].
  unfold isValid at 1. destruct (Z.leb_spec (i_s i) (i_e i)); simpl.
  - destruct (covers t i); simpl; rewrite IH; reflexivity.
  - replace (covers t i) with false; [exact IH|].
    unfold covers. zbool; simpl; try reflexivity; lia.
Qed.

Lemma freeSlots_count (t : Z) (gaps : list Interval) :
  List.length
    (List.filter (freeCovers t)
       (List.map (fun gap => mkFreeSlot (i_s gap) (i_e gap) (roundMinutes (i_e gap - i_s gap)))
          gaps))
  = coverCount t gaps.
Proof.
  unfold coverCount. induction gaps as [|g l IH]; simpl; [reflexivity|].
  unfold freeCovers at 1, covers at 1. simpl.
  destruct ((i_s g <=? t) && (t <? i_e g)); simpl; rewrite IH; reflexivity.
Qed.

Lemma busySlots_count (rs re t : Z) (slots : list BusySlot) :
  coverCount t
    (List.map (clip rs re)
       (List.map (fun slot => createInterval (bs_start slot) (bs_end slot)) slots))
  = if inRange rs re t then List.length (List.filter (slotCovers t) slots) else 0%nat.
Proof.
  induction slots as [|s l IH].
  - simpl. destruct (inRange rs re t); reflexivity.
  - cbn [List.map List.filter]. rewrite coverCount_cons, IH.
    unfold covers, clip, slotCovers, inRange, createInterval. simpl.
    zbool; simpl; try reflexivity; lia.
Qed.

(** X10.  Within one request free and busy time are complementary, whatever
    busy slots the providers return: for a range with
    [rangeStart < rangeEnd], every instant of the range lies in exactly one
    slot among the free slots that [computeFreeSlots] derives from the
    merged busy slots and those merged busy slots, and no free slot holds an
    instant outside the range. *)
Theorem computeFreeSlots_complement :
  forall (slots : list BusySlot) (rangeStart rangeEnd t : Z),
    rangeStart < rangeEnd ->
    let busy := mergeBusySlots slots in
    let free := computeFreeSlots busy rangeStart rangeEnd in
    (rangeStart <= t < rangeEnd ->
     (List.length (List.filter (freeCovers t) free)
      + List.length (List.filter (slotCovers t) busy) = 1)%nat)
    /\ (~ rangeStart <= t < rangeEnd ->
        List.length (List.filter (freeCovers t) free) = 0%nat).
Proof.
  intros slots rs re t Hr busy free.
  destruct (busyIntervals_wide slots) as [b Hwide].
  fold busy in Hwide.
  set (intervals := List.map (fun slot => createInterval (bs_start slot) (bs_end slot)) busy)
    in *.
  pose proof (findGaps_count_wide rs re t b _ Hr Hwide) as Hcount.
  assert (Hgaps : findGaps (List.filter isValid intervals) rs re = findGaps intervals rs re).
  { unfold findGaps. rewrite <- mergeIntervals_valid_only. reflexivity. }
  rewrite Hgaps in Hcount.
  assert (Hclip : coverCount t (List.map (clip rs re) (List.filter isValid intervals))
                  = coverCount t (List.map (clip rs re) intervals)).
  { clear. unfold coverCount. induction intervals as [|i l IH]; simpl; [reflexivity|].
    unfold isValid at 1. destruct (Z.leb_spec (i_s i) (i_e i)); simpl.
    - destruct (covers t (clip rs re i)); simpl; rewrite IH; reflexivity.
    - replace (covers t (clip rs re i)) with false; [exact IH|].
      unfold covers, clip. simpl. zbool; simpl; try reflexivity; lia. }
  rewrite Hclip in Hcount. unfold intervals in Hcount.
  rewrite busySlots_count in Hcount.
  assert (Hfree : List.length (List.filter (freeCovers t) free)
                  = coverCount t (findGaps intervals rs re)).
  { unfold free, computeFreeSlots. fold intervals.
    rewrite freeSlots_count. apply coverCount_valid. }
  rewrite Hfree. unfold intervals. unfold inRange in Hcount.
  split; intros Ht.
  - destruct (Z.leb_spec rs t); destruct (Z.ltb_spec t re); simpl in Hcount; lia.
  - destruct (Z.leb_spec rs t); destruct (Z.ltb_spec t re); simpl in Hcount; lia.
Qed.

Lemma computeFreeSlots_complement_witness :
  (List.length
     (List.filter (freeCovers 615)
        (computeFreeSlots
           (mergeBusySlots [mkBusySlot 540 600 status_busy None None;
                            mkBusySlot 580 580 status_oof None None])
           540 1020))
   + List.length
       (List.filter (slotCovers 615)
          (mergeBusySlots [mkBusySlot 540 600 status_busy None None;
                           mkBusySlot 580 580 status_oof None None])) = 1)%nat.
Proof.
  apply (computeFreeSlots_complement
           [mkBusySlot 540 600 status_busy None None;
            mkBusySlot 580 580 status_oof None None] 540 1020 615); lia.
Defined.

(** ** Working-hours filter *)

Section WorkingWindows.

Variable defaults : WorkingHours.
Variable workingHours : option WorkingHours.

Lemma filterToWorkingHours_days_In (slot : FreeSlot) (w : FreeSlot) :
  forall days j result,
    In w (filterToWorkingHours_days defaults workingHours (fs_start slot) (fs_end slot)
            days (startOfDay (fs_start slot) + Z.of_nat j * msPerDay) result)
    <-> In w result
        \/ exists k, (j <= k < j + days)%nat /\ windowOf defaults workingHours slot k = Some w.
Proof.
  induction days as [|days IH]; intros j result; simpl.
  - split; [auto|]. intros [H|(k & Hk & _)]; [exact H | lia].
  - set (cursor := startOfDay (fs_start slot) + Z.of_nat j * msPerDay).
    assert (Hnext : cursor + msPerDay
                    = startOfDay (fs_start slot) + Z.of_nat (S j) * msPerDay)
      by (unfold cursor; lia).
    destruct (Z.ltb_spec cursor (fs_end slot)) as [Hlt|Hge].
    + rewrite Hnext, IH.
      assert (Hhere : forall r,
        In w (match getWorkingHoursForDay defaults cursor workingHours with
              | Some (workStart, workEnd) =>
                  if (if fs_start slot >? workStart then fs_start slot else workStart)
                     <? (if fs_end slot <? workEnd then fs_end slot else workEnd)
                  then r ++ [mkFreeSlot
                               (if fs_start slot >? workStart then fs_start slot else workStart)
                               (if fs_end slot <? workEnd then fs_end slot else workEnd)
                               (roundMinutes
                                  ((if fs_end slot <? workEnd then fs_end slot else workEnd)
                                   - (if fs_start slot >? workStart
                                      then fs_start slot else workStart)))]
                  else r
              | None => r
              end)
        <-> In w r \/ windowOf defaults workingHours slot j = Some w).
      { intros r. unfold windowOf. fold cursor.
        destruct (Z.ltb_spec cursor (fs_end slot)); [|lia].
        destruct (getWorkingHoursForDay defaults cursor workingHours) as [[ws we]|].
        - replace (if fs_start slot >? ws then fs_start slot else ws)
            with (Z.max (fs_start slot) ws) by (zbool; lia).
          replace (if fs_end slot <? we then fs_end slot else we)
            with (Z.min (fs_end slot) we) by (zbool; lia).
          destruct (Z.max (fs_start slot) ws <? Z.min (fs_end slot) we).
          + rewrite in_app_iff. simpl. split.
            * intros [Hw|[Hw|Hw]];
                [left; exact Hw | right; f_equal; exact Hw | destruct Hw].
            * intros [Hw|Hw]; [left; exact Hw | right; left; congruence].
          + split; [auto | intros [Hw|Hw]; [exact Hw | discriminate]].
        - split; [auto | intros [Hw|Hw]; [exact Hw | discriminate]]. }
      rewrite Hhere. split.
      * intros [[H|H]|(k & Hk & H)].
        -- left; exact H.
        -- right; exists j; split; [lia | exact H].
        -- right; exists k; split; [lia | exact H].
      * intros [H|(k & Hk & H)]; [left; left; exact H|].
        destruct (Nat.eq_dec k j) as [->|Hne].
        -- left; right; exact H.
        -- right; exists k; split; [lia | exact H].
    + split; [auto|]. intros [H|(k & Hk & H)]; [exact H|].
      unfold windowOf in H.
      destruct (Z.ltb_spec (startOfDay (fs_start slot) + Z.of_nat k * msPerDay)
                  (fs_end slot)) as [Hk'|]; [|discriminate].
      unfold cursor, msPerDay in *. lia.
Qed.

Lemma windowOf_day_bound (slot w : FreeSlot) (k : nat) :
  windowOf defaults workingHours slot k = Some w ->
  (k < Z.to_nat ((fs_end slot - startOfDay (fs_start slot)) / msPerDay + 1))%nat.
Proof.
  unfold windowOf. intros H.
  destruct (Z.ltb_spec (startOfDay (fs_start slot) + Z.of_nat k * msPerDay)
              (fs_end slot)) as [Hk|]; [|discriminate].
  assert (Z.of_nat k <= (fs_end slot - startOfDay (fs_start slot)) / msPerDay).
  { apply Z.div_le_lower_bound; unfold msPerDay in *; lia. }
  lia.
Qed.

Lemma filterToWorkingHours_fold_In (w : FreeSlot) (freeSlots : list FreeSlot) :
  forall result,
    In w (fold_left
            (fun result slot =>
               let slotStart := fs_start slot in
               let slotEnd := fs_end slot in
               let cursor := startOfDay slotStart in
               filterToWorkingHours_days defaults workingHours slotStart slotEnd
                 (Z.to_nat ((slotEnd - cursor) / msPerDay + 1)) cursor result)
            freeSlots result)
    <-> In w result
        \/ exists slot k, In slot freeSlots /\ windowOf defaults workingHours slot k = Some w.
Proof.
  induction freeSlots as [|slot rest IH]; intros result; simpl.
  - split; [auto | intros [H|(? & ? & [] & _)]; exact H].
  - rewrite IH.
    replace (startOfDay (fs_start slot))
      with (startOfDay (fs_start slot) + Z.of_nat 0 * msPerDay) at 2 by (simpl; lia).
    rewrite filterToWorkingHours_days_In. split.
    + intros [[H|(k & _ & H)]|(s & k & Hs & H)].
      * left; exact H.
      * right; exists slot, k; auto.
      * right; exists s, k; auto.
    + intros [H|(s & k & [Heq|Hs] & H)].
      * left; left; exact H.
      * subst s. left; right; exists k. split; [|exact H].
        pose proof (windowOf_day_bound slot w k H). lia.
      * right; exists s, k; auto.
Qed.

End WorkingWindows.

(** X11.  [filterToWorkingHours] returns exactly the non-empty
    intersections of the free slots with the working windows of the
    calendar days each slot touches, from the day it starts on: a slot is
    in the result if and only if it is the part of some given free slot
    that lies in the working window of one of those days.  The range
    arguments play no part, and the day count of the loop never cuts a
    window off. *)
Theorem filterToWorkingHours_windows :
  forall (defaults : WorkingHours) (freeSlots : list FreeSlot) (rangeStart rangeEnd : Z)
         (workingHours : option WorkingHours) (w : FreeSlot),
    In w (filterToWorkingHours defaults freeSlots rangeStart rangeEnd workingHours)
    <-> exists slot k, In slot freeSlots /\ windowOf defaults workingHours slot k = Some w.
Proof.
  intros defaults freeSlots rs re wh w. unfold filterToWorkingHours.
  rewrite filterToWorkingHours_fold_In. split.
  - intros [[]|H]; exact H.
  - intros H; right; exact H.
Qed.

Lemma windowOf_inside (defaults : WorkingHours) (workingHours : option WorkingHours)
  (slot w : FreeSlot) (k : nat) :
  windowOf defaults workingHours slot k = Some w ->
  fs_start slot <= fs_start w /\ fs_start w < fs_end w /\ fs_end w <= fs_end slot
  /\ rounded w.
Proof.
  unfold windowOf. intros H.
  destruct (_ <? fs_end slot); [|discriminate].
  destruct (getWorkingHoursForDay _ _ _) as [[ws we]|]; [|discriminate].
  destruct (Z.ltb_spec (Z.max (fs_start slot) ws) (Z.min (fs_end slot) we));
    [|discriminate].
  injection H as <-. unfold rounded. simpl. repeat split; lia.
Qed.

(** ** Suggested slots and the free time they come from *)

Lemma computeFreeSlots_rounded (busySlots : list BusySlot) (rangeStart rangeEnd : Z) :
  Forall rounded (computeFreeSlots busySlots rangeStart rangeEnd).
Proof.
  unfold computeFreeSlots. rewrite List.Forall_forall. intros w Hw.
  apply in_map_iff in Hw. destruct Hw as (gap & <- & _). reflexivity.
Qed.

Lemma filterToWorkingHours_rounded (defaults : WorkingHours) (freeSlots : list FreeSlot)
  (rangeStart rangeEnd : Z) (workingHours : option WorkingHours) :
  Forall rounded (filterToWorkingHours defaults freeSlots rangeStart rangeEnd workingHours).
Proof.
  rewrite List.Forall_forall. intros w Hw.
  unfold filterToWorkingHours in Hw. apply filterToWorkingHours_fold_In in Hw.
  destruct Hw as [[]|(slot & k & _ & Hw)].
  apply (windowOf_inside _ _ _ _ _ Hw).
Qed.

Lemma suggestion_fits (freeSlots : list FreeSlot) (d : Z) (s : FreeSlot) :
  Forall rounded freeSlots ->
  In s (findSuggestedSlots freeSlots d) ->
  exists slot,
    In slot freeSlots
    /\ fs_start s = fs_start slot
    /\ fs_end s = fs_start s + d * msPerMinute
    /\ fs_end s <= fs_end slot + 30000
    /\ ((fs_end slot - fs_start slot) mod msPerMinute < 30000 -> fs_end s <= fs_end slot).
Proof.
  intros Hr Hs.
  unfold findSuggestedSlots in Hs.
  rewrite (findSuggestedSlots_loop_spec d 5 freeSlots []) in Hs by (simpl; lia).
  simpl in Hs. apply In_firstn in Hs. apply in_map_iff in Hs.
  destruct Hs as (slot & <- & Hslot). apply filter_In in Hslot.
  destruct Hslot as [Hin Hd].
  rewrite List.Forall_forall in Hr. specialize (Hr slot Hin).
  unfold rounded, roundMinutes in Hr. rewrite Hr in Hd.
  apply Z.geb_le in Hd.
  exists slot. unfold truncateTo. simpl.
  set (ms := fs_end slot - fs_start slot) in *.
  pose proof (Z.div_mod (ms + 30000) msPerMinute ltac:(unfold msPerMinute; lia)) as Hdm.
  pose proof (Z.mod_pos_bound (ms + 30000) msPerMinute ltac:(unfold msPerMinute; lia)) as Hb.
  repeat split; try assumption.
  - unfold msPerMinute in *. lia.
  - intros Hsmall.
    pose proof (Z.div_mod ms msPerMinute ltac:(unfold msPerMinute; lia)) as Hdm'.
    pose proof (Z.mod_pos_bound ms msPerMinute ltac:(unfold msPerMinute; lia)) as Hb'.
    assert (Hq : (ms + 30000) / msPerMinute = ms / msPerMinute).
    { symmetry. apply (Z.div_unique (ms + 30000) msPerMinute (ms / msPerMinute)
                         (ms mod msPerMinute + 30000)).
      - left. unfold msPerMinute in *. lia.
      - lia. }
    rewrite Hq in Hd. unfold msPerMinute in *. lia.
Qed.

(** ** The free/busy response *)

Lemma getAggregatedFreeBusy_resolved (defaults : WorkingHours)
  (registry : ProviderRegistry) (params : FreeBusyParams) :
  let providers := filterProviders (fbp_providers params) (getConnected registry) in
  providers <> [] ->
  exists calendars,
    fold_left collectFreeBusy
      (combine (List.map (fun p => getFreeBusy p params) providers) providers) (∅, [], [])
    = (calendars, failedFreeBusy params providers, succeededBusy params providers)
    /\ let mergedBusy := mergeBusySlots (succeededBusy params providers) in
       let freeSlots :=
         computeFreeSlots mergedBusy (fbp_startTime params) (fbp_endTime params) in
       let freeSlots :=
         match fbp_workingHoursOnly params with
         | Some true =>
             filterToWorkingHours defaults freeSlots (fbp_startTime params)
               (fbp_endTime params) (fbp_workingHours params)
         | _ => freeSlots
         end in
       getAggregatedFreeBusy defaults registry params
       = Resolved
           (mkFreeBusyResponse calendars mergedBusy freeSlots
              (match fbp_slotDuration params with
               | Some d => if d >? 0 then Some (findSuggestedSlots freeSlots d) else None
               | None => None
               end)
              (match failedFreeBusy params providers with
               | [] => None
               | errors => Some errors
               end)).
Proof.
  intros providers Hne. unfold getAggregatedFreeBusy. fold providers.
  destruct providers as [|p ps] eqn:Hp; [contradiction|].
  unfold allSettled, await.
  destruct (collectFreeBusy_fold params (p :: ps) ∅ [] []) as (calendars & Hfold).
  rewrite !app_nil_l in Hfold. rewrite Hfold.
  exists calendars. split; [reflexivity|].
  cbv zeta. f_equal. f_equal.
  destruct (failedFreeBusy params (p :: ps)); reflexivity.
Qed.

(** X12.  A suggested slot of a free/busy response starts where one of the
    free slots of the same response starts and lasts the requested number
    of minutes, and it can overrun that free slot by no more than half a
    minute; when the free slot's length leaves less than half a minute over
    whole minutes, it lies inside the free slot.  (A slot is offered when the
    free slot's length rounds to at least the requested minutes.) *)
Theorem getAggregatedFreeBusy_suggestions_fit :
  forall (defaults : WorkingHours) (registry : ProviderRegistry) (params : FreeBusyParams)
         (response : FreeBusyResponse) (suggestedSlots : list FreeSlot) (s : FreeSlot),
    getAggregatedFreeBusy defaults registry params = Resolved response ->
    fbr_suggestedSlots response = Some suggestedSlots ->
    In s suggestedSlots ->
    exists d slot,
      fbp_slotDuration params = Some d /\ 0 < d
      /\ In slot (fbr_unified_free response)
      /\ fs_start s = fs_start slot
      /\ fs_end s = fs_start s + d * msPerMinute
      /\ fs_end s <= fs_end slot + 30000
      /\ ((fs_end slot - fs_start slot) mod msPerMinute < 30000 -> fs_end s <= fs_end slot).
Proof.
  intros defaults registry params response suggestedSlots s Hres Hsug Hs.
  destruct (filterProviders (fbp_providers params) (getConnected registry))
    as [|p ps] eqn:Hp.
  - unfold getAggregatedFreeBusy in Hres. rewrite Hp in Hres.
    injection Hres as <-. discriminate.
  - destruct (getAggregatedFreeBusy_resolved defaults registry params) as (cal & _ & Heq).
    { rewrite Hp. discriminate. }
    cbv zeta in Heq. rewrite Heq in Hres. injection Hres as <-.
    cbn [fbr_suggestedSlots fbr_unified_free] in *.
    destruct (fbp_slotDuration params) as [d|]; [|discriminate].
    destruct (Z.gtb_spec d 0) as [Hd|]; [|discriminate].
    injection Hsug as <-.
    set (free := match fbp_workingHoursOnly params with
                 | Some true => _ | _ => _ end) in *.
    assert (Hr : Forall rounded free).
    { unfold free. destruct (fbp_workingHoursOnly params) as [[|]|];
        first [apply filterToWorkingHours_rounded | apply computeFreeSlots_rounded]. }
    destruct (suggestion_fits free d s Hr Hs) as (slot & H1 & H2 & H3 & H4 & H5).
    exists d, slot. repeat split; assumption.
Qed.

Lemma getAggregatedFreeBusy_suggestions_fit_witness :
  exists d slot,
    Some 30 = Some d /\ 0 < d
    /\ In slot [mkFreeSlot 0 1799999 30]
    /\ 0 = fs_start slot
    /\ 1800000 = 0 + d * msPerMinute
    /\ 1800000 <= fs_end slot + 30000
    /\ ((fs_end slot - fs_start slot) mod msPerMinute < 30000 -> 1800000 <= fs_end slot).
Proof.
  apply (getAggregatedFreeBusy_suggestions_fit
           (mkWorkingHours (9, 0) (17, 0) [])
           [mkProvider "g1" google true (fun _ => Resolved [])
              (fun _ => Resolved (mkCalendarFreeBusy google "primary" "Main"
                                    [mkBusySlot 1799999 3600000 status_busy None None]))]
           (mkFreeBusyParams 0 3600000 None None (Some 30) None None)
           (mkFreeBusyResponse
              (<["primary"%string :=
                   mkCalendarFreeBusy google "primary" "Main"
                     [mkBusySlot 1799999 3600000 status_busy None None]]> ∅)
              [mkBusySlot 1799999 3600000 status_busy None None]
              [mkFreeSlot 0 1799999 30]
              (Some [mkFreeSlot 0 1800000 30]) None)
           [mkFreeSlot 0 1800000 30] (mkFreeSlot 0 1800000 30)).
  - reflexivity.
  - reflexivity.
  - left. reflexivity.
Defined.

Lemma computeFreeSlots_no_busy (rangeStart rangeEnd : Z) :
  computeFreeSlots [] rangeStart rangeEnd
  = if rangeStart <? rangeEnd
    then [mkFreeSlot rangeStart rangeEnd (roundMinutes (rangeEnd - rangeStart))]
    else [].
Proof.
  unfold computeFreeSlots, findGaps. simpl.
  destruct (Z.ltb_spec rangeStart rangeEnd); simpl; [|reflexivity].
  unfold isValid. simpl. destruct (Z.leb_spec rangeStart rangeEnd); [reflexivity | lia].
Qed.

Lemma all_rejected_fold (params : FreeBusyParams) (providers : list ICalendarProvider) :
  (forall p, In p providers -> exists reason, getFreeBusy p params = Rejected reason) ->
  forall calendars errors allBusySlots,
    fold_left collectFreeBusy
      (combine (List.map (fun p => getFreeBusy p params) providers) providers)
      (calendars, errors, allBusySlots)
    = (calendars,
       errors ++ List.map (fun p => mkFreeBusyError (providerType p) (providerId p)
                                      (match getFreeBusy p params with
                                       | Rejected reason => reasonMessage reason
                                       | Resolved _ => EmptyString
                                       end)) providers,
       allBusySlots).
Proof.
  induction providers as [|p ps IH]; intros Hall calendars errors allBusySlots; simpl.
  - rewrite app_nil_r. reflexivity.
  - destruct (Hall p (or_introl eq_refl)) as (reason & Hr). rewrite Hr. simpl.
    rewrite IH by (intros q Hq; apply Hall; right; exact Hq).
    rewrite <- app_assoc. reflexivity.
Qed.

(** X13.  When every selected provider fails, [getAggregatedFreeBusy] still
    answers, and the answer reports no busy time at all: with a range
    [startTime < endTime] and the working-hours filter off, the whole range
    is returned as one free slot, next to an empty calendar map and one
    error per provider. *)
Theorem getAggregatedFreeBusy_all_failed :
  forall (defaults : WorkingHours) (registry : ProviderRegistry) (params : FreeBusyParams),
    let providers := filterProviders (fbp_providers params) (getConnected registry) in
    providers <> [] ->
    (forall p, In p providers -> exists reason, getFreeBusy p params = Rejected reason) ->
    fbp_startTime params < fbp_endTime params ->
    fbp_workingHoursOnly params <> Some true ->
    exists response,
      getAggregatedFreeBusy defaults registry params = Resolved response
      /\ fbr_calendars response = ∅
      /\ fbr_unified_busy response = []
      /\ fbr_unified_free response
         = [mkFreeSlot (fbp_startTime params) (fbp_endTime params)
              (roundMinutes (fbp_endTime params - fbp_startTime params))]
      /\ (exists errors, fbr_errors response = Some errors
            /\ List.length errors = List.length providers).
Proof.
  intros defaults registry params providers Hne Hall Hrange Hwh.
  unfold getAggregatedFreeBusy. fold providers.
  destruct providers as [|p ps] eqn:Hp; [contradiction|].
  unfold allSettled, await.
  rewrite (all_rejected_fold params (p :: ps) Hall). rewrite app_nil_l.
  eexists. split; [reflexivity|].
  cbn [fbr_calendars fbr_unified_busy fbr_unified_free fbr_errors].
  split; [reflexivity|]. split; [reflexivity|]. split.
  - change (mergeBusySlots []) with (@nil BusySlot).
    rewrite computeFreeSlots_no_busy.
    destruct (Z.ltb_spec (fbp_startTime params) (fbp_endTime params)); [|lia].
    destruct (fbp_workingHoursOnly params) as [[|]|]; [contradiction Hwh| |]; reflexivity.
  - eexists. split; [reflexivity|]. rewrite List.length_map. reflexivity.
Qed.

Lemma getAggregatedFreeBusy_all_failed_witness :
  exists response,
    getAggregatedFreeBusy (mkWorkingHours (9, 0) (17, 0) [])
      [mkProvider "g1" google true (fun _ => Resolved [])
         (fun _ => Rejected (OtherError "timeout"))]
      (mkFreeBusyParams 0 3600000 None None None None None)
    = Resolved response
    /\ fbr_calendars response = ∅
    /\ fbr_unified_busy response = []
    /\ fbr_unified_free response = [mkFreeSlot 0 3600000 (roundMinutes (3600000 - 0))]
    /\ (exists errors, fbr_errors response = Some errors
          /\ List.length errors = 1%nat).
Proof.
  apply (getAggregatedFreeBusy_all_failed
           (mkWorkingHours (9, 0) (17, 0) [])
           [mkProvider "g1" google true (fun _ => Resolved [])
              (fun _ => Rejected (OtherError "timeout"))]
           (mkFreeBusyParams 0 3600000 None None None None None)).
  - discriminate.
  - intros p [<-|[]]. exists (OtherError "timeout"). reflexivity.
  - simpl. lia.
  - discriminate.
Defined.

Lemma calendars_fold (params : FreeBusyParams) (providers : list ICalendarProvider) :
  forall calendars errors allBusySlots,
    fst (fst (fold_left collectFreeBusy
                (combine (List.map (fun p => getFreeBusy p params) providers) providers)
                (calendars, errors, allBusySlots)))
    = fold_left (fun m fb => setProperty m (cfb_calendarId fb) fb)
        (succeededFreeBusy params providers) calendars.
Proof.
  induction providers as [|p ps IH]; intros calendars errors allBusySlots; simpl.
  - reflexivity.
  - destruct (getFreeBusy p params) as [freeBusy|reason]; simpl; apply IH.
Qed.

Lemma lookup_fold_insert (id : string) (answers : list CalendarFreeBusy) :
  forall calendars : gmap string CalendarFreeBusy,
    id <> "__proto__"%string ->
    fold_left (fun m fb => setProperty m (cfb_calendarId fb) fb) answers calendars !! id
    = match lastAnswerFor id answers with
      | Some fb => Some fb
      | None => calendars !! id
      end.
Proof.
  unfold lastAnswerFor.
  induction answers as [|fb rest IH] using rev_ind; intros calendars Hid.
  - reflexivity.
  - rewrite fold_left_app, rev_app_distr. simpl. unfold setProperty at 1.
    destruct (String.eqb_spec (cfb_calendarId fb) id) as [Heq|Hne].
    + destruct (String.eqb_spec (cfb_calendarId fb) "__proto__"); [congruence|].
      rewrite Heq. apply lookup_insert_eq.
    + destruct (String.eqb_spec (cfb_calendarId fb) "__proto__").
      * apply IH. exact Hid.
      * rewrite lookup_insert_ne by exact Hne. apply IH. exact Hid.
Qed.

Lemma lookup_fold_proto (answers : list CalendarFreeBusy) :
  forall calendars : gmap string CalendarFreeBusy,
    fold_left (fun m fb => setProperty m (cfb_calendarId fb) fb) answers calendars
      !! "__proto__"%string
    = calendars !! "__proto__"%string.
Proof.
  induction answers as [|fb rest IH]; intros calendars; simpl; [reflexivity|].
  rewrite IH. unfold setProperty.
  destruct (String.eqb_spec (cfb_calendarId fb) "__proto__") as [Heq|Hne];
    [reflexivity|].
  apply lookup_insert_ne. exact Hne.
Qed.

(** X14.  The [calendars] object of a free/busy response is keyed by the
    calendar id the provider reports: an id other than ['__proto__'] is
    present exactly when some successful provider reported it, and when
    several did, the object holds the answer of the last one in provider
    order only; an answer whose calendar id is ['__proto__'] leaves no
    entry.  The busy slots of all the answers, those two kinds included,
    still enter the unified busy list. *)
Theorem getAggregatedFreeBusy_calendars_last_wins :
  forall (defaults : WorkingHours) (registry : ProviderRegistry) (params : FreeBusyParams),
    let providers := filterProviders (fbp_providers params) (getConnected registry) in
    exists response,
      getAggregatedFreeBusy defaults registry params = Resolved response
      /\ (forall id,
            fbr_calendars response !! id
            = if String.eqb id "__proto__" then None
              else lastAnswerFor id (succeededFreeBusy params providers))
      /\ fbr_unified_busy response
         = mergeBusySlots (flat_map cfb_busy (succeededFreeBusy params providers)).
Proof.
  intros defaults registry params providers.
  assert (Hbusy : forall ps, succeededBusy params ps
                             = flat_map cfb_busy (succeededFreeBusy params ps)).
  { induction ps as [|q qs IHq]; simpl; [reflexivity|].
    unfold succeededBusy, succeededFreeBusy in *. simpl.
    destruct (getFreeBusy q params); simpl; rewrite ?app_nil_r, IHq; reflexivity. }
  destruct providers as [|p ps] eqn:Hp.
  - unfold getAggregatedFreeBusy. fold providers. rewrite Hp.
    eexists. split; [reflexivity|]. split; [|reflexivity].
    intros id. cbn [fbr_calendars]. rewrite lookup_empty.
    destruct (String.eqb id "__proto__"); reflexivity.
  - destruct (getAggregatedFreeBusy_resolved defaults registry params)
      as (calendars & Hfold & Heq).
    { fold providers. rewrite Hp. discriminate. }
    fold providers in Hfold, Heq. rewrite Hp in Hfold, Heq.
    cbv zeta in Heq. rewrite Heq.
    eexists. split; [reflexivity|]. cbn [fbr_calendars fbr_unified_busy].
    split; [|rewrite Hbusy; reflexivity].
    intros id.
    pose proof (calendars_fold params (p :: ps) ∅ [] []) as Hc.
    rewrite Hfold in Hc. simpl fst in Hc. rewrite Hc.
    destruct (String.eqb_spec id "__proto__") as [->|Hid].
    + rewrite lookup_fold_proto. apply lookup_empty.
    + rewrite lookup_fold_insert by exact Hid.
      destruct (lastAnswerFor id _); [reflexivity | apply lookup_empty].
Qed.

(** ** Listing events across providers *)

Lemma StronglySorted_app_inv {A : Type} (R : A -> A -> Prop) (l1 l2 : list A) :
  StronglySorted R (l1 ++ l2) ->
  StronglySorted R l1 /\ StronglySorted R l2
  /\ (forall a b, In a l1 -> In b l2 -> R a b).
Proof.
  induction l1 as [|x l1 IH]; simpl; intros Hs.
  - split; [constructor|]. split; [exact Hs|]. intros a b [].
  - inversion Hs as [|? ? Hs' Hx]; subst.
    destruct (IH Hs') as (H1 & H2 & H12).
    rewrite List.Forall_forall in Hx.
    split; [|split; [exact H2|]].
    + constructor; [exact H1|]. rewrite List.Forall_forall.
      intros y Hy. apply Hx. apply in_or_app. left. exact Hy.
    + intros a b [<-|Ha] Hb.
      * apply Hx. apply in_or_app. right. exact Hb.
      * apply H12; assumption.
Qed.

(** X15.  [listAllEvents] never throws.  The events it returns are in
    increasing order of start time; they are the earliest events among those
    of the providers that answered: together with the events that the
    [maxResults] limit drops, which all start no earlier than any event
    kept, they are a rearrangement of the answers.  A limit of [n > 0] keeps
    [n] events (all of them when there are fewer); no limit and a limit of
    [0] keep everything.  [partialSuccess] is set exactly when some provider
    failed and the others returned at least one event: it stays unset when
    every provider failed. *)
Theorem listAllEvents_sorted_limited :
  forall (registry : ProviderRegistry) (params : ListEventsParams),
    let providers := filterProviders (lep_providers params) (getConnected registry) in
    let answered := succeededEvents params providers in
    exists listed dropped,
      listAllEvents registry params = Resolved listed
      /\ StronglySorted (fun a b => ev_start a <= ev_start b) (ler_events listed)
      /\ Permutation (ler_events listed ++ dropped) answered
      /\ (forall kept late, In kept (ler_events listed) -> In late dropped ->
            ev_start kept <= ev_start late)
      /\ List.length (ler_events listed)
         = match lep_maxResults params with
           | Some (S n) => Nat.min (S n) (List.length answered)
           | _ => List.length answered
           end
      /\ (ler_partialSuccess listed = true
          <-> failedListings params providers <> [] /\ answered <> []).
Proof.
  intros registry params providers answered.
  set (sorted := sortBy (fun a b => ev_start a <=? ev_start b) answered).
  assert (Hsorted : StronglySorted (fun a b => ev_start a <= ev_start b) sorted)
    by apply (sortBy_sorted ev_start).
  assert (Hperm : Permutation sorted answered) by apply sortBy_perm.
  assert (Hlen : List.length sorted = List.length answered) by apply sortBy_length.
  unfold listAllEvents. fold providers.
  destruct providers as [|p ps] eqn:Hp.
  - exists (mkListEventsResult [] None false), []. simpl.
    assert (Ha : answered = []) by reflexivity. rewrite Ha.
    split; [reflexivity|]. split; [constructor|]. split; [constructor|].
    split; [intros ? ? []|]. split.
    + destruct (lep_maxResults params) as [[|n]|]; reflexivity.
    + split; [discriminate | intros [H _]; contradiction H; reflexivity].
  - unfold allSettled, await.
    rewrite collectEvents_fold, !app_nil_l. fold answered. fold sorted.
    exists (mkListEventsResult
              (match lep_maxResults params with
               | Some (S n) => firstn (S n) sorted
               | _ => sorted
               end)
              (match failedListings params (p :: ps) with
               | [] => None
               | errors => Some errors
               end)
              (negb (Nat.eqb (List.length (failedListings params (p :: ps))) 0)
               && negb (Nat.eqb (List.length sorted) 0))),
           (match lep_maxResults params with
            | Some (S n) => skipn (S n) sorted
            | _ => []
            end).
    cbn [ler_events ler_partialSuccess].
    split; [|split; [|split; [|split; [|split]]]].
    + f_equal. f_equal. destruct (failedListings params (p :: ps)); reflexivity.
    + destruct (lep_maxResults params) as [[|n]|]; try exact Hsorted.
      rewrite <- (firstn_skipn (S n) sorted) in Hsorted.
      apply StronglySorted_app_inv in Hsorted. apply Hsorted.
    + destruct (lep_maxResults params) as [[|n]|];
        rewrite ?app_nil_r, ?firstn_skipn; exact Hperm.
    + intros kept late Hk Hl.
      destruct (lep_maxResults params) as [[|n]|]; try destruct Hl.
      rewrite <- (firstn_skipn (S n) sorted) in Hsorted.
      apply StronglySorted_app_inv in Hsorted.
      destruct Hsorted as (_ & _ & H). apply H; assumption.
    + destruct (lep_maxResults params) as [[|n]|]; try exact Hlen.
      rewrite length_firstn, Hlen. reflexivity.
    + rewrite Hlen, andb_true_iff, !negb_true_iff, !Nat.eqb_neq.
      split; intros [H1 H2]; split.
      * intros H. apply H1. rewrite H. reflexivity.
      * intros H. apply H2. rewrite H. reflexivity.
      * intros H. apply H1. destruct (failedListings params (p :: ps));
          [reflexivity | discriminate].
      * intros H. apply H2. destruct answered; [reflexivity | discriminate].
Qed.

(** ** Listing calendars across providers *)

Lemma collectCalendars_fold (methods : ProviderMethods) (targets : list ICalendarProvider) :
  forall calendars errors,
    fold_left collectCalendars
      (combine (List.map (listCalendars methods) targets) targets) (calendars, errors)
    = (calendars ++ flat_map (fun p => match listCalendars methods p with
                                       | Resolved cals => cals
                                       | Rejected _ => []
                                       end) targets,
       errors ++ flat_map (fun p => match listCalendars methods p with
                                    | Resolved _ => []
                                    | Rejected reason => [toProviderError p reason]
                                    end) targets).
Proof.
  induction targets as [|p ps IH]; intros calendars errors; simpl.
  - rewrite !app_nil_r. reflexivity.
  - destruct (listCalendars methods p) as [cals|reason]; simpl;
      rewrite IH, <- ?app_assoc; reflexivity.
Qed.

Lemma filter_filter_andb {A : Type} (f g : A -> bool) (l : list A) :
  List.filter g (List.filter f l) = List.filter (fun x => f x && g x) l.
Proof.
  induction l as [|x l IH]; simpl; [reflexivity|].
  destruct (f x); simpl; [destruct (g x); rewrite IH; reflexivity | exact IH].
Qed.

(** X16.  [listAllCalendars] never throws.  It asks the connected providers
    (those of the given type when a type is given; ['all'] and no filter
    mean every connected one) and returns the calendars of the providers
    that answered, provider after provider in registration order, next to
    one error for each provider that failed; every provider asked is
    accounted for on exactly one side. *)
Theorem listAllCalendars_partial :
  forall (methods : ProviderMethods) (registry : ProviderRegistry)
         (providerFilter : option ProviderFilter),
    let targets := calendarTargets registry providerFilter in
    exists calendars errors,
      listAllCalendars methods registry providerFilter = Resolved (calendars, errors)
      /\ calendars
         = flat_map (fun p => match listCalendars methods p with
                              | Resolved cals => cals
                              | Rejected _ => []
                              end) targets
      /\ errors
         = flat_map (fun p => match listCalendars methods p with
                              | Resolved _ => []
                              | Rejected reason => [toProviderError p reason]
                              end) targets
      /\ (List.length errors
          + List.length
              (List.filter (fun p => match listCalendars methods p with
                                     | Resolved _ => true
                                     | Rejected _ => false
                                     end) targets)
          = List.length targets)%nat.
Proof.
  intros methods registry providerFilter targets.
  assert (Htargets :
    match providerFilter with
    | Some (FilterType t) =>
        List.filter (fun p => ProviderType_eqb (providerType p) t) (getConnected registry)
    | _ => getConnected registry
    end = targets).
  { unfold targets, calendarTargets, getConnected.
    destruct providerFilter as [[|t]|].
    - apply filter_ext. intros p. rewrite andb_true_r. reflexivity.
    - apply filter_filter_andb.
    - apply filter_ext. intros p. rewrite andb_true_r. reflexivity. }
  unfold listAllCalendars. cbv zeta. rewrite Htargets.
  assert (Hcount : forall l,
    (List.length (flat_map (fun p => match listCalendars methods p with
                                     | Resolved _ => []
                                     | Rejected reason => [toProviderError p reason]
                                     end) l)
     + List.length (List.filter (fun p => match listCalendars methods p with
                                          | Resolved _ => true
                                          | Rejected _ => false
                                          end) l)
     = List.length l)%nat).
  { induction l as [|q l IH]; simpl; [reflexivity|].
    destruct (listCalendars methods q); simpl; lia. }
  destruct targets as [|p ps] eqn:Ht.
  - exists [], []. repeat split; reflexivity.
  - unfold allSettled, await. rewrite collectCalendars_fold, !app_nil_l.
    eexists _, _. split; [reflexivity|]. split; [reflexivity|].
    split; [reflexivity|]. apply Hcount.
Qed.

(** ** Operations on one provider *)

Lemma getProviderByType_first (registry : ProviderRegistry) (type : ProviderType) :
  getProviderByType registry type
  = match firstConnected registry type with
    | Some connected => Resolved connected
    | None => Rejected (noConnectedProvider type)
    end.
Proof.
  unfold getProviderByType, firstConnected, Registry.getByType, Registry.getAll.
  assert (H : List.find isConnected
                (List.filter (fun p => ProviderType_eqb (providerType p) type) registry)
              = List.find (fun p => ProviderType_eqb (providerType p) type && isConnected p)
                  registry).
  { induction registry as [|p ps IH]; simpl; [reflexivity|].
    destruct (ProviderType_eqb (providerType p) type); simpl; [|exact IH].
    destruct (isConnected p); [reflexivity | exact IH]. }
  rewrite H. reflexivity.
Qed.

Lemma ProviderType_eqb_eq (a b : ProviderType) : ProviderType_eqb a b = true <-> a = b.
Proof. destruct a, b; simpl; split; congruence. Qed.

(** X17.  An operation on one provider type ([getEvent], [createEvent]) goes
    to the first connected provider of that type in registration order and
    returns whatever that provider returns or throws; providers registered
    before it are either of another type or not connected.  When no provider
    of the type is connected the operation throws a non-retryable
    [PROVIDER_NOT_FOUND] error and no provider is called. *)
Theorem getEvent_routing :
  forall (methods : ProviderMethods) (registry : ProviderRegistry) (eventId : string)
         (provider : ProviderType) (calendarId : option string)
         (params : CreateEventParams),
    (exists before connected after,
       registry = before ++ connected :: after
       /\ providerType connected = provider /\ isConnected connected = true
       /\ (forall p, In p before -> providerType p <> provider \/ isConnected p = false)
       /\ CalendarService_getEvent methods registry eventId provider calendarId
          = getEvent methods connected eventId calendarId
       /\ CalendarService_createEvent methods registry params provider calendarId
          = createEvent methods connected params calendarId)
    \/ ((forall p, In p registry -> providerType p <> provider \/ isConnected p = false)
        /\ CalendarService_getEvent methods registry eventId provider calendarId
           = Rejected (noConnectedProvider provider)
        /\ CalendarService_createEvent methods registry params provider calendarId
           = Rejected (noConnectedProvider provider)).
Proof.
  intros methods registry eventId provider calendarId params.
  unfold CalendarService_getEvent, CalendarService_createEvent.
  rewrite getProviderByType_first. unfold firstConnected.
  induction registry as [|p ps IH]; simpl.
  - right. split; [intros p []|]. split; reflexivity.
  - destruct (ProviderType_eqb (providerType p) provider && isConnected p) eqn:Hp.
    + left. exists [], p, ps. apply andb_true_iff in Hp. destruct Hp as [Ht Hc].
      apply ProviderType_eqb_eq in Ht.
      split; [reflexivity|]. split; [exact Ht|]. split; [exact Hc|].
      split; [intros q []|]. split; reflexivity.
    + assert (Hskip : providerType p <> provider \/ isConnected p = false).
      { apply andb_false_iff in Hp. destruct Hp as [Ht|Hc]; [left | right; exact Hc].
        intros Heq. apply ProviderType_eqb_eq in Heq. congruence. }
      destruct IH as [(before & connected & after & -> & Ht & Hc & Hb & Hg & Hcr)
                     |(Hnone & Hg & Hcr)].
      * left. exists (p :: before), connected, after.
        split; [reflexivity|]. split; [exact Ht|]. split; [exact Hc|].
        split; [|split; assumption].
        intros q [<-|Hq]; [exact Hskip | apply Hb, Hq].
      * right. split; [|split; assumption].
        intros q [<-|Hq]; [exact Hskip | apply Hnone, Hq].
Qed.

(** ** Connected provider types *)

Lemma uniqueTypes_fold (types : list ProviderType) :
  forall seen,
    List.NoDup seen ->
    let result := fold_left
                    (fun seen t => if includes_provider seen t then seen else seen ++ [t])
                    types seen in
    List.NoDup result /\ (forall t, In t result <-> In t seen \/ In t types).
Proof.
  induction types as [|x types IH]; intros seen Hnd; simpl.
  - split; [exact Hnd|]. intros t. split; [auto | intros [H|[]]; exact H].
  - assert (Hinc : includes_provider seen x = true <-> In x seen).
    { unfold includes_provider. rewrite existsb_exists. split.
      - intros (y & Hy & Heq). apply ProviderType_eqb_eq in Heq. subst. exact Hy.
      - intros Hx. exists x. split; [exact Hx | apply ProviderType_eqb_eq; reflexivity]. }
    destruct (includes_provider seen x) eqn:Hx.
    + destruct (IH seen Hnd) as [H1 H2]. split; [exact H1|].
      intros t. rewrite H2. split.
      * intros [H|H]; auto.
      * intros [H|[<-|H]]; auto. left. apply Hinc. reflexivity.
    + assert (Hnd' : List.NoDup (seen ++ [x])).
      { apply List.NoDup_app.
        - exact Hnd.
        - constructor; [intros [] | constructor].
        - intros a Ha [<-|[]]. apply Hinc in Ha. congruence. }
      destruct (IH (seen ++ [x]) Hnd') as [H1 H2]. split; [exact H1|].
      intros t. rewrite H2, in_app_iff. simpl. tauto.
Qed.

(** X18.  [getConnectedProviderTypes] lists every provider type that has a
    connected provider, and no other, each one once. *)
Theorem getConnectedProviderTypes_exact :
  forall (registry : ProviderRegistry),
    List.NoDup (getConnectedProviderTypes registry)
    /\ (forall t, In t (getConnectedProviderTypes registry)
                  <-> exists p, In p registry /\ isConnected p = true
                                /\ providerType p = t)
    /\ (hasConnectedProviders registry = true
        <-> getConnectedProviderTypes registry <> []).
Proof.
  intros registry. unfold getConnectedProviderTypes, uniqueTypes.
  destruct (uniqueTypes_fold (List.map providerType (getConnected registry)) []
              (List.NoDup_nil _)) as [Hnd Hin].
  cbv zeta in Hin.
  assert (Hmem : forall t,
    In t (fold_left (fun seen t => if includes_provider seen t then seen else seen ++ [t])
            (List.map providerType (getConnected registry)) [])
    <-> exists p, In p registry /\ isConnected p = true /\ providerType p = t).
  { intros t. rewrite Hin, in_map_iff. unfold getConnected. split.
    - intros [[]|(p & Ht & Hp)]. apply filter_In in Hp. exists p. tauto.
    - intros (p & Hp & Hc & Ht). right. exists p. split; [exact Ht|].
      apply filter_In. tauto. }
  split; [exact Hnd|]. split; [exact Hmem|].
  unfold hasConnectedProviders. rewrite negb_true_iff, Nat.eqb_neq.
  split.
  - intros Hlen Hnil.
    destruct (getConnected registry) as [|p ps] eqn:Hc; [contradiction Hlen; reflexivity|].
    assert (Hp : In p (getConnected registry)) by (rewrite Hc; left; reflexivity).
    unfold getConnected in Hp. apply filter_In in Hp.
    assert (Hin' : In (providerType p)
                     (fold_left
                        (fun seen t => if includes_provider seen t then seen else seen ++ [t])
                        (List.map providerType (p :: ps)) [])).
    { apply Hmem. exists p. tauto. }
    rewrite Hnil in Hin'. destruct Hin'.
  - intros Hne Hlen. apply Hne.
    destruct (getConnected registry); [reflexivity | discriminate].
Qed.

(** ** The provider registry *)

Lemma register_get (provider : ICalendarProvider) (registry : ProviderRegistry) (id : string) :
  Registry.get (Registry.register provider registry) id
  = if String.eqb (providerId provider) id then Some provider
    else Registry.get registry id.
Proof.
  unfold Registry.get.
  induction registry as [|p rest IH]; simpl.
  - destruct (String.eqb (providerId provider) id); reflexivity.
  - destruct (String.eqb_spec (providerId p) (providerId provider)) as [Heq|Hne]; simpl.
    + rewrite Heq. destruct (String.eqb (providerId provider) id); reflexivity.
    + destruct (String.eqb_spec (providerId p) id) as [Hid|Hid].
      * destruct (String.eqb_spec (providerId provider) id); [congruence | reflexivity].
      * exact IH.
Qed.

Lemma register_ids (provider : ICalendarProvider) (registry : ProviderRegistry) :
  List.map providerId (Registry.register provider registry)
  = if Registry.has registry (providerId provider)
    then List.map providerId registry
    else List.map providerId registry ++ [providerId provider].
Proof.
  unfold Registry.has.
  induction registry as [|p rest IH]; simpl; [reflexivity|].
  destruct (String.eqb_spec (providerId p) (providerId provider)) as [Heq|Hne]; simpl.
  - rewrite Heq. reflexivity.
  - rewrite IH. destruct (existsb _ rest); reflexivity.
Qed.

Lemma has_In (registry : ProviderRegistry) (id : string) :
  Registry.has registry id = true <-> In id (List.map providerId registry).
Proof.
  unfold Registry.has. rewrite existsb_exists, in_map_iff.
  split; intros (p & H1 & H2).
  - exists p. apply String.eqb_eq in H2. auto.
  - exists p. split; [exact H2 | apply String.eqb_eq; exact H1].
Qed.

(** X19.  Registering a provider makes it the provider of its id and leaves
    every other id as it was; the ids stay pairwise distinct; the count
    grows by one for a new id and stays for an id already present (whose
    provider is replaced in place). *)
Theorem register_get_round_trip :
  forall (provider : ICalendarProvider) (registry : ProviderRegistry),
    let registry' := Registry.register provider registry in
    Registry.get registry' (providerId provider) = Some provider
    /\ Registry.has registry' (providerId provider) = true
    /\ (forall id, id <> providerId provider ->
          Registry.get registry' id = Registry.get registry id
          /\ Registry.has registry' id = Registry.has registry id)
    /\ (List.NoDup (List.map providerId registry) ->
        List.NoDup (List.map providerId registry'))
    /\ Registry.count registry'
       = if Registry.has registry (providerId provider)
         then Registry.count registry else S (Registry.count registry).
Proof.
  intros provider registry registry'.
  assert (Hhas : forall id, Registry.has registry' id = true
                            <-> id = providerId provider \/ Registry.has registry id = true).
  { intros id. unfold registry'. rewrite !has_In, register_ids.
    destruct (Registry.has registry (providerId provider)) eqn:Hp.
    - apply has_In in Hp. split; [auto | intros [->|H]; assumption].
    - rewrite in_app_iff. simpl. split; [intros [H|[H|[]]]; auto | intros [->|H]; auto]. }
  split; [|split; [|split; [|split]]].
  - unfold registry'. rewrite register_get, String.eqb_refl. reflexivity.
  - apply Hhas. left. reflexivity.
  - intros id Hne. split.
    + unfold registry'. rewrite register_get.
      destruct (String.eqb_spec (providerId provider) id); [congruence | reflexivity].
    + apply eq_true_iff_eq. rewrite Hhas. split; [intros [H|H]; [contradiction | exact H] | auto].
  - intros Hnd. unfold registry'. rewrite register_ids.
    destruct (Registry.has registry (providerId provider)) eqn:Hp; [exact Hnd|].
    apply List.NoDup_app; [exact Hnd | constructor; [intros [] | constructor] |].
    intros id Hid [<-|[]]. apply has_In in Hid. congruence.
  - unfold Registry.count, registry'.
    rewrite <- !(List.length_map providerId), register_ids.
    destruct (Registry.has registry (providerId provider)); [reflexivity|].
    rewrite length_app. simpl. lia.
Qed.

Lemma delete_get (registry : ProviderRegistry) (id id' : string) :
  Registry.get (Registry.delete registry id) id'
  = if String.eqb id id' then None else Registry.get registry id'.
Proof.
  unfold Registry.get, Registry.delete.
  induction registry as [|p rest IH]; simpl.
  - destruct (String.eqb id id'); reflexivity.
  - destruct (String.eqb_spec (providerId p) id) as [Hp|Hp]; simpl.
    + rewrite IH. destruct (String.eqb_spec id id') as [Hi|Hi]; [reflexivity|].
      destruct (String.eqb_spec (providerId p) id'); [congruence | reflexivity].
    + destruct (String.eqb_spec (providerId p) id') as [Hq|Hq].
      * destruct (String.eqb_spec id id'); [congruence | reflexivity].
      * exact IH.
Qed.

Lemma get_has (registry : ProviderRegistry) (id : string) :
  Registry.has registry id = match Registry.get registry id with
                             | Some _ => true
                             | None => false
                             end.
Proof.
  unfold Registry.has, Registry.get.
  induction registry as [|p rest IH]; simpl; [reflexivity|].
  destruct (String.eqb (providerId p) id); [reflexivity | exact IH].
Qed.

(** X20.  [remove] answers whether the id was registered.  When it answers,
    the id is gone from the registry and every other id is as before
    (nothing changes when the id was not there).  It throws only what the
    [disconnect] of a registered, connected provider throws; a provider
    that is not connected is removed without being disconnected, one whose
    [disconnect] succeeds is removed, an id that is not registered is
    answered with [false], and [getOrThrow] of a removed id throws
    [PROVIDER_NOT_FOUND]. *)
Theorem remove_outcomes :
  forall (disconnect : ICalendarProvider -> Promise unit)
         (registry : ProviderRegistry) (id : string),
    (forall answer registry',
       Registry.remove disconnect registry id = Resolved (answer, registry') ->
       answer = Registry.has registry id
       /\ Registry.has registry' id = false
       /\ (exists message,
             Registry.getOrThrow registry' id
             = Rejected (CalendarMCPError PROVIDER_NOT_FOUND message false))
       /\ (forall id', id' <> id -> Registry.get registry' id' = Registry.get registry id')
       /\ (answer = false -> registry' = registry))
    /\ (forall reason,
          Registry.remove disconnect registry id = Rejected reason ->
          exists provider,
            Registry.get registry id = Some provider
            /\ isConnected provider = true
            /\ disconnect provider = Rejected reason)
    /\ (forall provider,
          Registry.get registry id = Some provider ->
          isConnected provider = false \/ disconnect provider = Resolved tt ->
          Registry.remove disconnect registry id
          = Resolved (true, Registry.delete registry id))
    /\ (Registry.get registry id = None ->
        Registry.remove disconnect registry id = Resolved (false, registry)).
Proof.
  intros disconnect registry id.
  assert (Hdel : Registry.has (Registry.delete registry id) id = false
                 /\ (exists message,
                       Registry.getOrThrow (Registry.delete registry id) id
                       = Rejected (CalendarMCPError PROVIDER_NOT_FOUND message false))
                 /\ (forall id', id' <> id ->
                       Registry.get (Registry.delete registry id) id'
                       = Registry.get registry id')).
  { split; [|split].
    - rewrite get_has, delete_get, String.eqb_refl. reflexivity.
    - unfold Registry.getOrThrow. rewrite delete_get, String.eqb_refl.
      eexists. reflexivity.
    - intros id' Hne. rewrite delete_get.
      destruct (String.eqb_spec id id'); [congruence | reflexivity]. }
  unfold Registry.remove. rewrite (get_has registry id).
  destruct (Registry.get registry id) as [provider|] eqn:Hget.
  - split; [|split; [|split]].
    + intros answer registry' Hres.
      destruct (isConnected provider); [destruct (disconnect provider) as [[]|r]|];
        simpl in Hres; try discriminate; injection Hres as <- <-;
        (split; [reflexivity|]); destruct Hdel as (H1 & H2 & H3);
        repeat split; try assumption; discriminate.
    + intros reason Hrej. exists provider.
      destruct (isConnected provider); [|discriminate].
      destruct (disconnect provider) as [[]|r]; simpl in Hrej; [discriminate|].
      injection Hrej as ->. repeat split; reflexivity.
    + intros p Hp [Hc|Hd]; injection Hp as <-.
      * rewrite Hc. reflexivity.
      * rewrite Hd. destruct (isConnected provider); reflexivity.
    + discriminate.
  - split; [|split; [|split]].
    + intros answer registry' Hres. injection Hres as <- <-.
      split; [reflexivity|]. split; [rewrite get_has, Hget; reflexivity|].
      split; [unfold Registry.getOrThrow; rewrite Hget; eexists; reflexivity|].
      split; [reflexivity|]. reflexivity.
    + intros reason Hrej. discriminate.
    + intros p Hp. discriminate.
    + reflexivity.
Qed.

(** ** Copying an event *)

(** X21.  [copyEvent] never throws.  It succeeds exactly when the first
    connected provider of the source type returns the event and the first
    connected provider of the target type then creates the copy; the copy
    is created with [sendInvites] off, with the attendees of the source only
    when [includeAttendees] is set, and with the body of the source unless
    [includeBody] is [false].  Otherwise the result is the failure record
    for the requested id, provider and calendar id; when no provider of the
    source type is connected its message says so and no provider is
    called. *)
Theorem copyEvent_outcomes :
  forall (methods : ProviderMethods) (registry : ProviderRegistry) (params : CopyParams),
    exists result,
      copyEvent methods registry params = Resolved result
      /\ (forall sourceEvent copiedEvent,
            result = CopySucceeded sourceEvent copiedEvent
            <-> exists source target,
                  firstConnected registry (cp_sourceProvider params) = Some source
                  /\ getEvent methods source (cp_sourceEventId params)
                       (cp_sourceCalendarId params) = Resolved sourceEvent
                  /\ firstConnected registry (cp_targetProvider params) = Some target
                  /\ createEvent methods target (copyCreateParams params sourceEvent)
                       (cp_targetCalendarId params) = Resolved copiedEvent)
      /\ (forall id provider calendarId error,
            result = CopyFailed id provider calendarId error ->
            id = cp_sourceEventId params /\ provider = cp_sourceProvider params
            /\ calendarId = match cp_sourceCalendarId params with
                            | Some c => c
                            | None => EmptyString
                            end)
      /\ (firstConnected registry (cp_sourceProvider params) = None ->
          exists id provider calendarId,
            result = CopyFailed id provider calendarId
                       (String.append "No connected "
                          (String.append (providerTypeName (cp_sourceProvider params))
                             " provider found")))
      /\ (forall sourceEvent,
            let createParams := copyCreateParams params sourceEvent in
            cep_sendInvites createParams = Some false
            /\ (cp_includeAttendees params <> Some true -> cep_attendees createParams = None)
            /\ (cp_includeBody params <> Some false ->
                cep_body createParams = ed_body (snd sourceEvent))
            /\ (cp_includeBody params = Some false -> cep_body createParams = None)).
Proof.
  intros methods registry params.
  unfold copyEvent, CalendarService_getEvent, CalendarService_createEvent.
  rewrite !getProviderByType_first.
  assert (Hparams : forall sourceEvent,
            let createParams := copyCreateParams params sourceEvent in
            cep_sendInvites createParams = Some false
            /\ (cp_includeAttendees params <> Some true -> cep_attendees createParams = None)
            /\ (cp_includeBody params <> Some false ->
                cep_body createParams = ed_body (snd sourceEvent))
            /\ (cp_includeBody params = Some false -> cep_body createParams = None)).
  { intros sourceEvent. unfold copyCreateParams, copiedAttendees. simpl.
    split; [reflexivity|]. split; [|split].
    - intros Hatt. destruct (cp_includeAttendees params) as [[|]|];
        [contradiction Hatt | |]; reflexivity.
    - intros Hbody. destruct (cp_includeBody params) as [[|]|];
        [| contradiction Hbody |]; reflexivity.
    - intros ->. reflexivity. }
  destruct (firstConnected registry (cp_sourceProvider params)) as [source|] eqn:Hsrc;
    cbn [await].
  - destruct (getEvent methods source (cp_sourceEventId params)
                (cp_sourceCalendarId params)) as [sourceEvent|reason] eqn:Hget;
      cbn [await].
    + destruct (firstConnected registry (cp_targetProvider params)) as [target|] eqn:Htgt;
        cbn [await].
      * destruct (createEvent methods target (copyCreateParams params sourceEvent)
                    (cp_targetCalendarId params)) as [copiedEvent|reason] eqn:Hcreate;
          cbn [await].
        -- eexists. split; [reflexivity|]. split; [|split; [|split]];
             [| discriminate | discriminate | exact Hparams].
           intros src copied. split.
           ++ intros Heq. injection Heq as <- <-. exists source, target.
              repeat split; assumption || reflexivity.
           ++ intros (ps & pt & Hps & Hg & Hpt & Hc).
              injection Hps as <-. rewrite Hget in Hg. injection Hg as <-.
              injection Hpt as <-. rewrite Hcreate in Hc. injection Hc as <-.
              reflexivity.
        -- eexists. split; [reflexivity|]. split; [|split; [|split]];
             [| | discriminate | exact Hparams].
           ++ intros src copied. split; [discriminate|].
              intros (ps & pt & Hps & Hg & Hpt & Hc).
              injection Hps as <-. rewrite Hget in Hg. injection Hg as <-.
              injection Hpt as <-. rewrite Hcreate in Hc. discriminate.
           ++ intros i p c e Heq. injection Heq as <- <- <- _. repeat split.
      * eexists. split; [reflexivity|]. split; [|split; [|split]];
          [| | discriminate | exact Hparams].
        -- intros src copied. split; [discriminate|].
           intros (ps & pt & _ & _ & Hpt & _). discriminate.
        -- intros i p c e Heq. injection Heq as <- <- <- _. repeat split.
    + eexists. split; [reflexivity|]. split; [|split; [|split]];
        [| | discriminate | exact Hparams].
      * intros src copied. split; [discriminate|].
        intros (ps & pt & Hps & Hg & _). injection Hps as <-.
        rewrite Hget in Hg. discriminate.
      * intros i p c e Heq. injection Heq as <- <- <- _. repeat split.
  - eexists. split; [reflexivity|]. split; [|split; [|split]];
      [| | | exact Hparams].
    + intros src copied. split; [discriminate|].
      intros (ps & pt & Hps & _). discriminate.
    + intros i p c e Heq. injection Heq as <- <- <- _. repeat split.
    + intros _. eexists _, _, _. reflexivity.
Qed.

(** ** The conflict report *)




(** X23.  [checkEventConflicts] asks for the conflicts of an event's own
    interval and leaves the event itself out, by id and provider, provided
    its id is not the empty string.  With an empty id nothing is left out:
    the event, when it is listed, does not show as free and has a positive
    length, is then reported as a conflict with itself. *)
Theorem checkEventConflicts_self :
  forall (registry : ProviderRegistry) (event : CalendarEvent),
    exists listed result,
      listAllEvents registry
        (conflictQuery (mkCheckConflictsParams (ev_start event) (ev_end event)
                          (Some (ev_id event)) (Some (ev_provider event))))
      = Resolved listed
      /\ checkEventConflicts registry event = Resolved result
      /\ (ev_id event <> EmptyString ->
          forall c, In c (ccr_conflicts result) ->
            ~ (cf_id c = ev_id event /\ cf_provider c = ev_provider event))
      /\ (ev_id event = EmptyString ->
          In event (ler_events listed) ->
          ev_showAs event <> showAs_free ->
          ev_start event < ev_end event ->
          In (toConflict event) (ccr_conflicts result)).
Proof.
  intros registry event.
  set (params := mkCheckConflictsParams (ev_start event) (ev_end event)
                   (Some (ev_id event)) (Some (ev_provider event))).
  destruct (checkConflicts_resolved registry params) as (listed & suggestion & Hl & Hs & Hc).
  exists listed. eexists. split; [exact Hl|].
  split; [unfold checkEventConflicts; exact Hc|].
  cbv zeta. cbn [ccr_conflicts]. split.
  - intros Hid c Hin [Hcid Hcp].
    apply in_map_iff in Hin. destruct Hin as (e & <- & He).
    apply filter_In in He. destruct He as [_ He].
    apply isConflict_true in He. destruct He as (Hex & _).
    simpl in Hcid, Hcp. unfold isExcluded, params in Hex. simpl in Hex.
    rewrite Hcid, Hcp, String.eqb_refl in Hex.
    assert (Hne : nonEmpty (ev_id event) = true).
    { unfold nonEmpty. destruct (String.eqb_spec (ev_id event) EmptyString);
        [contradiction | reflexivity]. }
    rewrite Hne in Hex. simpl in Hex.
    destruct (ev_provider event); discriminate.
  - intros Hid Hin Hfree Hlen. apply in_map. apply filter_In. split; [exact Hin|].
    apply isConflict_true. split; [|split; [exact Hfree|]].
    + unfold isExcluded, params. simpl. rewrite Hid. reflexivity.
    + unfold rangesOverlap, params. simpl.
      destruct (Z.ltb_spec (ev_start event) (ev_end event)); [|lia].
      destruct (Z.gtb_spec (ev_end event) (ev_start event)); [reflexivity | lia].
Qed.

(** ** The match score: what decides it *)

Lemma fuzzyMatch_self (s : string) : fuzzyMatch s s = 1%Q.
Proof.
  unfold fuzzyMatch. destruct (nonEmpty s); simpl; [|reflexivity].
  rewrite String.eqb_refl. reflexivity.
Qed.

Lemma timeScore_close (diff : Z) : diff <= 60000 -> timeScore diff = 1%Q.
Proof.
  intros H. unfold timeScore. destruct (Z.leb_spec diff 60000); [reflexivity | lia].
Qed.

Lemma timeScore_far (diff : Z) : 300000 < diff -> timeScore diff = 0%Q.
Proof.
  intros H. unfold timeScore. destruct (Z.leb_spec diff 60000); [lia|].
  destruct (Z.leb_spec diff 300000); [lia | reflexivity].
Qed.

Lemma score_shape (source target : CalendarEvent) :
  exists subject location ical : Q,
    (0 <= subject <= 1)%Q /\ (0 <= location <= 1)%Q /\ (0 <= ical <= 1)%Q
    /\ (ev_subject source = ev_subject target -> subject = 1%Q)
    /\ weightedSum (factorScores source target)
       = fold_left (fun acc wf => (acc + inject_Z (fst wf) * snd wf)%Q)
           ([(30, subject);
             (25, timeScore (Z.abs (ev_start source - ev_start target)));
             (20, timeScore (Z.abs (ev_end source - ev_end target)))]
            ++ (if truthy (ev_location source) || truthy (ev_location target)
                then [(10, location)] else [])
            ++ [(10, boolScore (Bool.eqb (ev_isAllDay source) (ev_isAllDay target)))]
            ++ (if truthy (ev_iCalUId source) && truthy (ev_iCalUId target)
                then [(5, ical)] else [])) 0%Q
    /\ weightSum (factorScores source target)
       = 85 + (if truthy (ev_location source) || truthy (ev_location target)
               then 10 else 0)
         + (if truthy (ev_iCalUId source) && truthy (ev_iCalUId target) then 5 else 0).
Proof.
  exists (fuzzyMatch (ev_subject source) (ev_subject target)),
         (fuzzyMatch (orEmpty (ev_location source)) (orEmpty (ev_location target))),
         (boolScore (String.eqb (orEmpty (ev_iCalUId source))
                       (orEmpty (ev_iCalUId target)))).
  split; [apply fuzzyMatch_bounds|]. split; [apply fuzzyMatch_bounds|].
  split; [apply boolScore_bounds|].
  split; [intros ->; apply fuzzyMatch_self|].
  split; [reflexivity|].
  unfold weightSum, factorScores.
  destruct (truthy (ev_location source) || truthy (ev_location target));
    destruct (truthy (ev_iCalUId source) && truthy (ev_iCalUId target)); reflexivity.
Qed.

Ltac qconst :=
  repeat match goal with
    | |- context [inject_Z ?z] =>
        let v := eval vm_compute in (inject_Z z) in change (inject_Z z) with v
    end.

(** X24.  Times decide a match more than names do.  Two events whose
    starts differ by at most a minute, whose ends differ by at most a
    minute and which agree on being all-day score at least 0.55 whatever
    their subjects, locations and iCalUIds are, so their confidence is never
    [low] and [compareCalendars] may pair them. *)
Theorem calculateMatch_same_times :
  forall (source target : CalendarEvent),
    Z.abs (ev_start source - ev_start target) <= 60000 ->
    Z.abs (ev_end source - ev_end target) <= 60000 ->
    ev_isAllDay source = ev_isAllDay target ->
    (11 # 20 <= em_score (calculateMatch source target))%Q
    /\ em_confidence (calculateMatch source target) <> low.
Proof.
  intros source target Hs He Hd.
  assert (Hscore : (11 # 20 <= em_score (calculateMatch source target))%Q).
  { rewrite calculateMatch_score.
    destruct (score_shape source target)
      as (subject & location & ical & Hsub & Hloc & Hical & _ & -> & ->).
    rewrite (timeScore_close _ Hs), (timeScore_close _ He), Hd, eqb_reflx.
    destruct (truthy (ev_location source) || truthy (ev_location target));
      destruct (truthy (ev_iCalUId source) && truthy (ev_iCalUId target));
      cbn [app fold_left fst snd boolScore Z.add];
      (apply Qle_shift_div_l; [reflexivity|]); qconst; lra. }
  split; [exact Hscore|].
  rewrite calculateMatch_confidence. intros Hlow.
  apply confidenceOf_spec in Hlow. lra.
Qed.

Lemma calculateMatch_same_times_witness :
  let a := mkEvent "a" google "primary" "Standup" 1000 2000 false None showAs_busy None in
  let b := mkEvent "b" microsoft "primary" "Dentist" 1000 2000 false None showAs_busy None in
  (11 # 20 <= em_score (calculateMatch a b))%Q
  /\ em_confidence (calculateMatch a b) <> low.
Proof.
  apply (calculateMatch_same_times
           (mkEvent "a" google "primary" "Standup" 1000 2000 false None showAs_busy None)
           (mkEvent "b" microsoft "primary" "Dentist" 1000 2000 false None showAs_busy None));
    simpl; [lia | lia | reflexivity].
Defined.

(** X25.  Two events whose starts differ by more than five minutes and
    whose ends differ by more than five minutes score at most 0.55 even when
    everything else agrees, so their confidence is never [high]. *)
Theorem calculateMatch_different_times :
  forall (source target : CalendarEvent),
    300000 < Z.abs (ev_start source - ev_start target) ->
    300000 < Z.abs (ev_end source - ev_end target) ->
    (em_score (calculateMatch source target) <= 11 # 20)%Q
    /\ em_confidence (calculateMatch source target) <> high.
Proof.
  intros source target Hs He.
  assert (Hscore : (em_score (calculateMatch source target) <= 11 # 20)%Q).
  { rewrite calculateMatch_score.
    destruct (score_shape source target)
      as (subject & location & ical & Hsub & Hloc & Hical & _ & -> & ->).
    rewrite (timeScore_far _ Hs), (timeScore_far _ He).
    pose proof (boolScore_bounds (Bool.eqb (ev_isAllDay source) (ev_isAllDay target)))
      as Hday.
    set (day := boolScore _) in *.
    destruct (truthy (ev_location source) || truthy (ev_location target));
      destruct (truthy (ev_iCalUId source) && truthy (ev_iCalUId target));
      cbn [app fold_left fst snd Z.add];
      (apply Qle_shift_div_r; [reflexivity|]); qconst; lra. }
  split; [exact Hscore|].
  rewrite calculateMatch_confidence. intros Hhigh.
  apply confidenceOf_spec in Hhigh. lra.
Qed.

Lemma calculateMatch_different_times_witness :
  let a := mkEvent "a" google "primary" "Standup" 0 1000000 false None showAs_busy None in
  let b := mkEvent "b" microsoft "primary" "Standup" 400000 1400000 false None
             showAs_busy None in
  (em_score (calculateMatch a b) <= 11 # 20)%Q
  /\ em_confidence (calculateMatch a b) <> high.
Proof.
  apply (calculateMatch_different_times
           (mkEvent "a" google "primary" "Standup" 0 1000000 false None showAs_busy None)
           (mkEvent "b" microsoft "primary" "Standup" 400000 1400000 false None
              showAs_busy None));
    simpl; lia.
Defined.

(** X26.  An event compared with itself scores 1, with confidence [high]
    and every factor matched. *)
Theorem calculateMatch_self :
  forall (event : CalendarEvent),
    (em_score (calculateMatch event event) == 1)%Q
    /\ em_confidence (calculateMatch event event) = high
    /\ Forall (fun f => mf_matched f = true) (em_matchFactors (calculateMatch event event)).
Proof.
  intros event.
  assert (Hscore : (em_score (calculateMatch event event) == 1)%Q).
  { rewrite calculateMatch_score. unfold factorScores.
    rewrite !fuzzyMatch_self, !Z.sub_diag, String.eqb_refl, eqb_reflx.
    destruct (truthy (ev_location event) || truthy (ev_location event));
      destruct (truthy (ev_iCalUId event) && truthy (ev_iCalUId event));
      reflexivity. }
  split; [exact Hscore|]. split.
  - rewrite calculateMatch_confidence. apply confidenceOf_spec. rewrite Hscore. lra.
  - unfold calculateMatch.
    rewrite !fuzzyMatch_self, !Z.sub_diag, String.eqb_refl, eqb_reflx.
    destruct (truthy (ev_location event) || truthy (ev_location event));
      destruct (truthy (ev_iCalUId event) && truthy (ev_iCalUId event));
      cbn [em_matchFactors app]; repeat constructor.
Qed.

(** ** Sorting by a total order given as a test *)

Section SortByTotal.
Context {A : Type}.
Variable leb : A -> A -> bool.
Hypothesis leb_total : forall a b, leb a b = true \/ leb b a = true.
Hypothesis leb_trans : forall a b c, leb a b = true -> leb b c = true -> leb a c = true.

Lemma sortInsert_sorted_total (x : A) (l : list A) :
  StronglySorted (fun a b => leb a b = true) l ->
  StronglySorted (fun a b => leb a b = true) (sortInsert leb x l).
Proof.
  induction 1 as [|y l Hs IH Hy]; simpl.
  - constructor; [constructor | constructor].
  - rewrite List.Forall_forall in Hy.
    destruct (leb x y) eqn:Hxy.
    + constructor; [constructor; [assumption | rewrite List.Forall_forall; exact Hy]|].
      constructor; [assumption|].
      rewrite List.Forall_forall. intros z Hz. apply (leb_trans x y z Hxy), Hy, Hz.
    + constructor; [assumption|].
      rewrite List.Forall_forall. intros z Hz.
      apply (Permutation_in _ (sortInsert_perm leb x l)) in Hz.
      destruct Hz as [<-|Hz]; [|apply Hy, Hz].
      destruct (leb_total x y) as [H|H]; [congruence | exact H].
Qed.

Lemma sortBy_sorted_total (l : list A) :
  StronglySorted (fun a b => leb a b = true) (sortBy leb l).
Proof.
  induction l as [|x l IH]; simpl.
  - constructor.
  - apply sortInsert_sorted_total, IH.
Qed.
End SortByTotal.

Lemma StronglySorted_weaken {A : Type} (R R' : A -> A -> Prop) (l : list A) :
  (forall a b, R a b -> R' a b) -> StronglySorted R l -> StronglySorted R' l.
Proof.
  intros Himp. induction 1 as [|x l Hs IH Hx]; constructor; [exact IH|].
  rewrite List.Forall_forall in Hx. rewrite List.Forall_forall.
  intros y Hy. apply Himp, Hx, Hy.
Qed.

(** ** The synchronizer: all matches *)

(** X27.  [findMatchingEvents] never throws.  It returns the match of every
    pair of a listed source event and a listed target event whose score
    reaches the floor of the requested confidence, and nothing else (a
    target may appear in several matches), ordered from the highest score
    to the lowest. *)
Theorem findMatchingEvents_best_first :
  forall (registry : ProviderRegistry) (params : SyncParams),
  exists src tgt matches,
    listSide registry (sp_sourceProvider params) (sp_sourceCalendarId params)
      (sp_startTime params) (sp_endTime params) = Resolved src
    /\ listSide registry (sp_targetProvider params) (sp_targetCalendarId params)
         (sp_startTime params) (sp_endTime params) = Resolved tgt
    /\ findMatchingEvents registry params = Resolved matches
    /\ StronglySorted (fun a b => (em_score b <= em_score a)%Q) matches
    /\ (forall m, In m matches <->
          exists s t, In s (ler_events src) /\ In t (ler_events tgt)
                      /\ m = calculateMatch s t
                      /\ (minScoreOf (sp_minConfidence params) <= scoreOf s t)%Q).
Proof.
  intros registry params.
  destruct (listSide_resolved registry (sp_sourceProvider params)
              (sp_sourceCalendarId params) (sp_startTime params) (sp_endTime params))
    as (src & Hsrc).
  destruct (listSide_resolved registry (sp_targetProvider params)
              (sp_targetCalendarId params) (sp_startTime params) (sp_endTime params))
    as (tgt & Htgt).
  exists src, tgt.
  unfold findMatchingEvents. rewrite Hsrc, Htgt. cbn [promiseAll2 await fst snd].
  eexists. split; [reflexivity|]. split; [reflexivity|]. split; [reflexivity|].
  rewrite matching_outer_exact, app_nil_l. split.
  - apply (StronglySorted_weaken
             (fun a b => Qle_bool (em_score b) (em_score a) = true)).
    + intros a b Hab. apply Qle_bool_iff. exact Hab.
    + apply sortBy_sorted_total.
      * intros a b. destruct (Qle_bool (em_score b) (em_score a)) eqn:Hab; [left; reflexivity|].
        right. apply Qnot_le_bool in Hab. apply Qle_bool_iff. apply Qlt_le_weak. exact Hab.
      * intros a b c Hab Hbc. apply Qle_bool_iff. apply Qle_bool_iff in Hab, Hbc.
        eapply Qle_trans; eassumption.
  - intros m. rewrite sortBy_In, in_flat_map. split.
    + intros (s & Hs & Hm). apply filter_In in Hm. destruct Hm as [Hm Hscore].
      apply in_map_iff in Hm. destruct Hm as (t & <- & Ht).
      exists s, t. repeat split; try assumption. apply Qle_bool_iff. exact Hscore.
    + intros (s & t & Hs & Ht & -> & Hscore). exists s. split; [exact Hs|].
      apply filter_In. split; [apply in_map; exact Ht|].
      apply Qle_bool_iff. exact Hscore.
Qed.

(** ** The synchronizer: the statistics of a comparison *)

Lemma NoDup_map_sub {A B : Type} (f : A -> B) (l l' : list A) :
  List.NoDup (List.map f l) -> List.NoDup l' -> (forall x, In x l' -> In x l) ->
  List.NoDup (List.map f l').
Proof.
  intros Hnd. induction l' as [|x l' IH]; intros Hnd' Hsub; simpl; [constructor|].
  inversion Hnd' as [|? ? Hnotin Hnd'']; subst.
  constructor.
  - intros Hin. apply in_map_iff in Hin. destruct Hin as (y & Hf & Hy).
    apply Hnotin.
    rewrite <- (NoDup_map_eq f l y x Hnd (Hsub y (or_intror Hy))
                  (Hsub x (or_introl eq_refl)) Hf).
    exact Hy.
  - apply IH; [exact Hnd''|]. intros y Hy. apply Hsub. right. exact Hy.
Qed.

Lemma NoDup_map_filter {A B : Type} (f : A -> B) (p : A -> bool) (l : list A) :
  List.NoDup (List.map f l) -> List.NoDup (List.map f (List.filter p l)).
Proof.
  induction l as [|x l IH]; simpl; intros Hnd; [constructor|].
  inversion Hnd as [|? ? Hnotin Hnd']; subst.
  destruct (p x); simpl; [|apply IH; exact Hnd'].
  constructor; [|apply IH; exact Hnd'].
  intros Hin. apply Hnotin. apply in_map_iff in Hin. destruct Hin as (y & Hf & Hy).
  apply filter_In in Hy. apply in_map_iff. exists y. split; [exact Hf | apply Hy].
Qed.

Lemma filter_split_length {A : Type} (p : A -> bool) (l : list A) :
  (List.length (List.filter (fun x => negb (p x)) l) + List.length (List.filter p l)
   = List.length l)%nat.
Proof.
  induction l as [|x l IH]; simpl; [reflexivity|].
  destruct (p x); simpl; lia.
Qed.

Lemma count_unclaimed (l evs : list CalendarEvent) (X : gset string) :
  List.NoDup (List.map ev_id l) ->
  List.NoDup (List.map ev_id evs) ->
  (forall e, In e evs -> In e l) ->
  (forall id, id ∈ X <-> In id (List.map ev_id evs)) ->
  (List.length evs
   + List.length (List.filter (fun e => negb (bool_decide (ev_id e ∈ X))) l)
   = List.length l)%nat.
Proof.
  intros Hl Hevs Hsub HX.
  rewrite <- (filter_split_length (fun e => bool_decide (ev_id e ∈ X)) l).
  assert (Hperm : Permutation
                    (List.map ev_id (List.filter (fun e => bool_decide (ev_id e ∈ X)) l))
                    (List.map ev_id evs)).
  { apply Stdlib.Sorting.Permutation.NoDup_Permutation;
      [apply NoDup_map_filter; exact Hl | exact Hevs|].
    intros id. rewrite <- HX. rewrite in_map_iff. split.
    - intros (e & <- & He). apply filter_In in He. destruct He as [_ He].
      apply bool_decide_eq_true in He. exact He.
    - intros Hid. pose proof Hid as Hid'. apply HX in Hid'.
      apply in_map_iff in Hid'. destruct Hid' as (e & <- & He).
      exists e. split; [reflexivity|]. apply filter_In. split; [apply Hsub, He|].
      apply bool_decide_eq_true. exact Hid. }
  apply Permutation_length in Hperm. rewrite !List.length_map in Hperm. lia.
Qed.

Lemma Greedy_sources (targets claimed sources : list CalendarEvent) (ms : list EventMatch) :
  Greedy targets claimed sources ms ->
  List.NoDup sources ->
  List.NoDup (List.map em_sourceEvent ms)
  /\ Forall (fun m => (1 # 2 <= em_score m)%Q) ms.
Proof.
  induction 1 as [claimed
                 |claimed s sources ms Hnone Hg IH
                 |claimed s sources t ms Hin Hfree Hhalf Hmax Hg IH]; intros Hnd.
  - split; constructor.
  - inversion Hnd; subst. apply IH. assumption.
  - inversion Hnd as [|? ? Hnotin Hnd']; subst.
    destruct (IH Hnd') as [H1 H2].
    destruct (Greedy_events _ _ _ _ Hg) as (_ & _ & Hsrc).
    split.
    + simpl. constructor; [|exact H1].
      rewrite (proj1 (calculateMatch_events s t)).
      intros Hs. apply in_map_iff in Hs. destruct Hs as (m & <- & Hm).
      apply Hnotin. apply Hsrc. exact Hm.
    + constructor; [exact Hhalf | exact H2].
Qed.

Lemma NoDup_of_map {A B : Type} (f : A -> B) (l : list A) :
  List.NoDup (List.map f l) -> List.NoDup l.
Proof.
  induction l as [|x l IH]; simpl; intros Hnd; [constructor|].
  inversion Hnd as [|? ? Hnotin Hnd']; subst.
  constructor; [|apply IH; exact Hnd'].
  intros Hin. apply Hnotin. apply in_map. exact Hin.
Qed.

(** X28.  The statistics of a comparison add up when no two events of the
    same list share an id: every source event is either matched or in
    [sourceOnly], every target event is either matched or in [targetOnly],
    so that the number of matches plus the number of unmatched events is the
    number of events on each side.  Every match scores at least 0.5, so no
    reported match has confidence [low]. *)
Theorem compareCalendars_statistics :
  forall (sourceEvents targetEvents : list CalendarEvent),
    List.NoDup (List.map ev_id sourceEvents) ->
    List.NoDup (List.map ev_id targetEvents) ->
    let matches := fst (fst (compareEvents sourceEvents targetEvents)) in
    let sourceOnly := snd (fst (compareEvents sourceEvents targetEvents)) in
    let targetOnly := snd (compareEvents sourceEvents targetEvents) in
    (List.length matches + List.length sourceOnly = List.length sourceEvents)%nat
    /\ (List.length matches + List.length targetOnly = List.length targetEvents)%nat
    /\ (forall m, In m matches ->
          (1 # 2 <= em_score m)%Q /\ em_confidence m <> low)
    /\ (forall (registry : ProviderRegistry) (params : SyncParams),
          exists src tgt cmp,
            listSide registry (sp_sourceProvider params) (sp_sourceCalendarId params)
              (sp_startTime params) (sp_endTime params) = Resolved src
            /\ listSide registry (sp_targetProvider params) (sp_targetCalendarId params)
                 (sp_startTime params) (sp_endTime params) = Resolved tgt
            /\ compareCalendars registry params = Resolved cmp
            /\ (cc_matches cmp, cc_sourceOnly cmp, cc_targetOnly cmp)
               = compareEvents (ler_events src) (ler_events tgt)
            /\ cc_statistics cmp
               = mkStatistics (List.length (ler_events src)) (List.length (ler_events tgt))
                   (List.length (cc_matches cmp)) (List.length (cc_sourceOnly cmp))
                   (List.length (cc_targetOnly cmp))).
Proof.
  intros sources targets Hsrc Htgt.
  assert (Hlift : forall (registry : ProviderRegistry) (params : SyncParams),
    exists src tgt cmp,
      listSide registry (sp_sourceProvider params) (sp_sourceCalendarId params)
        (sp_startTime params) (sp_endTime params) = Resolved src
      /\ listSide registry (sp_targetProvider params) (sp_targetCalendarId params)
           (sp_startTime params) (sp_endTime params) = Resolved tgt
      /\ compareCalendars registry params = Resolved cmp
      /\ (cc_matches cmp, cc_sourceOnly cmp, cc_targetOnly cmp)
         = compareEvents (ler_events src) (ler_events tgt)
      /\ cc_statistics cmp
         = mkStatistics (List.length (ler_events src)) (List.length (ler_events tgt))
             (List.length (cc_matches cmp)) (List.length (cc_sourceOnly cmp))
             (List.length (cc_targetOnly cmp))).
  { intros registry params.
    destruct (listSide_resolved registry (sp_sourceProvider params)
                (sp_sourceCalendarId params) (sp_startTime params) (sp_endTime params))
      as (src & Hs).
    destruct (listSide_resolved registry (sp_targetProvider params)
                (sp_targetCalendarId params) (sp_startTime params) (sp_endTime params))
      as (tgt & Ht).
    exists src, tgt. unfold compareCalendars. rewrite Hs, Ht.
    cbn [promiseAll2 await fst snd].
    destruct (compareEvents (ler_events src) (ler_events tgt)) as [[matches so] to].
    eexists. split; [reflexivity|]. split; [reflexivity|]. split; [reflexivity|].
    split; reflexivity. }
  unfold compareEvents.
  destruct (compare_fold targets Htgt sources [] ∅ ∅ [])
    as (ms & srcIds & tgtIds & Hfold & Hg & HsrcIds & HtgtIds).
  { intros t []. }
  { intros id. simpl. rewrite elem_of_empty. tauto. }
  rewrite Hfold. cbn [app fst snd].
  destruct (Greedy_events _ _ _ _ Hg) as (Hnd & Htargets & Hsources).
  destruct (Greedy_sources _ _ _ _ Hg (NoDup_of_map ev_id sources Hsrc)) as (HndS & Hhalf).
  split; [|split; [|split]].
  - rewrite <- (List.length_map em_sourceEvent ms).
    apply count_unclaimed.
    + exact Hsrc.
    + apply (NoDup_map_sub ev_id sources); [exact Hsrc | exact HndS|].
      intros e He. apply in_map_iff in He. destruct He as (m & <- & Hm).
      apply Hsources, Hm.
    + intros e He. apply in_map_iff in He. destruct He as (m & <- & Hm).
      apply Hsources, Hm.
    + intros id. rewrite HsrcIds, elem_of_empty, List.map_map. tauto.
  - rewrite <- (List.length_map em_targetEvent ms).
    apply count_unclaimed.
    + exact Htgt.
    + apply (NoDup_map_sub ev_id targets); [exact Htgt | exact Hnd|].
      intros e He. apply in_map_iff in He. destruct He as (m & <- & Hm).
      apply Htargets, Hm.
    + intros e He. apply in_map_iff in He. destruct He as (m & <- & Hm).
      apply Htargets, Hm.
    + intros id. rewrite HtgtIds, elem_of_empty, List.map_map. tauto.
  - intros m Hm. rewrite List.Forall_forall in Hhalf. specialize (Hhalf m Hm).
    split; [exact Hhalf|].
    intros Hlow.
    assert (Hc : em_confidence m = confidenceOf (em_score m)).
    { clear - Hg Hm. induction Hg as [| |claimed s sources t ms]; [destruct Hm | auto |].
      destruct Hm as [<-|Hm]; [apply calculateMatch_confidence | auto]. }
    rewrite Hc in Hlow. apply confidenceOf_spec in Hlow. lra.
  - exact Hlift.
Qed.

Lemma compareCalendars_statistics_witness :
  let s1 := mkEvent "s1" google "primary" "Standup" 0 1000 false None showAs_busy None in
  let s2 := mkEvent "s2" google "primary" "Retro" 5000000 5001000 false None showAs_busy None in
  let t1 := mkEvent "t1" microsoft "primary" "Retro" 5000000 5001000 false None showAs_busy None in
  (List.length (fst (fst (compareEvents [s1; s2] [t1])))
   + List.length (snd (fst (compareEvents [s1; s2] [t1]))) = 2)%nat
  /\ (List.length (fst (fst (compareEvents [s1; s2] [t1])))
      + List.length (snd (compareEvents [s1; s2] [t1])) = 1)%nat.
Proof.
  cbv zeta.
  destruct (compareCalendars_statistics
              [mkEvent "s1" google "primary" "Standup" 0 1000 false None showAs_busy None;
               mkEvent "s2" google "primary" "Retro" 5000000 5001000 false None
                 showAs_busy None]
              [mkEvent "t1" microsoft "primary" "Retro" 5000000 5001000 false None
                 showAs_busy None])
    as (H1 & H2 & _).
  - repeat constructor; simpl; intuition discriminate.
  - repeat constructor; simpl; intuition discriminate.
  - split; [exact H1 | exact H2].
Defined.

(** ** Working hours of an instant *)

Lemma startOfDay_multiple (t : Z) : startOfDay t = msPerDay * (t / msPerDay).
Proof.
  unfold startOfDay.
  pose proof (Z.div_mod t msPerDay ltac:(unfold msPerDay; lia)). lia.
Qed.

Lemma same_day (day t : Z) :
  day = msPerDay * (day / msPerDay) -> day <= t < day + msPerDay ->
  t / msPerDay = day / msPerDay.
Proof.
  intros Hday Ht. symmetry.
  apply (Z.div_unique t msPerDay (day / msPerDay) (t - day)); unfold msPerDay in *; lia.
Qed.

(** X29.  [isWithinWorkingHours] accepts an instant exactly when its day is
    a working day and the instant lies between the start of the working
    window of that day and one second after its end: the end of the window
    counts, and so does the whole second that begins there, because the
    comparison keeps the milliseconds of the instant on both bounds. *)
Theorem isWithinWorkingHours_window :
  forall (defaults : WorkingHours) (dt : Z) (workingHours : option WorkingHours),
    isWithinWorkingHours defaults dt workingHours = true
    <-> exists workStart workEnd,
          getWorkingHoursForDay defaults dt workingHours = Some (workStart, workEnd)
          /\ workStart <= dt < workEnd + 1000.
Proof.
  intros defaults dt workingHours.
  unfold isWithinWorkingHours, getWorkingHoursForDay, setHourMinute, setTime.
  set (hours := match workingHours with Some h => h | None => defaults end).
  destruct (includes_string (wh_days hours) (weekdayLong dt)); simpl.
  - pose proof (startOfDay_multiple dt) as Hday.
    pose proof (Z.div_mod dt 1000 ltac:(lia)) as Hdm.
    pose proof (Z.mod_pos_bound dt 1000 ltac:(lia)) as Hb.
    set (day := startOfDay dt) in *. set (q := dt / msPerDay) in *.
    unfold msPerDay, msPerMinute in *.
    rewrite andb_true_iff, Z.geb_le, Z.leb_le. split.
    + intros [H1 H2]. eexists _, _. split; [reflexivity|]. lia.
    + intros (ws & we & Heq & H1 & H2). injection Heq as <- <-. lia.
  - split; [discriminate|]. intros (ws & we & Heq & _). discriminate.
Qed.

(** X30.  The working-hours filter and the working-hours test agree: when
    the working window lies within one calendar day (its start not before
    midnight, its end not after the next midnight), every instant of every
    slot that [filterToWorkingHours] returns passes [isWithinWorkingHours]. *)
Theorem filterToWorkingHours_within :
  forall (defaults : WorkingHours) (freeSlots : list FreeSlot) (rangeStart rangeEnd : Z)
         (workingHours : option WorkingHours) (w : FreeSlot) (t : Z),
    let hours := match workingHours with Some h => h | None => defaults end in
    0 <= fst (wh_start hours) * 3600000 + snd (wh_start hours) * msPerMinute ->
    fst (wh_end hours) * 3600000 + snd (wh_end hours) * msPerMinute <= msPerDay ->
    In w (filterToWorkingHours defaults freeSlots rangeStart rangeEnd workingHours) ->
    fs_start w <= t < fs_end w ->
    isWithinWorkingHours defaults t workingHours = true.
Proof.
  intros defaults freeSlots rs re wh w t hours Hstart Hend Hin Ht.
  unfold filterToWorkingHours in Hin.
  apply filterToWorkingHours_fold_In in Hin.
  destruct Hin as [[]|(slot & k & _ & Hw)].
  unfold windowOf in Hw.
  set (q := fs_start slot / msPerDay + Z.of_nat k).
  assert (Hday : startOfDay (fs_start slot) + Z.of_nat k * msPerDay = msPerDay * q).
  { rewrite startOfDay_multiple. unfold q. lia. }
  rewrite Hday in Hw.
  destruct (msPerDay * q <? fs_end slot); [|discriminate].
  unfold getWorkingHoursForDay in Hw. fold hours in Hw.
  assert (Hq : (msPerDay * q) / msPerDay = q).
  { rewrite Z.mul_comm. apply Z.div_mul. unfold msPerDay. lia. }
  assert (Hsod : startOfDay (msPerDay * q) = msPerDay * q).
  { rewrite startOfDay_multiple, Hq. reflexivity. }
  unfold setTime in Hw. rewrite Hsod in Hw.
  destruct (includes_string (wh_days hours) (weekdayLong (msPerDay * q))) eqn:Hinc;
    [|discriminate].
  simpl in Hw.
  destruct (Z.ltb_spec
              (Z.max (fs_start slot)
                 (msPerDay * q + fst (wh_start hours) * 3600000
                  + snd (wh_start hours) * msPerMinute))
              (Z.min (fs_end slot)
                 (msPerDay * q + fst (wh_end hours) * 3600000
                  + snd (wh_end hours) * msPerMinute))); [|discriminate].
  injection Hw as <-. simpl in Ht.
  assert (Htq : t / msPerDay = q).
  { symmetry. apply (Z.div_unique t msPerDay q (t - msPerDay * q)); lia. }
  unfold isWithinWorkingHours, setHourMinute. fold hours.
  assert (Hwd : weekdayLong t = weekdayLong (msPerDay * q)).
  { unfold weekdayLong. rewrite Htq, Hq. reflexivity. }
  rewrite Hwd, Hinc. simpl.
  rewrite startOfDay_multiple, Htq.
  pose proof (Z.div_mod t 1000 ltac:(lia)) as Hdm.
  pose proof (Z.mod_pos_bound t 1000 ltac:(lia)) as Hb.
  unfold msPerDay, msPerMinute in *.
  apply andb_true_iff. rewrite Z.geb_le, Z.leb_le. lia.
Qed.

Lemma filterToWorkingHours_within_witness :
  isWithinWorkingHours
    (mkWorkingHours (9, 0) (17, 0) ["thursday"%string]) 40000000 None = true.
Proof.
  apply (filterToWorkingHours_within
           (mkWorkingHours (9, 0) (17, 0) ["thursday"%string])
           [mkFreeSlot 0 86400000 1440] 0 86400000 None
           (mkFreeSlot 32400000 61200000 480) 40000000).
  - simpl. lia.
  - simpl. unfold msPerDay. lia.
  - left. reflexivity.
  - simpl. lia.
Defined.
